(** * DNQObstacle: a multi-agent grid world and its DQN training loop

    Shallow embedding of [src/DNQObstacle.py]: the grid world
    [TrafficRoutingEnv] (reset / step with collision arbitration and
    potential-based reward shaping), the replay buffer, the observation
    encoder [obs_to_state] and the part of [MADQNTrainer.train] that stores
    transitions and maintains the per-agent done flags.

    Python integers are [Z]; Python dictionaries keyed by agent id are
    [gmap nat _]; the observation map, whose insertion order the encoder
    depends on, is an association list; Python floats are IEEE-754 binary64
    values and [np.float32] values are binary32 values, both represented by
    [spec_float] with the operations of the standard library's [SpecFloat].
    A raised exception is [None]. *)

From Stdlib Require Import ZArith QArith Qabs Lia.
From Stdlib Require Import Floats.SpecFloat.
From stdpp Require Import gmap list.

Local Open Scope Z_scope.

(** ** Python built-ins *)

Module Py.

(** [range(a, b)] *)
Definition range (a b : nat) : list nat := seq a (b - a).

(** A [for] loop over [l] whose body may raise: the loop state is threaded
    through the iterations and the first exception aborts the loop. *)
Fixpoint for_ {A S : Type} (l : list A) (body : A → S → option S) (s : S)
    : option S :=
  match l with
  | [] => Some s
  | x :: l' => s' ← body x s; for_ l' body s'
  end.

(** The comprehension [{i: f(i) for i in range(n)}]. *)
Fixpoint dict_range {A : Type} (f : nat → option A) (n : nat)
    : option (gmap nat A) :=
  match n with
  | O => Some ∅
  | S k => m ← dict_range f k; v ← f k; Some (<[k:=v]> m)
  end.

(** [all(d.values())] for a dictionary of booleans. *)
Definition all_values (d : gmap nat bool) : bool :=
  bool_decide (map_Forall (λ _ b, b = true) d).

(** Lookup [d[k]] in an insertion-ordered dictionary. *)
Fixpoint getitem {A : Type} (d : list (nat * A)) (k : nat) : option A :=
  match d with
  | [] => None
  | (k', v) :: d' => if bool_decide (k' = k) then Some v else getitem d' k
  end.

End Py.

(** ** Floating point *)

(** Python [float]: IEEE-754 binary64, round to nearest even. *)
Module Float64.

Definition prec : Z := 53.
Definition emax : Z := 1024.

(** Conversion of a Python [int] in mixed arithmetic.  The conversion is
    correctly rounded; CPython raises [OverflowError] where this yields an
    infinity, which needs an integer of more than a thousand bits. *)
Definition of_int (z : Z) : spec_float := binary_normalize prec emax z 0 false.

Definition add : spec_float → spec_float → spec_float := SFadd prec emax.
Definition sub : spec_float → spec_float → spec_float := SFsub prec emax.
Definition mul : spec_float → spec_float → spec_float := SFmul prec emax.

(** True division [a / b] of two Python integers: the correctly rounded
    quotient, [ZeroDivisionError] for [b = 0] and [OverflowError] when the
    quotient is too large. *)
Definition truediv (a b : Z) : option spec_float :=
  if b =? 0 then None
  else if a =? 0 then Some (S754_zero (b <? 0))
  else
    let '(m, e, l) := SFdiv_core_binary prec emax (Z.abs a) 0 (Z.abs b) 0 in
    match binary_round_aux prec emax (xorb (a <? 0) (b <? 0)) m e l with
    | S754_infinity _ => None
    | q => Some q
    end.

End Float64.

(** [np.float32]: IEEE-754 binary32. *)
Module Float32.

Definition prec : Z := 24.
Definition emax : Z := 128.

(** [np.float32(x)] for a Python float [x]. *)
Definition of_float64 (x : spec_float) : spec_float :=
  match x with
  | S754_finite s m e => binary_round prec emax s m e
  | _ => x
  end.

Definition of_int (z : Z) : spec_float := binary_normalize prec emax z 0 false.

(** [x == n] for a binary32 value [x] and a Python integer [n]. *)
Definition eq_int (x : spec_float) (n : Z) : bool := SFeqb x (of_int n).

Definition zero : spec_float := S754_zero false.
Definition one : spec_float := Eval vm_compute in of_float64 (Float64.of_int 1).

End Float32.

(** The exact rational value of a finite float. *)
Definition SF2Q (x : spec_float) : Q :=
  match x with
  | S754_finite s m e =>
      match e with
      | Zneg p => Qmake (cond_Zopp s (Zpos m)) (2 ^ p)%positive
      | _ => inject_Z (cond_Zopp s (Zpos m) * 2 ^ e)
      end
  | _ => 0%Q
  end.

Definition is_finite (x : spec_float) : bool :=
  match x with
  | S754_zero _ | S754_finite _ _ _ => true
  | _ => false
  end.

(** ** Part 1: the grid world [TrafficRoutingEnv] *)

Abbreviation Cell := (Z * Z)%type.

(** One entry of the observation map returned by [_get_observations]. *)
Record Observation := {
  position : Cell;
  destination : Cell;
  obs_obstacles : option (list Cell)
}.

(** The instance attributes of [TrafficRoutingEnv]. *)
Record TrafficRoutingEnv := {
  grid_size : Z * Z;
  num_agents : nat;
  _initial_positions : gmap nat Cell;
  destinations : gmap nat Cell;
  agent_positions : gmap nat Cell;
  _arrived : gmap nat bool;
  steps : Z;
  obstacles : list Cell
}.

(** [np.random.randint(high)]: an integer of [[0, high)] chosen by the
    generator, whose raw output is [raw]; [ValueError] unless [0 < high]. *)
Definition randint (raw high : Z) : option Z :=
  if 0 <? high then Some (raw mod high) else None.

(** The pair [(randint(rows), randint(cols))] drawn for one agent. *)
Definition random_cell (grid : Z * Z) (raws : Z * Z) : option Cell :=
  x ← randint (fst raws) (fst grid);
  y ← randint (snd raws) (snd grid);
  Some (x, y).

(** The validation loop at the end of [__init__]: every obstacle is compared
    with every agent's initial position and destination. *)
Definition check_obstacles (n : nat) (init dest : gmap nat Cell)
    (obs : list Cell) : option unit :=
  Py.for_ obs (λ o _,
    Py.for_ (Py.range 0 n) (λ i _,
      p ← init !! i;
      if bool_decide (o = p) then None
      else
        d ← dest !! i;
        if bool_decide (o = d) then None else Some ()) ()) ().

(** [TrafficRoutingEnv.__init__].  [rng k] is the pair of raw generator
    outputs consumed by the [k]-th drawn cell: the initial positions are
    drawn first, then the destinations. *)
Definition TrafficRoutingEnv_init (grid : Z * Z) (n : nat)
    (obs : option (list Cell)) (rng : nat → Z * Z) : option TrafficRoutingEnv :=
  init ← Py.dict_range (λ i, random_cell grid (rng i)) n;
  dest ← Py.dict_range (λ i, random_cell grid (rng (n + i)%nat)) n;
  arrived ← Py.dict_range (λ _, Some false) n;
  let obstacles := default [] obs in
  _ ← check_obstacles n init dest obstacles;
  Some {| grid_size := grid; num_agents := n;
          _initial_positions := init; destinations := dest;
          agent_positions := init; _arrived := arrived;
          steps := 0; obstacles := obstacles |}.

Definition _get_observations (env : TrafficRoutingEnv)
    : option (list (nat * Observation)) :=
  Py.for_ (Py.range 0 (num_agents env)) (λ i obs,
    p ← agent_positions env !! i;
    d ← destinations env !! i;
    Some (obs ++ [(i, {| position := p; destination := d;
                         obs_obstacles := Some (obstacles env) |})])) [].

(** [TrafficRoutingEnv.reset]: the new attribute values and the returned
    observation map. *)
Definition reset_env (env : TrafficRoutingEnv) : option TrafficRoutingEnv :=
  arrived ← Py.dict_range (λ _, Some false) (num_agents env);
  Some {| grid_size := grid_size env; num_agents := num_agents env;
          _initial_positions := _initial_positions env;
          destinations := destinations env;
          agent_positions := _initial_positions env;
          _arrived := arrived;
          steps := 0; obstacles := obstacles env |}.

Definition reset (env : TrafficRoutingEnv)
    : option (TrafficRoutingEnv * list (nat * Observation)) :=
  env' ← reset_env env;
  obs ← _get_observations env';
  Some (env', obs).

(** *** [step] *)

(** The cell an action moves to from [(x, y)]: 0 up, 1 down, 2 left,
    3 right; any other action, or a move off the grid, stays. *)
Definition move (grid : Z * Z) (action : Z) (p : Cell) : Cell :=
  let '(x, y) := p in
  if (action =? 0) && (0 <? x) then (x - 1, y)
  else if (action =? 1) && (x <? fst grid - 1) then (x + 1, y)
  else if (action =? 2) && (0 <? y) then (x, y - 1)
  else if (action =? 3) && (y <? snd grid - 1) then (x, y + 1)
  else (x, y).

(** Body of the loop over [actions.items()]: the desired cell of agent [i]. *)
Definition desired_cell (env : TrafficRoutingEnv) (old : gmap nat Cell)
    (i : nat) (action : Z) : option Cell :=
  if default false (_arrived env !! i) then old !! i
  else
    p ← old !! i;
    let q := move (grid_size env) action p in
    Some (if bool_decide (q ∈ obstacles env) then p else q).

Definition compute_new_positions (env : TrafficRoutingEnv)
    (old : gmap nat Cell) (actions : gmap nat Z) : option (gmap nat Cell) :=
  map_fold (λ i action acc,
              new ← acc; c ← desired_cell env old i action; Some (<[i:=c]> new))
           (Some ∅) actions.

(** Body of the nested swap loop for the pair [(i, j)]; the second
    comparison is only evaluated when the first one holds. *)
Definition swap_pair (old new : gmap nat Cell) (i j : nat) (sb : gset nat)
    : option (gset nat) :=
  ni ← new !! i;
  oj ← old !! j;
  if bool_decide (ni = oj) then
    nj ← new !! j;
    oi ← old !! i;
    Some (if bool_decide (nj = oi) then {[j]} ∪ ({[i]} ∪ sb) else sb)
  else Some sb.

Definition compute_swap_blocked (n : nat) (old new : gmap nat Cell)
    : option (gset nat) :=
  Py.for_ (Py.range 0 n) (λ i sb,
    Py.for_ (Py.range (i + 1) n) (λ j sb, swap_pair old new i j sb) sb) ∅.

(** [desired_cells[new_positions[i]].append(i)] on a [defaultdict(list)]. *)
Definition compute_desired_cells (n : nat) (new : gmap nat Cell)
    (sb : gset nat) : option (gmap Cell (list nat)) :=
  Py.for_ (Py.range 0 n) (λ i dc,
    if bool_decide (i ∈ sb) then Some dc
    else
      c ← new !! i;
      Some (<[c := default [] (dc !! c) ++ [i]]> dc)) ∅.

Definition compute_collision_blocked (dc : gmap Cell (list nat)) : gset nat :=
  map_fold (λ _ agents cb,
              if (1 <? length agents)%nat then
                foldl (λ cb a, {[a]} ∪ cb) cb agents
              else cb) ∅ dc.

Definition compute_final_positions (n : nat) (old new : gmap nat Cell)
    (blocked : gset nat) : option (gmap nat Cell) :=
  Py.dict_range (λ i, if bool_decide (i ∈ blocked) then old !! i else new !! i) n.

(** State of the scoring loop: raw rewards, per-agent dones, arrival latches. *)
Record Scores := {
  sc_raw : gmap nat Z;
  sc_dones : gmap nat bool;
  sc_arrived : gmap nat bool
}.

Definition score_agent (pos dest : gmap nat Cell) (i : nat) (s : Scores)
    : option Scores :=
  p ← pos !! i;
  d ← dest !! i;
  if bool_decide (p = d) then
    a ← sc_arrived s !! i;
    if negb a then
      Some {| sc_raw := <[i:=10]> (sc_raw s);
              sc_dones := <[i:=true]> (sc_dones s);
              sc_arrived := <[i:=true]> (sc_arrived s) |}
    else
      Some {| sc_raw := <[i:=0]> (sc_raw s);
              sc_dones := <[i:=true]> (sc_dones s);
              sc_arrived := sc_arrived s |}
  else
    Some {| sc_raw := <[i:=-1]> (sc_raw s);
            sc_dones := <[i:=false]> (sc_dones s);
            sc_arrived := sc_arrived s |}.

Definition compute_scores (n : nat) (pos dest : gmap nat Cell)
    (arrived : gmap nat bool) : option Scores :=
  Py.for_ (Py.range 0 n) (score_agent pos dest)
          {| sc_raw := ∅; sc_dones := ∅; sc_arrived := arrived |}.

Definition manhattan (p q : Cell) : Z :=
  Z.abs (fst p - fst q) + Z.abs (snd p - snd q).

(** The float literal [0.99]. *)
Definition gamma : spec_float := S754_finite false 8917127262193582 (-53).

(** [np.float32(raw + (gamma * phi_new - phi_old))] with [phi = -dist]. *)
Definition shaped_reward (raw dist_old dist_new : Z) : spec_float :=
  let phi_old := - dist_old in
  let phi_new := - dist_new in
  Float32.of_float64
    (Float64.add (Float64.of_int raw)
       (Float64.sub (Float64.mul gamma (Float64.of_int phi_new))
                    (Float64.of_int phi_old))).

Definition compute_shaped_rewards (n : nat) (old pos dest : gmap nat Cell)
    (raw : gmap nat Z) : option (gmap nat spec_float) :=
  Py.dict_range (λ i,
    o ← old !! i;
    g ← dest !! i;
    p ← pos !! i;
    r ← raw !! i;
    Some (shaped_reward r (manhattan o g) (manhattan p g))) n.

(** The local variables of one call of [step]. *)
Record StepLocals := {
  old_positions : gmap nat Cell;
  new_positions : gmap nat Cell;
  swap_blocked : gset nat;
  desired_cells : gmap Cell (list nat);
  collision_blocked : gset nat;
  final_positions : gmap nat Cell;
  raw_rewards : gmap nat Z;
  dones : gmap nat bool;
  arrived_after : gmap nat bool;
  shaped_rewards : gmap nat spec_float
}.

Definition step_locals (env : TrafficRoutingEnv) (actions : gmap nat Z)
    : option StepLocals :=
  let n := num_agents env in
  old ← Py.dict_range (λ i, agent_positions env !! i) n;
  new ← compute_new_positions env old actions;
  sb ← compute_swap_blocked n old new;
  dc ← compute_desired_cells n new sb;
  let cb := compute_collision_blocked dc in
  final ← compute_final_positions n old new (sb ∪ cb);
  sc ← compute_scores n final (destinations env) (_arrived env);
  shaped ← compute_shaped_rewards n old final (destinations env) (sc_raw sc);
  Some {| old_positions := old; new_positions := new; swap_blocked := sb;
          desired_cells := dc; collision_blocked := cb;
          final_positions := final; raw_rewards := sc_raw sc;
          dones := sc_dones sc; arrived_after := sc_arrived sc;
          shaped_rewards := shaped |}.

(** What [step] returns: observations, shaped rewards, the episode-done
    flag, the empty info dictionary and the collision count. *)
Record StepResult := {
  observations : list (nat * Observation);
  rewards : gmap nat spec_float;
  done : bool;
  info : gmap nat Z;
  num_collisions : nat
}.

Definition env_after (env : TrafficRoutingEnv) (l : StepLocals)
    : TrafficRoutingEnv :=
  {| grid_size := grid_size env; num_agents := num_agents env;
     _initial_positions := _initial_positions env;
     destinations := destinations env;
     agent_positions := final_positions l;
     _arrived := arrived_after l;
     steps := steps env + 1; obstacles := obstacles env |}.

Definition step (env : TrafficRoutingEnv) (actions : gmap nat Z)
    : option (TrafficRoutingEnv * StepResult) :=
  l ← step_locals env actions;
  let env' := env_after env l in
  obs ← _get_observations env';
  Some (env',
        {| observations := obs;
           rewards := shaped_rewards l;
           done := Py.all_values (dones l) || (50 <=? steps env');
           info := ∅;
           num_collisions :=
             (size (swap_blocked l) + size (collision_blocked l))%nat |}).

(** An action map is well formed when it gives an action to every agent id
    and to nothing else. *)
Definition well_formed_actions (n : nat) (actions : gmap nat Z) : Prop :=
  dom actions = set_seq 0 n.

(** ** Part 2: replay buffer, observation encoder and training loop *)

(** A stored transition [(state, action, reward, next_state, done)]. *)
Record Transition := {
  t_state : list spec_float;
  t_action : Z;
  t_reward : spec_float;
  t_next_state : list spec_float;
  t_done : bool
}.

(** [collections.deque.append] on a deque with [maxlen]: the element is
    appended on the right and, when the deque then exceeds [maxlen], one
    element is dropped on the left. *)
Definition deque_append {A : Type} (maxlen : Z) (d : list A) (x : A) : list A :=
  let d' := d ++ [x] in
  if maxlen <? Z.of_nat (length d') then drop 1 d' else d'.

Record ReplayBuffer := {
  capacity : Z;
  buffer : list Transition
}.

(** [ReplayBuffer.__init__]; [deque(maxlen=capacity)] raises [ValueError]
    for a negative [maxlen]. *)
Definition ReplayBuffer_init (capacity : Z) : option ReplayBuffer :=
  if capacity <? 0 then None
  else Some {| capacity := capacity; buffer := [] |}.

Definition push (rb : ReplayBuffer) (state : list spec_float) (action : Z)
    (reward : spec_float) (next_state : list spec_float) (done : bool)
    : ReplayBuffer :=
  {| capacity := capacity rb;
     buffer := deque_append (capacity rb) (buffer rb)
                 {| t_state := state; t_action := action; t_reward := reward;
                    t_next_state := next_state; t_done := done |} |}.

(** [ReplayBuffer.__len__] *)
Definition len (rb : ReplayBuffer) : nat := length (buffer rb).

(** Pushing a sequence of transitions, oldest first. *)
Definition push_all (rb : ReplayBuffer) (ts : list Transition) : ReplayBuffer :=
  foldl (λ rb t, push rb (t_state t) (t_action t) (t_reward t)
                      (t_next_state t) (t_done t)) rb ts.

(** *** [obs_to_state] *)

(** A two-dimensional [float32] array created by [np.zeros]: the entries
    that were assigned, every other entry being [0.0]. *)
Record Array2 := {
  shape : Z * Z;
  entries : gmap Cell spec_float
}.

Definition np_zeros (shape : Z * Z) : option Array2 :=
  if (fst shape <? 0) || (snd shape <? 0) then None
  else Some {| shape := shape; entries := ∅ |}.

(** Index normalisation of NumPy along an axis of length [size]: a negative
    index counts from the end, anything else out of range is [IndexError]. *)
Definition np_index (size idx : Z) : option Z :=
  if (0 <=? idx) && (idx <? size) then Some idx
  else if (- size <=? idx) && (idx <? 0) then Some (idx + size)
  else None.

Definition np_set (a : Array2) (idx : Cell) (v : spec_float) : option Array2 :=
  r ← np_index (fst (shape a)) (fst idx);
  c ← np_index (snd (shape a)) (snd idx);
  Some {| shape := shape a; entries := <[(r, c) := v]> (entries a) |}.

Definition np_get (a : Array2) (idx : Cell) : option spec_float :=
  r ← np_index (fst (shape a)) (fst idx);
  c ← np_index (snd (shape a)) (snd idx);
  Some (default Float32.zero (entries a !! (r, c))).

(** The occupancy grid: obstacles of the first observation, then the
    positions [obs[j]] for [j] in [range(len(obs))]. *)
Definition occupancy_grid (obs : list (nat * Observation)) (grid : Z * Z)
    : option Array2 :=
  occ ← np_zeros grid;
  first ← snd <$> head obs;
  occ ← match obs_obstacles first with
        | Some cells => Py.for_ cells (λ c occ, np_set occ c Float32.one) occ
        | None => Some occ
        end;
  Py.for_ (Py.range 0 (length obs)) (λ j occ,
    o ← Py.getitem obs j;
    np_set occ (position o) Float32.one) occ.

(** The flattened 3x3 window [local] around [(x, y)], row-major. *)
Definition local_window (occ : Array2) (grid : Z * Z) (x y : Z)
    : option (list spec_float) :=
  mapM (λ off : Z * Z,
          let nx := x + fst off in
          let ny := y + snd off in
          if (0 <=? nx) && (nx <? fst grid) && (0 <=? ny) && (ny <? snd grid)
          then np_get occ (nx, ny)
          else Some Float32.zero)
       [(-1, -1); (-1, 0); (-1, 1); (0, -1); (0, 0); (0, 1); (1, -1); (1, 0); (1, 1)].

(** One entry of a [float32] array built from the quotient of two ints. *)
Definition ratio32 (a b : Z) : option spec_float :=
  Float32.of_float64 <$> Float64.truediv a b.

(** The 14-dimensional state vector of one agent. *)
Definition encode_agent (occ : Array2) (grid : Z * Z) (info : Observation)
    : option (list spec_float) :=
  let '(H, W) := grid in
  let '(x, y) := position info in
  let '(dx, dy) := destination info in
  p1 ← ratio32 x (H - 1);
  p2 ← ratio32 y (W - 1);
  p3 ← ratio32 dx (H - 1);
  p4 ← ratio32 dy (W - 1);
  local_flat ← local_window occ grid x y;
  let dist := Z.abs (x - dx) + Z.abs (y - dy) in
  dist_norm ← ratio32 dist ((H - 1) + (W - 1));
  Some ([p1; p2; p3; p4] ++ local_flat ++ [dist_norm]).

Definition obs_to_state (obs : list (nat * Observation)) (grid : Z * Z)
    : option (gmap nat (list spec_float)) :=
  occ ← occupancy_grid obs grid;
  Py.for_ obs (λ '(agent_id, info) state_dict,
    state ← encode_agent occ grid info;
    Some (<[agent_id := state]> state_dict)) ∅.

(** *** The inner loop of [MADQNTrainer.train] *)

(** [select_action]: a finished agent stays (action 4); otherwise the
    epsilon-greedy draw or the network's argmax, whose outcome is [choice]. *)
Definition select_action (choice : Z) (done : bool) : Z :=
  if done then 4 else choice.

(** The variables the inner loop carries from one step to the next.  The
    running sum [total_reward] and the networks updated by [optimize_agent]
    are not part of it: they influence neither the buffers nor the flags. *)
Record TrainState := {
  env : TrafficRoutingEnv;
  state_dict : gmap nat (list spec_float);
  done_dict : gmap nat bool;
  replay_buffers : gmap nat ReplayBuffer
}.

(** Body of the loop that stores the transitions and updates [done_dict]. *)
Definition store_transition (state_dict next_state_dict : gmap nat (list spec_float))
    (actions : gmap nat Z) (rewards : gmap nat spec_float) (i : nat)
    (s : gmap nat ReplayBuffer * gmap nat bool)
    : option (gmap nat ReplayBuffer * gmap nat bool) :=
  let '(buffers, done_dict) := s in
  rb ← buffers !! i;
  st ← state_dict !! i;
  a ← actions !! i;
  r ← rewards !! i;
  st' ← next_state_dict !! i;
  d ← done_dict !! i;
  let buffers := <[i := push rb st a r st' d]> buffers in
  Some (buffers,
        if Float32.eq_int r 10 then <[i := true]> done_dict else done_dict).

(** The start of an episode: reset, encode, clear the done flags. *)
Definition episode_start (n : nat) (e : TrafficRoutingEnv)
    (buffers : gmap nat ReplayBuffer) : option TrainState :=
  '(e', obs) ← reset e;
  sd ← obs_to_state obs (grid_size e');
  dd ← Py.dict_range (λ _, Some false) n;
  Some {| env := e'; state_dict := sd; done_dict := dd;
          replay_buffers := buffers |}.

(** One iteration of the step loop, up to [state_dict = next_state_dict];
    the second component is [done_all]. *)
Definition train_step (n : nat) (choices : nat → Z) (ts : TrainState)
    : option (TrainState * bool) :=
  actions ← Py.dict_range (λ i,
               st ← state_dict ts !! i;
               d ← done_dict ts !! i;
               Some (select_action (choices i) d)) n;
  '(e', res) ← step (env ts) actions;
  next_state_dict ← obs_to_state (observations res) (grid_size e');
  '(buffers, dd) ← Py.for_ (Py.range 0 n)
                     (store_transition (state_dict ts) next_state_dict
                                       actions (rewards res))
                     (replay_buffers ts, done_dict ts);
  Some ({| env := e'; state_dict := next_state_dict; done_dict := dd;
           replay_buffers := buffers |}, done res).

(** ** Specification vocabulary *)

Definition in_grid (grid : Z * Z) (p : Cell) : Prop :=
  0 <= fst p < fst grid ∧ 0 <= snd p < snd grid.

(** A cell an agent may occupy: inside the grid and not an obstacle. *)
Definition free_cell (e : TrafficRoutingEnv) (p : Cell) : Prop :=
  in_grid (grid_size e) p ∧ p ∉ obstacles e.

(** The representation invariant of a [TrafficRoutingEnv] object. *)
Record env_ok (e : TrafficRoutingEnv) : Prop := {
  ok_init_dom : ∀ i, is_Some (_initial_positions e !! i) ↔ (i < num_agents e)%nat;
  ok_dest_dom : ∀ i, is_Some (destinations e !! i) ↔ (i < num_agents e)%nat;
  ok_pos_dom : ∀ i, is_Some (agent_positions e !! i) ↔ (i < num_agents e)%nat;
  ok_arrived_dom : ∀ i, is_Some (_arrived e !! i) ↔ (i < num_agents e)%nat;
  ok_init_free : ∀ i p, _initial_positions e !! i = Some p → free_cell e p;
  ok_pos_free : ∀ i p, agent_positions e !! i = Some p → free_cell e p;
  ok_latched : ∀ i, _arrived e !! i = Some true →
                    agent_positions e !! i = destinations e !! i
}.

(** A call of one of the two public methods. *)
Inductive Call :=
  | Reset
  | Step (actions : gmap nat Z).

Definition call (e : TrafficRoutingEnv) (c : Call) : option TrafficRoutingEnv :=
  match c with
  | Reset => fst <$> reset e
  | Step actions => fst <$> step e actions
  end.

(** A sequence of method calls on one object. *)
Definition run (e : TrafficRoutingEnv) (cs : list Call) : option TrafficRoutingEnv :=
  Py.for_ cs (λ c e, call e c) e.

Definition well_formed_call (n : nat) (c : Call) : Prop :=
  match c with
  | Reset => True
  | Step actions => well_formed_actions n actions
  end.

(** The objects a program can hold: constructed, then reset and stepped. *)
Inductive reachable : TrafficRoutingEnv → Prop :=
  | reach_init grid n obs rng e :
      TrafficRoutingEnv_init grid n obs rng = Some e → reachable e
  | reach_reset e e' o :
      reachable e → reset e = Some (e', o) → reachable e'
  | reach_step e actions e' r :
      reachable e → step e actions = Some (e', r) → reachable e'.

(** The raw-reward maps of the successive steps of an episode: the steps
    taken from [e] with the given action maps, without a reset in between. *)
Fixpoint episode_raw (e : TrafficRoutingEnv) (acts : list (gmap nat Z))
    : list (gmap nat Z) :=
  match acts with
  | [] => []
  | a :: acts' =>
      match step_locals e a with
      | Some l => raw_rewards l :: episode_raw (env_after e l) acts'
      | None => []
      end
  end.

(** How many steps of an episode paid agent [i] the arrival bonus. *)
Definition bonus_count (i : nat) (raws : list (gmap nat Z)) : nat :=
  length (filter (λ raw, raw !! i = Some 10) raws).

(** No two agents share a cell. *)
Definition pairwise_distinct (n : nat) (pos : gmap nat Cell) : Prop :=
  ∀ i j, (i < n)%nat → (j < n)%nat → i ≠ j → pos !! i ≠ pos !! j.

(** The result of the scoring loop for one agent, read off the code: raw
    reward, per-agent done and latch. *)
Definition score_of (at_dest latched : bool) : Z * bool * bool :=
  if at_dest then (if latched then 0 else 10, true, true)
  else (-1, false, latched).

(** ** Concrete scenarios *)

(** A generator whose successive draws are the given cells. *)
Definition cells_rng (cells : list Cell) (k : nat) : Z * Z := nth k cells (0, 0).

(** The action map [{0: a0, 1: a1, ...}]. *)
Definition actions_of (l : list Z) : gmap nat Z := map_seq 0 l.

(** Three agents in row 0 of an 8x8 grid without obstacles, at columns 0, 1
    and 3, with destinations in row 7. *)
Definition row_rng : nat → Z * Z :=
  cells_rng [(0, 0); (0, 1); (0, 3); (7, 7); (7, 6); (7, 5)].

Definition row_env : option TrafficRoutingEnv :=
  TrafficRoutingEnv_init (8, 8) 3 None row_rng.

(** Agents 0 and 1 move right, agent 2 moves left. *)
Definition row_actions : gmap nat Z := actions_of [3; 3; 2].

(** The configuration of the script's main block: an 8x8 grid, four agents
    and the eight fixed obstacles; the agents start in the corners. *)
Definition fixed_obstacles : list Cell :=
  [(1, 1); (3, 0); (2, 2); (2, 3); (2, 4); (3, 2); (5, 5); (6, 2)].

Definition main_rng : nat → Z * Z :=
  cells_rng [(0, 0); (7, 7); (0, 7); (7, 0); (0, 1); (0, 3); (5, 0); (1, 6)].

Definition main_env : option TrafficRoutingEnv :=
  TrafficRoutingEnv_init (8, 8) 4 (Some fixed_obstacles) main_rng.

(** Two agents on an 8x8 grid with one obstacle: agent 0 starts one cell
    left of its destination, agent 1 is far from its own. *)
Definition arrival_rng : nat → Z * Z :=
  cells_rng [(0, 0); (5, 5); (0, 1); (7, 7)].

Definition arrival_env : option TrafficRoutingEnv :=
  TrafficRoutingEnv_init (8, 8) 2 (Some [(1, 1)]) arrival_rng.

(** Two agents side by side in row 0, and one agent left of an obstacle. *)
Definition swap_env : option TrafficRoutingEnv :=
  TrafficRoutingEnv_init (8, 8) 2 None
    (cells_rng [(0, 0); (0, 1); (7, 7); (7, 6)]).

Definition obstacle_env : option TrafficRoutingEnv :=
  TrafficRoutingEnv_init (8, 8) 1 (Some [(1, 1)])
    (cells_rng [(1, 0); (7, 7)]).

(** One agent at [(0, 0)] with destination [(2, 3)]: Manhattan distance 5. *)
Definition shaping_rng : nat → Z * Z := cells_rng [(0, 0); (2, 3)].

Definition shaping_env : option TrafficRoutingEnv :=
  TrafficRoutingEnv_init (8, 8) 1 None shaping_rng.

(** A transition that only carries the action [k]. *)
Definition sample_transition (k : Z) : Transition :=
  {| t_state := []; t_action := k; t_reward := Float32.zero;
     t_next_state := []; t_done := false |}.

(** The replay buffers [MADQNTrainer.__init__] creates for [n] agents. *)
Definition fresh_buffers (n : nat) (capacity : Z) : option (gmap nat ReplayBuffer) :=
  Py.dict_range (λ _, ReplayBuffer_init capacity) n.

(** The start of the first training episode in the arrival scenario. *)
Definition arrival_start : option TrainState :=
  e ← arrival_env;
  buffers ← fresh_buffers 2 5000;
  episode_start 2 e buffers.

(** The actions the learners pick for agents that are not done. *)
Definition choices_of (l : list Z) (i : nat) : Z := nth i l 4.

(** ** Floats of the unit interval *)

(** The value described by the truncated mantissa [m], the exponent [e] and
    the location [l] of the discarded part is at most one. *)
Definition at_most_one (m e : Z) (l : location) : Prop :=
  0 <= m ∧ e <= 0 ∧ (m < 2 ^ (- e) ∨ (m = 2 ^ (- e) ∧ l = loc_Exact)).

(** A float that is a zero or a finite number of [(0, 1]], with sign [s]. *)
Definition unit_float (s : bool) (x : spec_float) : Prop :=
  match x with
  | S754_zero s' => s' = s
  | S754_finite s' m e => s' = s ∧ e <= 0 ∧ Zpos m <= 2 ^ (- e)
  | _ => False
  end.

(** A finite float whose value lies in the closed interval [[0, 1]]. *)
Definition in_unit_interval (x : spec_float) : Prop :=
  is_finite x = true ∧ (0 <= SF2Q x <= 1)%Q.

(** An observation whose position, destination and obstacle cells lie
    within the grid. *)
Definition observation_in_grid (grid : Z * Z) (o : Observation) : Prop :=
  in_grid grid (position o) ∧ in_grid grid (destination o) ∧
  Forall (in_grid grid) (default [] (obs_obstacles o)).

(** The invariant of the occupancy array: it has the shape of the grid and
    every assigned entry is [1.0]. *)
Definition occupancy_ok (grid : Z * Z) (occ : Array2) : Prop :=
  shape occ = grid ∧ ∀ c v, entries occ !! c = Some v → v = Float32.one.

(** The observation map of the arrival scenario after [reset]. *)
Definition arrival_obs : list (nat * Observation) :=
  [(0%nat, {| position := (0, 0); destination := (0, 1);
              obs_obstacles := Some [(1, 1)] |});
   (1%nat, {| position := (5, 5); destination := (7, 7);
              obs_obstacles := Some [(1, 1)] |})].

(** Agents [i] and [j] want to trade places: each one's desired cell is the
    other's current cell. *)
Definition swaps (old new : gmap nat Cell) (i j : nat) : Prop :=
  ∃ p q, new !! i = Some p ∧ old !! j = Some p ∧
         new !! j = Some q ∧ old !! i = Some q.

(** The agents below [k] that are not swap-blocked and desire cell [c], in
    increasing order. *)
Definition claimants (k : nat) (new : gmap nat Cell) (sb : gset nat) (c : Cell)
    : list nat :=
  filter (λ i, (i ∉ sb) ∧ new !! i = Some c) (seq 0 k).

(** ** Episodes *)

(** The steps of one episode: the environments are threaded through and the
    results of the steps are collected; an exception aborts the episode. *)
Fixpoint episode (e : TrafficRoutingEnv) (acts : list (gmap nat Z))
    : option (TrafficRoutingEnv * list StepResult) :=
  match acts with
  | [] => Some (e, [])
  | a :: acts' =>
      '(e1, r) ← step e a;
      '(e2, rs) ← episode e1 acts';
      Some (e2, r :: rs)
  end.


(** ** Encoding the observations of an environment *)

(** What [obs_to_state] needs from the environment: a grid of at least two
    rows and two columns, at least one agent, and obstacles inside the grid. *)
Definition encodable (e : TrafficRoutingEnv) : Prop :=
  2 <= fst (grid_size e) ∧ 2 <= snd (grid_size e) ∧ (0 < num_agents e)%nat ∧
  Forall (in_grid (grid_size e)) (obstacles e).



(** ** The training loop *)






(** ** [render]: the colour grid *)







(** ** The step loop of [animate] *)

(** The variables of [animate] up to the end of its [while] loop. *)
Record AnimState := {
  an_env : TrafficRoutingEnv;
  an_state_dict : gmap nat (list spec_float);
  an_done_dict : gmap nat bool;
  an_trajectories : gmap nat (list Cell);
  an_all_steps : list (gmap nat Cell);
  an_step : Z;
  an_done : bool
}.

(** [agent_trajectories[i].append(env.agent_positions[i])] *)
Definition record_position (e : TrafficRoutingEnv) (i : nat)
    (traj : gmap nat (list Cell)) : option (gmap nat (list Cell)) :=
  t ← traj !! i;
  p ← agent_positions e !! i;
  Some (<[i := t ++ [p]]> traj).

(** [animate] before its loop: the dictionaries, the reset, the encoding
    and the first point of every trajectory. *)
Definition animate_start (e : TrafficRoutingEnv) : option AnimState :=
  traj ← Py.dict_range (λ _, Some []) (num_agents e);
  dd ← Py.dict_range (λ _, Some false) (num_agents e);
  '(e', obs) ← reset e;
  sd ← obs_to_state obs (grid_size e');
  traj ← Py.for_ (Py.range 0 (num_agents e')) (record_position e') traj;
  Some {| an_env := e'; an_state_dict := sd; an_done_dict := dd;
          an_trajectories := traj; an_all_steps := []; an_step := 0;
          an_done := false |}.

(** Body of the loop over the agents inside the [while] loop; the position
    test is only evaluated when the reward test fails. *)
Definition animate_record (e' : TrafficRoutingEnv) (rewards : gmap nat spec_float)
    (i : nat) (s : gmap nat bool * gmap nat (list Cell))
    : option (gmap nat bool * gmap nat (list Cell)) :=
  let '(dd, traj) := s in
  r ← rewards !! i;
  flag ← (if Float32.eq_int r 10 then Some true
          else p ← agent_positions e' !! i;
               d ← destinations e' !! i;
               Some (bool_decide (p = d)));
  traj' ← record_position e' i traj;
  Some (if flag : bool then <[i := true]> dd else dd, traj').

(** One iteration of the [while] loop; [choices] are the greedy actions of
    the policy networks. *)
Definition animate_step (choices : nat → Z) (s : AnimState) : option AnimState :=
  actions ← Py.dict_range (λ i,
               st ← an_state_dict s !! i;
               d ← an_done_dict s !! i;
               Some (select_action (choices i) d)) (num_agents (an_env s));
  '(e', res) ← step (an_env s) actions;
  next_state_dict ← obs_to_state (observations res) (grid_size e');
  '(dd, traj) ← Py.for_ (Py.range 0 (num_agents e'))
                   (animate_record e' (rewards res))
                   (an_done_dict s, an_trajectories s);
  snapshot ← Py.dict_range (λ i, agent_positions e' !! i) (num_agents e');
  Some {| an_env := e'; an_state_dict := next_state_dict; an_done_dict := dd;
          an_trajectories := traj;
          an_all_steps := an_all_steps s ++ [snapshot];
          an_step := an_step s + 1; an_done := done res |}.

(** [while not done and step < 50]: the loop body runs at most [fuel]
    times; [choices k] are the actions picked in iteration [k]. *)
Fixpoint animate_loop (fuel : nat) (choices : nat → nat → Z) (s : AnimState)
    : option AnimState :=
  match fuel with
  | O => Some s
  | S fuel' =>
      if negb (an_done s) && (an_step s <? 50) then
        s' ← animate_step (choices (Z.to_nat (an_step s))) s;
        animate_loop fuel' choices s'
      else Some s
  end.

(** [animate] up to the end of its loop; 50 iterations exhaust the loop
    condition. *)
Definition animate (choices : nat → nat → Z) (e : TrafficRoutingEnv)
    : option AnimState :=
  s ← animate_start e;
  animate_loop 50 choices s.

(** What the loop of [animate] maintains, [e0] being the environment it was
    called with. *)
Record anim_inv (e0 : TrafficRoutingEnv) (s : AnimState) : Prop := {
  ai_reachable : reachable (an_env s);
  ai_encodable : encodable (an_env s);
  ai_grid : fst (grid_size (an_env s)) + snd (grid_size (an_env s)) <= 1002;
  ai_agents : num_agents (an_env s) = num_agents e0;
  ai_dest : destinations (an_env s) = destinations e0;
  ai_states : ∀ i, is_Some (an_state_dict s !! i) ↔ (i < num_agents e0)%nat;
  ai_dones : ∀ i, is_Some (an_done_dict s !! i) ↔ (i < num_agents e0)%nat;
  ai_steps : steps (an_env s) = an_step s;
  ai_range : 0 <= an_step s <= 50;
  ai_done : 50 <= an_step s → an_done s = true;
  ai_all_steps : Z.of_nat (length (an_all_steps s)) = an_step s;
  ai_flagged : ∀ i, an_done_dict s !! i = Some true ↔
                    _arrived (an_env s) !! i = Some true;
  ai_latched : 1 <= an_step s → ∀ i, (i < num_agents e0)%nat →
                 (_arrived (an_env s) !! i = Some true ↔
                  agent_positions (an_env s) !! i = destinations e0 !! i);
  ai_traj : ∀ i, (i < num_agents e0)%nat →
              ∃ t, an_trajectories s !! i = Some t ∧
                   Z.of_nat (length t) = an_step s + 1 ∧
                   head t = _initial_positions e0 !! i ∧
                   last t = agent_positions (an_env s) !! i ∧
                   ∀ k p q, t !! k = Some p → t !! S k = Some q →
                            manhattan q p <= 1
}.

(** [x > 0] for a float. *)
Definition is_positive (x : spec_float) : bool :=
  match x with
  | S754_finite false _ _ | S754_infinity false => true
  | _ => false
  end.

(** * Proofs *)

(** ** Loops and comprehensions *)

Section PyLemmas.
Context {A St : Type}.

Lemma range_S (n : nat) : Py.range 0 (S n) = Py.range 0 n ++ [n].
Proof. unfold Py.range. rewrite !Nat.sub_0_r. apply seq_S. Qed.

Lemma elem_of_range (a b i : nat) : i ∈ Py.range a b ↔ (a ≤ i < b)%nat.
Proof. unfold Py.range. rewrite elem_of_seq. lia. Qed.

Lemma for_app (l1 l2 : list A) (body : A → St → option St) (s : St) :
  Py.for_ (l1 ++ l2) body s = Py.for_ l1 body s ≫= Py.for_ l2 body.
Proof.
  revert s. induction l1 as [|x l1 IH]; intros s; simpl; [done|].
  destruct (body x s) as [s'|]; simpl; [apply IH|done].
Qed.

(** Loop invariant rule: [P] holds of the elements consumed so far. *)
Lemma for_invariant (P : list A → St → Prop) (l : list A)
    (body : A → St → option St) (s0 s : St) :
  P [] s0 →
  (∀ done x s s', x ∈ l → P done s → body x s = Some s' → P (done ++ [x]) s') →
  Py.for_ l body s0 = Some s → P l s.
Proof.
  intros H0 Hstep. 
  assert (∀ l2 l1 s1, l = l1 ++ l2 → P l1 s1 → Py.for_ l2 body s1 = Some s → P l s) as Hgen.
  { induction l2 as [|x l2 IH]; intros l1 s1 Hl HP Hrun; simpl in Hrun.
    - simplify_eq. by rewrite app_nil_r.
    - destruct (body x s1) as [s'|] eqn:Hb; simpl in Hrun; [|done].
      apply (IH (l1 ++ [x]) s'); [by rewrite <-app_assoc|  |done].
      apply (Hstep l1 x s1); [|done..]. subst l. set_solver. }
  intros Hrun. by apply (Hgen l [] s0).
Qed.

(** A loop whose body never raises terminates normally. *)
Lemma for_total (P : St → Prop) (l : list A) (body : A → St → option St) (s0 : St) :
  P s0 →
  (∀ x s, x ∈ l → P s → ∃ s', body x s = Some s' ∧ P s') →
  ∃ s, Py.for_ l body s0 = Some s ∧ P s.
Proof.
  revert s0. induction l as [|x l IH]; intros s0 H0 Hbody; simpl; [eauto|].
  destruct (Hbody x s0) as (s' & -> & Hs'); [set_solver|done|]. simpl.
  apply IH; [done|]. intros y s Hy. apply Hbody. set_solver.
Qed.
End PyLemmas.

Lemma dict_range_lookup {A} (f : nat → option A) (n : nat) (m : gmap nat A) :
  Py.dict_range f n = Some m →
  ∀ i, m !! i = if decide (i < n)%nat then f i else None.
Proof.
  revert m. induction n as [|n IH]; intros m Hm i; simpl in Hm.
  - simplify_eq. rewrite lookup_empty. by case_decide; [lia|].
  - destruct (Py.dict_range f n) as [m'|] eqn:Hm'; simpl in Hm; [|done].
    destruct (f n) as [v|] eqn:Hv; simpl in Hm; [|done]. simplify_eq.
    rewrite lookup_insert. specialize (IH m' eq_refl i).
    repeat case_decide; subst; try lia; try done.
Qed.

Lemma dict_range_defined {A} (f : nat → option A) (n : nat) (m : gmap nat A) :
  Py.dict_range f n = Some m → ∀ i, (i < n)%nat → is_Some (f i).
Proof.
  revert m. induction n as [|n IH]; intros m Hm i Hi; [lia|]. simpl in Hm.
  destruct (Py.dict_range f n) as [m'|] eqn:Hm'; simpl in Hm; [|done].
  destruct (f n) as [v|] eqn:Hv; simpl in Hm; [|done].
  destruct (decide (i = n)) as [->|]; [by rewrite Hv|].
  apply (IH m'); [done|lia].
Qed.

Lemma dict_range_total {A} (f : nat → option A) (n : nat) :
  (∀ i, (i < n)%nat → is_Some (f i)) → is_Some (Py.dict_range f n).
Proof.
  induction n as [|n IH]; intros Hf; simpl; [done|].
  destruct IH as [m ->]; [intros; apply Hf; lia|]. simpl.
  destruct (Hf n) as [v ->]; [lia|]. done.
Qed.

Lemma dict_range_dom {A} (f : nat → option A) (n : nat) (m : gmap nat A) :
  Py.dict_range f n = Some m → ∀ i, is_Some (m !! i) ↔ (i < n)%nat.
Proof.
  intros Hm i. rewrite (dict_range_lookup _ _ _ Hm).
  case_decide; split; intros H'; try done; try lia.
  by eapply dict_range_defined.
Qed.

Section RangeLoops.
Context {St : Type}.

(** Invariant rule for [for k in range(a, b)]: the invariant is indexed by
    the next value of the loop variable. *)
Lemma for_range_invariant (P : nat → St → Prop) (a b : nat)
    (body : nat → St → option St) (s0 s : St) :
  P a s0 →
  (∀ k s s', (a ≤ k < b)%nat → P k s → body k s = Some s' → P (S k) s') →
  Py.for_ (Py.range a b) body s0 = Some s → P (Nat.max a b) s.
Proof.
  unfold Py.range. remember (b - a)%nat as d eqn:Hd.
  revert a s0 Hd. induction d as [|d IH]; intros a s0 Hd H0 Hstep Hrun; simpl in Hrun.
  - simplify_eq. by replace (Nat.max a b) with a by lia.
  - destruct (body a s0) as [s1|] eqn:Hb; simpl in Hrun; [|done].
    replace (Nat.max a b) with (Nat.max (S a) b) by lia.
    apply (IH (S a) s1); [lia| |intros; eapply Hstep; [lia|done..]|done].
    apply (Hstep a s0); [lia|done..].
Qed.

Lemma for_range_total (P : nat → St → Prop) (a b : nat)
    (body : nat → St → option St) (s0 : St) :
  P a s0 →
  (∀ k s, (a ≤ k < b)%nat → P k s → ∃ s', body k s = Some s' ∧ P (S k) s') →
  ∃ s, Py.for_ (Py.range a b) body s0 = Some s ∧ P (Nat.max a b) s.
Proof.
  unfold Py.range. remember (b - a)%nat as d eqn:Hd.
  revert a s0 Hd. induction d as [|d IH]; intros a s0 Hd H0 Hstep; simpl.
  - exists s0. split; [done|]. by replace (Nat.max a b) with a by lia.
  - destruct (Hstep a s0) as (s1 & -> & H1); [lia|done|]. simpl.
    replace (Nat.max a b) with (Nat.max (S a) b) by lia.
    apply IH; [lia|done|]. intros; apply Hstep; [lia|done].
Qed.

Lemma for_upto_invariant (P : nat → St → Prop) (n : nat)
    (body : nat → St → option St) (s0 s : St) :
  P 0%nat s0 →
  (∀ k s s', (k < n)%nat → P k s → body k s = Some s' → P (S k) s') →
  Py.for_ (Py.range 0 n) body s0 = Some s → P n s.
Proof.
  intros H0 Hstep Hrun.
  apply (for_range_invariant P 0 n body s0 s) in Hrun; [done|done|].
  intros k t t' Hk. apply Hstep. lia.
Qed.

Lemma for_upto_total (P : nat → St → Prop) (n : nat)
    (body : nat → St → option St) (s0 : St) :
  P 0%nat s0 →
  (∀ k s, (k < n)%nat → P k s → ∃ s', body k s = Some s' ∧ P (S k) s') →
  ∃ s, Py.for_ (Py.range 0 n) body s0 = Some s ∧ P n s.
Proof.
  intros H0 Hstep.
  destruct (for_range_total P 0 n body s0) as (s & Hs & HP); [done| |by eauto].
  intros k t Hk. apply Hstep. lia.
Qed.
End RangeLoops.

(** ** The phases of [step] *)

Section StepPhases.
Variable e : TrafficRoutingEnv.
Variable old : gmap nat Cell.

Lemma compute_new_positions_lookup (actions : gmap nat Z) (new : gmap nat Cell) :
  compute_new_positions e old actions = Some new →
  ∀ i, new !! i = actions !! i ≫= desired_cell e old i.
Proof.
  unfold compute_new_positions. revert new.
  apply (map_fold_weak_ind (λ r m, ∀ new, r = Some new →
           ∀ i, new !! i = m !! i ≫= desired_cell e old i)).
  - intros new [= <-] i. by rewrite !lookup_empty.
  - intros i a m r Hi IH new Hnew j.
    destruct r as [new0|]; simpl in Hnew; [|done].
    destruct (desired_cell e old i a) as [c|] eqn:Hc; simpl in Hnew; [|done].
    simplify_eq. rewrite !lookup_insert.
    case_decide; subst; simpl; [done|]. by apply IH.
Qed.

Lemma compute_new_positions_total (actions : gmap nat Z) :
  (∀ i a, actions !! i = Some a → is_Some (desired_cell e old i a)) →
  is_Some (compute_new_positions e old actions).
Proof.
  unfold compute_new_positions.
  apply (map_fold_weak_ind (λ r m,
           (∀ i a, m !! i = Some a → is_Some (desired_cell e old i a)) →
           is_Some r)).
  - done.
  - intros i a m r Hi IH Hall.
    destruct IH as [new ->].
    { intros j b Hj. apply Hall. rewrite lookup_insert_ne; [done|]. congruence. }
    simpl. destruct (Hall i a) as [c ->]; [by rewrite lookup_insert_eq|]. done.
Qed.

Lemma compute_new_positions_defined (actions : gmap nat Z) (new : gmap nat Cell) :
  compute_new_positions e old actions = Some new →
  ∀ i a, actions !! i = Some a → is_Some (desired_cell e old i a).
Proof.
  unfold compute_new_positions. revert new.
  apply (map_fold_weak_ind (λ r m, ∀ new, r = Some new →
           ∀ i a, m !! i = Some a → is_Some (desired_cell e old i a))).
  - intros new _ i a. by rewrite lookup_empty.
  - intros i a m r Hi IH new Hnew j b.
    destruct r as [new0|]; simpl in Hnew; [|done].
    destruct (desired_cell e old i a) as [c|] eqn:Hc; simpl in Hnew; [|done].
    rewrite lookup_insert. case_decide; subst.
    + intros [= <-]. by rewrite Hc.
    + by apply (IH new0).
Qed.
End StepPhases.

Lemma swap_pair_subset (old new : gmap nat Cell) (i j : nat) (sb sb' : gset nat) :
  swap_pair old new i j sb = Some sb' →
  sb ⊆ sb' ∧ ∀ k, k ∈ sb' → k ∈ sb ∨ k = i ∨ k = j.
Proof.
  unfold swap_pair. intros Hp.
  destruct (new !! i) as [ni|]; simpl in Hp; [|done].
  destruct (old !! j) as [oj|]; simpl in Hp; [|done].
  case_bool_decide; [|injection Hp as <-; set_solver].
  destruct (new !! j) as [nj|]; simpl in Hp; [|done].
  destruct (old !! i) as [oi|]; simpl in Hp; [|done].
  case_bool_decide; injection Hp as <-; set_solver.
Qed.

Lemma compute_swap_blocked_bound (n : nat) (old new : gmap nat Cell) (sb : gset nat) :
  compute_swap_blocked n old new = Some sb → ∀ k, k ∈ sb → (k < n)%nat.
Proof.
  unfold compute_swap_blocked.
  apply (for_upto_invariant (λ _ sb, ∀ k, k ∈ sb → (k < n)%nat)); [set_solver|].
  intros i s s' Hi Hs.
  apply (for_range_invariant (λ _ sb, ∀ k, k ∈ sb → (k < n)%nat)); [done|].
  intros j t t' Hj Ht Hpair k Hk.
  destruct (swap_pair_subset _ _ _ _ _ _ Hpair) as [_ Hsub].
  destruct (Hsub k Hk) as [?|[->| ->]]; [by apply Ht|lia..].
Qed.

Lemma compute_swap_blocked_total (n : nat) (old new : gmap nat Cell) :
  (∀ i, (i < n)%nat → is_Some (old !! i)) →
  (∀ i, (i < n)%nat → is_Some (new !! i)) →
  is_Some (compute_swap_blocked n old new).
Proof.
  intros Hold Hnew. unfold compute_swap_blocked.
  destruct (for_upto_total (λ _ _, True) n
              (λ i sb, Py.for_ (Py.range (i + 1) n)
                         (λ j sb, swap_pair old new i j sb) sb) ∅) as (sb & -> & _);
    [done| |done].
  intros i s Hi _.
  destruct (for_range_total (λ _ _, True) (i + 1) n
              (λ j sb, swap_pair old new i j sb) s) as (sb' & -> & _); [done| |by eauto].
  intros j t Hj _. unfold swap_pair.
  destruct (Hnew i) as [ni ->]; [lia|]. destruct (Hold j) as [oj ->]; [lia|].
  destruct (Hnew j) as [nj ->]; [lia|]. destruct (Hold i) as [oi ->]; [lia|].
  simpl. case_bool_decide; eauto.
Qed.

Lemma compute_desired_cells_spec (n : nat) (new : gmap nat Cell) (sb : gset nat)
    (dc : gmap Cell (list nat)) :
  compute_desired_cells n new sb = Some dc →
  ∀ c l a, dc !! c = Some l → a ∈ l →
           (a < n)%nat ∧ (a ∉ sb) ∧ new !! a = Some c.
Proof.
  unfold compute_desired_cells.
  apply (for_upto_invariant (λ k dc, ∀ c l a, dc !! c = Some l → a ∈ l →
           (a < k)%nat ∧ (a ∉ sb) ∧ new !! a = Some c)).
  { intros c l a. by rewrite lookup_empty. }
  intros k s s' Hk IH Hbody c l a Hl Ha.
  case_bool_decide as Hsb.
  { injection Hbody as <-. destruct (IH c l a Hl Ha). split; [lia|done]. }
  destruct (new !! k) as [ck|] eqn:Hck; simpl in Hbody; [|done].
  injection Hbody as <-. rewrite lookup_insert in Hl. case_decide as Hc.
  - subst ck. injection Hl as <-. apply elem_of_app in Ha as [Ha|Ha].
    + destruct (s !! c) as [l0|] eqn:Hl0; simpl in Ha; [|by apply elem_of_nil in Ha].
      destruct (IH c l0 a Hl0 Ha). split; [lia|done].
    + apply list_elem_of_singleton in Ha as ->. split; [lia|done].
  - destruct (IH c l a Hl Ha). split; [lia|done].
Qed.

Lemma compute_desired_cells_total (n : nat) (new : gmap nat Cell) (sb : gset nat) :
  (∀ i, (i < n)%nat → is_Some (new !! i)) →
  is_Some (compute_desired_cells n new sb).
Proof.
  intros Hnew. unfold compute_desired_cells.
  edestruct (for_upto_total (St := gmap Cell (list nat)) (λ _ _, True) n)
    as (dc & -> & _); [done| |done].
  intros k s Hk _. simpl. case_bool_decide; [by eauto|].
  destruct (Hnew k) as [c ->]; [lia|]. simpl. eauto.
Qed.

Lemma elem_of_foldl_add (l : list nat) (cb : gset nat) (a : nat) :
  a ∈ foldl (λ cb a, {[a]} ∪ cb) cb l ↔ a ∈ l ∨ a ∈ cb.
Proof.
  revert cb. induction l as [|x l IH]; intros cb; simpl.
  - set_solver.
  - rewrite IH. set_solver.
Qed.

Lemma elem_of_collision_blocked (dc : gmap Cell (list nat)) (a : nat) :
  a ∈ compute_collision_blocked dc ↔
  ∃ c l, dc !! c = Some l ∧ (1 < length l)%nat ∧ a ∈ l.
Proof.
  unfold compute_collision_blocked.
  apply (map_fold_weak_ind (λ (r : gset nat) (m : gmap Cell (list nat)),
           a ∈ r ↔ ∃ c l, m !! c = Some l ∧ (1 < length l)%nat ∧ a ∈ l)).
  - split; [set_solver|]. intros (c & l & Hl & _). by rewrite lookup_empty in Hl.
  - intros c l m r Hc IH. destruct (1 <? length l)%nat eqn:Hlen.
    + apply Nat.ltb_lt in Hlen. rewrite elem_of_foldl_add, IH. split.
      * intros [Ha|(c' & l' & Hl' & ? & ?)].
        -- exists c, l. by rewrite lookup_insert_eq.
        -- exists c', l'. rewrite lookup_insert_ne; [done|congruence].
      * intros (c' & l' & Hl' & ? & ?). rewrite lookup_insert in Hl'.
        case_decide; simplify_eq; [by left|right; eauto].
    + apply Nat.ltb_ge in Hlen. rewrite IH. split.
      * intros (c' & l' & Hl' & ? & ?).
        exists c', l'. rewrite lookup_insert_ne; [done|congruence].
      * intros (c' & l' & Hl' & ? & ?). rewrite lookup_insert in Hl'.
        case_decide; simplify_eq; [lia|eauto].
Qed.

Lemma score_agent_cases (pos dest : gmap nat Cell) (k : nat) (s s' : Scores) :
  score_agent pos dest k s = Some s' →
  ∃ p d, pos !! k = Some p ∧ dest !! k = Some d ∧
    ((p = d ∧ sc_arrived s !! k = Some false ∧
      s' = {| sc_raw := <[k:=10]> (sc_raw s); sc_dones := <[k:=true]> (sc_dones s);
              sc_arrived := <[k:=true]> (sc_arrived s) |}) ∨
     (p = d ∧ sc_arrived s !! k = Some true ∧
      s' = {| sc_raw := <[k:=0]> (sc_raw s); sc_dones := <[k:=true]> (sc_dones s);
              sc_arrived := sc_arrived s |}) ∨
     (p ≠ d ∧
      s' = {| sc_raw := <[k:=-1]> (sc_raw s); sc_dones := <[k:=false]> (sc_dones s);
              sc_arrived := sc_arrived s |})).
Proof.
  unfold score_agent. intros Hbody.
  destruct (pos !! k) as [p|]; simpl in Hbody; [|done].
  destruct (dest !! k) as [d|]; simpl in Hbody; [|done].
  exists p, d. do 2 (split; [done|]).
  destruct (decide (p = d)) as [Hpd|Hpd].
  - rewrite bool_decide_eq_true_2 in Hbody by done.
    destruct (sc_arrived s !! k) as [[]|]; simpl in Hbody; [| |done];
      injection Hbody as <-; eauto.
  - rewrite bool_decide_eq_false_2 in Hbody by done.
    injection Hbody as <-; eauto.
Qed.

Lemma compute_scores_spec (n : nat) (pos dest : gmap nat Cell)
    (arrived : gmap nat bool) (sc : Scores) :
  compute_scores n pos dest arrived = Some sc →
  (∀ i, (i < n)%nat → ∃ p d,
      pos !! i = Some p ∧ dest !! i = Some d ∧
      (p = d → is_Some (arrived !! i)) ∧
      let '(r, dn, la) := score_of (bool_decide (p = d))
                                   (default false (arrived !! i)) in
      sc_raw sc !! i = Some r ∧ sc_dones sc !! i = Some dn ∧
      sc_arrived sc !! i = (if bool_decide (p = d) then Some la else arrived !! i)) ∧
  (∀ i, (n ≤ i)%nat →
      sc_raw sc !! i = None ∧ sc_dones sc !! i = None ∧
      sc_arrived sc !! i = arrived !! i).
Proof.
  unfold compute_scores.
  apply (for_upto_invariant (λ k sc,
    (∀ i, (i < k)%nat → ∃ p d,
      pos !! i = Some p ∧ dest !! i = Some d ∧
      (p = d → is_Some (arrived !! i)) ∧
      let '(r, dn, la) := score_of (bool_decide (p = d))
                                   (default false (arrived !! i)) in
      sc_raw sc !! i = Some r ∧ sc_dones sc !! i = Some dn ∧
      sc_arrived sc !! i = (if bool_decide (p = d) then Some la else arrived !! i)) ∧
    (∀ i, (k ≤ i)%nat →
      sc_raw sc !! i = None ∧ sc_dones sc !! i = None ∧
      sc_arrived sc !! i = arrived !! i))).
  { split; [lia|]. intros i _. simpl. by rewrite !lookup_empty. }
  intros k s s' Hk [IHlt IHge] Hbody.
  apply score_agent_cases in Hbody as (p & d & Hp & Hd & Hcases).
  destruct (IHge k) as (Hr0 & Hd0 & Ha0); [lia|]. rewrite Ha0 in Hcases.
  split.
  - intros i Hi. destruct (decide (i = k)) as [->|Hik].
    + exists p, d. do 2 (split; [done|]).
      destruct Hcases as [(Hpd & Ha & ->)|[(Hpd & Ha & ->)|(Hpd & ->)]]; simpl.
      * rewrite Ha, bool_decide_eq_true_2 by done. simpl.
        rewrite !lookup_insert_eq. eauto.
      * rewrite Ha, bool_decide_eq_true_2 by done. simpl.
        rewrite !lookup_insert_eq, Ha0. eauto.
      * rewrite bool_decide_eq_false_2 by done. simpl.
        rewrite !lookup_insert_eq. split; [done|]. eauto.
    + destruct (IHlt i) as (p' & d' & Hp' & Hd' & Ha' & Hsc); [lia|].
      exists p', d'. do 3 (split; [done|]).
      destruct (score_of _ _) as [[r dn] la].
      destruct Hcases as [(Hpd & Ha & ->)|[(Hpd & Ha & ->)|(Hpd & ->)]]; simpl;
        rewrite ?lookup_insert_ne by done; done.
  - intros i Hi. destruct (IHge i) as (? & ? & ?); [lia|].
    destruct Hcases as [(Hpd & Ha & ->)|[(Hpd & Ha & ->)|(Hpd & ->)]]; simpl;
      rewrite ?lookup_insert_ne by lia; done.
Qed.

Lemma compute_scores_total (n : nat) (pos dest : gmap nat Cell)
    (arrived : gmap nat bool) :
  (∀ i, (i < n)%nat → is_Some (pos !! i)) →
  (∀ i, (i < n)%nat → is_Some (dest !! i)) →
  (∀ i, (i < n)%nat → is_Some (arrived !! i)) →
  is_Some (compute_scores n pos dest arrived).
Proof.
  intros Hpos Hdest Harr. unfold compute_scores.
  edestruct (for_upto_total (λ k sc, ∀ i, (k ≤ i)%nat →
               sc_arrived sc !! i = arrived !! i) n (score_agent pos dest))
    as (sc & -> & _); [done| |done].
  intros k s Hk IH. unfold score_agent.
  destruct (Hpos k) as [p ->]; [lia|]. destruct (Hdest k) as [d ->]; [lia|].
  simpl. case_bool_decide.
  - rewrite IH by lia. destruct (Harr k) as [a ->]; [lia|]. simpl.
    destruct a; simpl; eexists; (split; [done|]); simpl; intros i Hi;
      rewrite ?lookup_insert_ne by lia; apply IH; lia.
  - eexists; split; [done|]. simpl. intros; apply IH; lia.
Qed.

(** ** What the two blocking sets contain *)

Lemma swap_pair_spec (old new : gmap nat Cell) (i j : nat) (sb sb' : gset nat) :
  swap_pair old new i j sb = Some sb' →
  (swaps old new i j ∧ sb' = {[j]} ∪ ({[i]} ∪ sb)) ∨
  (¬ swaps old new i j ∧ sb' = sb).
Proof.
  unfold swap_pair, swaps. intros Hp.
  destruct (new !! i) as [ni|]; simpl in Hp; [|done].
  destruct (old !! j) as [oj|]; simpl in Hp; [|done].
  case_bool_decide as H1.
  - destruct (new !! j) as [nj|]; simpl in Hp; [|done].
    destruct (old !! i) as [oi|]; simpl in Hp; [|done].
    case_bool_decide as H2; injection Hp as <-.
    + left. subst. eauto 10.
    + right. split; [|done]. intros (p & q & ? & ? & ? & ?). congruence.
  - injection Hp as <-. right. split; [|done].
    intros (p & q & ? & ? & ? & ?). congruence.
Qed.

(** An agent is swap-blocked exactly when it wants to trade places with
    another agent. *)
Lemma compute_swap_blocked_spec (n : nat) (old new : gmap nat Cell)
    (sb : gset nat) :
  compute_swap_blocked n old new = Some sb →
  ∀ a, a ∈ sb ↔
       ∃ i j, (i < j < n)%nat ∧ (a = i ∨ a = j) ∧ swaps old new i j.
Proof.
  unfold compute_swap_blocked. intros Hrun.
  assert (∀ a, a ∈ sb ↔
           ∃ i j, (i < n)%nat ∧ (i < j < n)%nat ∧ (a = i ∨ a = j) ∧
                  swaps old new i j) as Hall.
  2:{ intros a. rewrite Hall. split.
      - intros (i & j & _ & ?). eauto.
      - intros (i & j & ? & ?). exists i, j. split; [lia|done]. }
  revert Hrun.
  apply (for_upto_invariant (λ k sb, ∀ a, a ∈ sb ↔
           ∃ i j, (i < k)%nat ∧ (i < j < n)%nat ∧ (a = i ∨ a = j) ∧
                  swaps old new i j)).
  { intros a. split; [set_solver|]. intros (i & j & ? & _). lia. }
  { intros k s s' Hk IH Hinner a.
    revert Hinner a.
    pose (Q := λ (j' : nat) (t : gset nat), ∀ a, a ∈ t ↔
      (∃ i j, (i < k)%nat ∧ (i < j < n)%nat ∧ (a = i ∨ a = j) ∧ swaps old new i j) ∨
      (∃ j, (k < j < j')%nat ∧ (a = k ∨ a = j) ∧ swaps old new k j)).
    intros Hinner.
    assert (Q (Nat.max (k + 1) n) s') as HQ.
    { revert Hinner. apply (for_range_invariant Q).
      - intros a. rewrite IH. split; [by left|].
        intros [?|(j & ? & _)]; [done|lia].
      - intros j t t' Hj HQ Hpair a. unfold Q in HQ.
        destruct (swap_pair_spec _ _ _ _ _ _ Hpair) as [[Hsw ->]|[Hsw ->]].
        + rewrite !elem_of_union, !elem_of_singleton, HQ. split.
          * intros [->|[->|[?|(j' & ? & ? & ?)]]].
            -- right. exists j. split; [lia|]. eauto.
            -- right. exists j. split; [lia|]. eauto.
            -- by left.
            -- right. exists j'. split; [lia|]. eauto.
          * intros [?|(j' & Hj' & Ha & Hsw')]; [eauto|].
            destruct (decide (j' = j)) as [->|]; [naive_solver|].
            right. right. right. exists j'. split; [lia|]. eauto.
        + rewrite HQ. split.
          * intros [?|(j' & ? & ? & ?)]; [by left|].
            right. exists j'. split; [lia|]. eauto.
          * intros [?|(j' & Hj' & Ha & Hsw')]; [by left|].
            destruct (decide (j' = j)) as [->|]; [done|].
            right. exists j'. split; [lia|]. eauto. }
    unfold Q in HQ. intros a. rewrite (HQ a). replace (Nat.max (k + 1) n) with n by lia. split.
    - intros [(i & j & ? & ?)|(j & ? & ?)].
      + exists i, j. split; [lia|done].
      + exists k, j. split; [lia|]. split; [lia|done].
    - intros (i & j & Hi & Hij & Ha & Hsw).
      destruct (decide (i = k)) as [->|].
      + right. exists j. split; [lia|done].
      + left. exists i, j. split; [lia|done]. }
Qed.

Lemma claimants_S (k : nat) (new : gmap nat Cell) (sb : gset nat) (c : Cell) :
  claimants (S k) new sb c =
  claimants k new sb c ++
  (if decide ((k ∉ sb) ∧ new !! k = Some c) then [k] else []).
Proof.
  unfold claimants. by rewrite seq_S, filter_app.
Qed.

(** [desired_cells] maps every claimed cell to the list of its claimants. *)
Lemma compute_desired_cells_lookup (n : nat) (new : gmap nat Cell)
    (sb : gset nat) (dc : gmap Cell (list nat)) :
  compute_desired_cells n new sb = Some dc →
  ∀ c, dc !! c =
       match claimants n new sb c with [] => None | l => Some l end.
Proof.
  unfold compute_desired_cells.
  apply (for_upto_invariant (λ k dc, ∀ c, dc !! c =
           match claimants k new sb c with [] => None | l => Some l end)).
  { intros c. by rewrite lookup_empty. }
  intros k s s' Hk IH Hbody c. rewrite claimants_S.
  case_bool_decide as Hsb.
  - injection Hbody as <-. rewrite decide_False by tauto.
    by rewrite app_nil_r.
  - destruct (new !! k) as [ck|] eqn:Hck; simpl in Hbody; [|done].
    injection Hbody as <-. rewrite lookup_insert. case_decide as Hc.
    + subst ck. rewrite decide_True by done. rewrite IH.
      by destruct (claimants k new sb c).
    + rewrite decide_False by (intros [_ ?]; congruence).
      by rewrite app_nil_r.
Qed.

Lemma two_elements (l : list nat) (a : nat) :
  NoDup l → a ∈ l → ((1 < length l)%nat ↔ ∃ b, b ∈ l ∧ b ≠ a).
Proof.
  intros Hnd Ha. split.
  - destruct l as [|x [|y l]]; simpl; [lia..|]. intros _.
    apply NoDup_cons in Hnd as [Hx _].
    destruct (decide (x = a)) as [->|]; [|exists x; set_solver].
    exists y. set_solver.
  - intros (b & Hb & Hne). destruct l as [|x [|y l]]; simpl; [|set_solver|lia].
    by apply elem_of_nil in Ha.
Qed.

(** An agent is same-cell-blocked exactly when it is not swap-blocked and
    another agent that is not swap-blocked desires the same cell. *)
Lemma collision_blocked_spec (n : nat) (new : gmap nat Cell) (sb : gset nat)
    (dc : gmap Cell (list nat)) (a : nat) :
  compute_desired_cells n new sb = Some dc →
  a ∈ compute_collision_blocked dc ↔
  (a < n)%nat ∧ (a ∉ sb) ∧
  ∃ b c, (b < n)%nat ∧ b ≠ a ∧ (b ∉ sb) ∧
         new !! a = Some c ∧ new !! b = Some c.
Proof.
  intros Hdc. rewrite elem_of_collision_blocked.
  pose proof (compute_desired_cells_lookup _ _ _ _ Hdc) as Hlk.
  assert (∀ c i, i ∈ claimants n new sb c ↔
                 (i < n)%nat ∧ (i ∉ sb) ∧ new !! i = Some c) as Hcl.
  { intros c i. unfold claimants. rewrite list_elem_of_filter, elem_of_seq.
    naive_solver lia. }
  assert (∀ c, NoDup (claimants n new sb c)) as Hnd.
  { intros c. apply NoDup_filter, NoDup_seq. }
  split.
  - intros (c & l & Hl & Hlen & Ha). rewrite Hlk in Hl.
    assert (l = claimants n new sb c) as ->.
    { by destruct (claimants n new sb c); simplify_eq. }
    apply (two_elements _ a (Hnd c) Ha) in Hlen as (b & Hb & Hne).
    apply Hcl in Ha as (? & ? & ?). apply Hcl in Hb as (? & ? & ?).
    do 2 (split; [done|]). by exists b, c.
  - intros (Ha & Hsb & b & c & Hb & Hne & Hbsb & Hac & Hbc).
    exists c, (claimants n new sb c).
    assert (a ∈ claimants n new sb c) as Hain by by apply Hcl.
    assert (b ∈ claimants n new sb c) as Hbin by by apply Hcl.
    split; [|split; [|done]].
    + rewrite Hlk. destruct (claimants n new sb c); [|done].
      by apply elem_of_nil in Hain.
    + apply (two_elements _ a (Hnd c) Hain). eauto.
Qed.

(** ** Inversion of [step_locals] and [step] *)

Lemma step_locals_inv (e : TrafficRoutingEnv) (actions : gmap nat Z) (l : StepLocals) :
  step_locals e actions = Some l →
  let n := num_agents e in
  Py.dict_range (λ i, agent_positions e !! i) n = Some (old_positions l) ∧
  compute_new_positions e (old_positions l) actions = Some (new_positions l) ∧
  compute_swap_blocked n (old_positions l) (new_positions l) = Some (swap_blocked l) ∧
  compute_desired_cells n (new_positions l) (swap_blocked l) = Some (desired_cells l) ∧
  collision_blocked l = compute_collision_blocked (desired_cells l) ∧
  compute_final_positions n (old_positions l) (new_positions l)
    (swap_blocked l ∪ collision_blocked l) = Some (final_positions l) ∧
  compute_scores n (final_positions l) (destinations e) (_arrived e) =
    Some {| sc_raw := raw_rewards l; sc_dones := dones l;
            sc_arrived := arrived_after l |} ∧
  compute_shaped_rewards n (old_positions l) (final_positions l) (destinations e)
    (raw_rewards l) = Some (shaped_rewards l).
Proof.
  unfold step_locals. intros H.
  destruct (Py.dict_range _ _) as [old|] eqn:H1; simpl in H; [|done].
  destruct (compute_new_positions _ _ _) as [new|] eqn:H2; simpl in H; [|done].
  destruct (compute_swap_blocked _ _ _) as [sb|] eqn:H3; simpl in H; [|done].
  destruct (compute_desired_cells _ _ _) as [dc|] eqn:H4; simpl in H; [|done].
  destruct (compute_final_positions _ _ _ _) as [final|] eqn:H5; simpl in H; [|done].
  destruct (compute_scores _ _ _ _) as [[raw dn arr]|] eqn:H6; simpl in H; [|done].
  destruct (compute_shaped_rewards _ _ _ _ _) as [shaped|] eqn:H7; simpl in H; [|done].
  injection H as <-. simpl. by repeat split.
Qed.

Lemma step_inv (e : TrafficRoutingEnv) (actions : gmap nat Z)
    (e' : TrafficRoutingEnv) (r : StepResult) :
  step e actions = Some (e', r) →
  ∃ l, step_locals e actions = Some l ∧ e' = env_after e l ∧
       _get_observations e' = Some (observations r) ∧
       rewards r = shaped_rewards l ∧
       done r = Py.all_values (dones l) || (50 <=? steps e + 1) ∧
       num_collisions r = (size (swap_blocked l) + size (collision_blocked l))%nat.
Proof.
  unfold step. intros H.
  destruct (step_locals e actions) as [l|]; simpl in H; [|done].
  destruct (_get_observations (env_after e l)) as [obs|] eqn:Hobs; simpl in H; [|done].
  injection H as <- <-. exists l. simpl. by rewrite Hobs.
Qed.

(** ** The cells agents move to *)

Lemma move_in_grid (grid : Z * Z) (action : Z) (p : Cell) :
  in_grid grid p → in_grid grid (move grid action p).
Proof.
  destruct p as [x y], grid as [H W]. unfold in_grid, move. simpl. intros Hp.
  repeat (match goal with
          | |- context [if ?b && ?c then _ else _] =>
              destruct b eqn:?; destruct c eqn:?; simpl
          end); simpl; lia.
Qed.

(** A move changes the position by at most one cell. *)
Lemma move_adjacent (grid : Z * Z) (action : Z) (p : Cell) :
  manhattan (move grid action p) p <= 1.
Proof.
  destruct p as [x y]. unfold manhattan, move.
  repeat (match goal with
          | |- context [if ?b && ?c then _ else _] =>
              destruct b eqn:?; destruct c eqn:?; simpl
          end); simpl; lia.
Qed.

Lemma desired_cell_free (e : TrafficRoutingEnv) (old : gmap nat Cell)
    (i : nat) (action : Z) (c : Cell) :
  (∀ p, old !! i = Some p → free_cell e p) →
  desired_cell e old i action = Some c → free_cell e c.
Proof.
  unfold desired_cell. intros Hold H.
  destruct (default false (_arrived e !! i)); [by apply Hold|].
  destruct (old !! i) as [p|]; simpl in H; [|done].
  injection H as <-. case_bool_decide as Hobs; [by apply Hold|].
  split; [|done]. apply move_in_grid. by apply Hold.
Qed.

Lemma desired_cell_latched (e : TrafficRoutingEnv) (old : gmap nat Cell)
    (i : nat) (action : Z) :
  _arrived e !! i = Some true → desired_cell e old i action = old !! i.
Proof. unfold desired_cell. by intros ->. Qed.

Lemma desired_cell_total (e : TrafficRoutingEnv) (old : gmap nat Cell)
    (i : nat) (action : Z) :
  is_Some (old !! i) → is_Some (desired_cell e old i action).
Proof.
  unfold desired_cell. intros [p Hp]. rewrite Hp. simpl.
  destruct (default false _); eauto.
Qed.

(** ** Construction *)

Lemma randint_range (raw high x : Z) :
  randint raw high = Some x → 0 <= x < high.
Proof.
  unfold randint. destruct (0 <? high) eqn:Hh; [|done].
  intros [= <-]. apply Z.ltb_lt in Hh. by apply Z.mod_pos_bound.
Qed.

Lemma random_cell_in_grid (grid raws : Z * Z) (p : Cell) :
  random_cell grid raws = Some p → in_grid grid p.
Proof.
  unfold random_cell. intros H.
  destruct (randint (fst raws) (fst grid)) as [x|] eqn:Hx; simpl in H; [|done].
  destruct (randint (snd raws) (snd grid)) as [y|] eqn:Hy; simpl in H; [|done].
  injection H as <-. split; simpl; by eapply randint_range.
Qed.

Lemma check_obstacles_spec (n : nat) (init dest : gmap nat Cell) (obs : list Cell) :
  check_obstacles n init dest obs = Some () →
  ∀ o i, o ∈ obs → (i < n)%nat → init !! i ≠ Some o ∧ dest !! i ≠ Some o.
Proof.
  unfold check_obstacles. intros Hrun o i Ho Hi.
  induction obs as [|o' obs IH]; [by apply elem_of_nil in Ho|].
  simpl in Hrun.
  match type of Hrun with
  | ?inner ≫= _ = _ => destruct inner as [[]|] eqn:Hinner; simpl in Hrun; [|done]
  end.
  apply elem_of_cons in Ho as [->|Ho]; [|by apply IH].
  clear IH Hrun. revert i Hi. revert Hinner.
  apply (for_upto_invariant (λ k _, ∀ i, (i < k)%nat →
           init !! i ≠ Some o' ∧ dest !! i ≠ Some o')); [lia|].
  intros k s s' Hk IHk Hbody j Hj.
  destruct (decide (j = k)) as [->|]; [|apply IHk; lia].
  destruct (init !! k) as [p|]; simpl in Hbody; [|done].
  case_bool_decide; [done|].
  destruct (dest !! k) as [d|]; simpl in Hbody; [|done].
  case_bool_decide; [done|]. split; congruence.
Qed.

Lemma dict_range_false (n : nat) (m : gmap nat bool) :
  Py.dict_range (λ _, Some false) n = Some m →
  ∀ i, m !! i = if decide (i < n)%nat then Some false else None.
Proof. intros Hm i. by rewrite (dict_range_lookup _ _ _ Hm). Qed.

Lemma TrafficRoutingEnv_init_ok (grid : Z * Z) (n : nat)
    (obs : option (list Cell)) (rng : nat → Z * Z) (e : TrafficRoutingEnv) :
  TrafficRoutingEnv_init grid n obs rng = Some e → env_ok e.
Proof.
  unfold TrafficRoutingEnv_init. intros H.
  destruct (Py.dict_range (λ i, random_cell grid (rng i)) n)
    as [init|] eqn:Hinit; simpl in H; [|done].
  destruct (Py.dict_range (λ i, random_cell grid (rng (n + i)%nat)) n)
    as [dest|] eqn:Hdest; simpl in H; [|done].
  destruct (Py.dict_range (λ _, Some false) n) as [arr|] eqn:Harr; simpl in H; [|done].
  destruct (check_obstacles _ _ _ _) as [[]|] eqn:Hchk; simpl in H; [|done].
  injection H as <-.
  assert (∀ i p, init !! i = Some p →
            free_cell {| grid_size := grid; num_agents := n;
                         _initial_positions := init; destinations := dest;
                         agent_positions := init; _arrived := arr; steps := 0;
                         obstacles := default [] obs |} p) as Hfree.
  { intros i p Hp. pose proof Hp as Hp'.
    rewrite (dict_range_lookup _ _ _ Hinit) in Hp. case_decide as Hi; [|done].
    split; simpl; [by eapply random_cell_in_grid|].
    intros Hin. destruct (check_obstacles_spec _ _ _ _ Hchk p i Hin Hi). done. }
  split; simpl; try by eapply dict_range_dom.
  - done.
  - done.
  - intros i. rewrite (dict_range_false _ _ Harr). by case_decide.
Qed.

Lemma reset_env_inv (e e' : TrafficRoutingEnv) :
  reset_env e = Some e' →
  grid_size e' = grid_size e ∧ num_agents e' = num_agents e ∧
  _initial_positions e' = _initial_positions e ∧
  destinations e' = destinations e ∧ obstacles e' = obstacles e ∧
  agent_positions e' = _initial_positions e ∧ steps e' = 0 ∧
  ∀ i, _arrived e' !! i =
       if decide (i < num_agents e)%nat then Some false else None.
Proof.
  unfold reset_env. intros H.
  destruct (Py.dict_range _ _) as [arr|] eqn:Harr; simpl in H; [|done].
  injection H as <-. simpl. repeat split; try done.
  by apply dict_range_false.
Qed.

Lemma reset_inv (e e' : TrafficRoutingEnv) (o : list (nat * Observation)) :
  reset e = Some (e', o) → reset_env e = Some e' ∧ _get_observations e' = Some o.
Proof.
  unfold reset. intros H.
  destruct (reset_env e) as [e1|]; simpl in H; [|done].
  destruct (_get_observations e1) as [o1|] eqn:Ho; simpl in H; [|done].
  by injection H as <- <-.
Qed.

Lemma reset_env_ok (e e' : TrafficRoutingEnv) :
  env_ok e → reset_env e = Some e' → env_ok e'.
Proof.
  intros [] H. apply reset_env_inv in H
    as (Hg & Hn & Hi & Hd & Ho & Hp & Hs & Ha).
  assert (∀ p, free_cell e' p ↔ free_cell e p) as Hfree.
  { intros p. unfold free_cell. by rewrite Hg, Ho. }
  split; rewrite ?Hn, ?Hi, ?Hd, ?Hp; try done.
  - intros i. rewrite Ha. case_decide; split; intros H'; try done; try lia.
  - intros i p Hp'. apply Hfree. eauto.
  - intros i p Hp'. apply Hfree. eauto.
  - intros i. rewrite Ha. by case_decide.
Qed.

Lemma _get_observations_total (e : TrafficRoutingEnv) :
  env_ok e → is_Some (_get_observations e).
Proof.
  intros []. unfold _get_observations.
  edestruct (for_upto_total (St := list (nat * Observation)) (λ _ _, True)
               (num_agents e)) as (o & -> & _); [done| |done].
  intros k s Hk _. simpl.
  destruct (proj2 (ok_pos_dom0 k) Hk) as [p ->].
  destruct (proj2 (ok_dest_dom0 k) Hk) as [d ->]. simpl. eauto.
Qed.

Lemma reset_total (e : TrafficRoutingEnv) :
  env_ok e → ∃ e' o, reset e = Some (e', o) ∧ env_ok e'.
Proof.
  intros Hok. unfold reset.
  destruct (dict_range_total (λ _ : nat, Some false) (num_agents e)) as [arr Harr];
    [by eauto|].
  assert (reset_env e = Some
            {| grid_size := grid_size e; num_agents := num_agents e;
               _initial_positions := _initial_positions e;
               destinations := destinations e;
               agent_positions := _initial_positions e; _arrived := arr;
               steps := 0; obstacles := obstacles e |}) as Hre.
  { unfold reset_env. by rewrite Harr. }
  rewrite Hre. simpl.
  pose proof (reset_env_ok _ _ Hok Hre) as Hok'.
  destruct (_get_observations_total _ Hok') as [o Ho].
  rewrite Ho. simpl. eauto.
Qed.


(** ** One step preserves the representation invariant *)

Section StepInvariant.
Variables (e : TrafficRoutingEnv) (actions : gmap nat Z) (l : StepLocals).
Hypothesis Hstep : step_locals e actions = Some l.

Lemma old_positions_lookup (i : nat) :
  old_positions l !! i =
  if decide (i < num_agents e)%nat then agent_positions e !! i else None.
Proof.
  destruct (step_locals_inv _ _ _ Hstep) as (Hold & _).
  by rewrite (dict_range_lookup _ _ _ Hold).
Qed.

Lemma new_positions_lookup (i : nat) :
  new_positions l !! i = actions !! i ≫= desired_cell e (old_positions l) i.
Proof.
  destruct (step_locals_inv _ _ _ Hstep) as (_ & Hnew & _).
  by apply compute_new_positions_lookup.
Qed.

Lemma final_positions_lookup (i : nat) :
  final_positions l !! i =
  if decide (i < num_agents e)%nat then
    if bool_decide (i ∈ swap_blocked l ∪ collision_blocked l)
    then old_positions l !! i else new_positions l !! i
  else None.
Proof.
  destruct (step_locals_inv _ _ _ Hstep) as (_ & _ & _ & _ & _ & Hfin & _).
  by rewrite (dict_range_lookup _ _ _ Hfin).
Qed.

Lemma final_positions_dom (i : nat) :
  is_Some (final_positions l !! i) ↔ (i < num_agents e)%nat.
Proof.
  destruct (step_locals_inv _ _ _ Hstep) as (_ & _ & _ & _ & _ & Hfin & _).
  by apply (dict_range_dom _ _ _ Hfin).
Qed.

(** Where an agent ends the step: on its old cell, or on the cell its
    action led to when nothing blocked it. *)
Lemma final_positions_cases (i : nat) (p : Cell) :
  final_positions l !! i = Some p →
  (i < num_agents e)%nat ∧
  (agent_positions e !! i = Some p ∨
   ∃ action, actions !! i = Some action ∧
             desired_cell e (old_positions l) i action = Some p).
Proof.
  intros Hp. assert (i < num_agents e)%nat as Hi.
  { apply final_positions_dom. by rewrite Hp. }
  split; [done|]. rewrite final_positions_lookup in Hp.
  rewrite decide_True in Hp by done. case_bool_decide.
  - left. rewrite old_positions_lookup, decide_True in Hp; done.
  - right. rewrite new_positions_lookup in Hp.
    destruct (actions !! i) as [action|]; simpl in Hp; [|done]. eauto.
Qed.

Lemma scores_after (i : nat) :
  (i < num_agents e)%nat →
  ∃ p d, final_positions l !! i = Some p ∧ destinations e !! i = Some d ∧
    (p = d → is_Some (_arrived e !! i)) ∧
    let '(r, dn, la) := score_of (bool_decide (p = d))
                                 (default false (_arrived e !! i)) in
    raw_rewards l !! i = Some r ∧ dones l !! i = Some dn ∧
    arrived_after l !! i =
      (if bool_decide (p = d) then Some la else _arrived e !! i).
Proof.
  destruct (step_locals_inv _ _ _ Hstep) as (_ & _ & _ & _ & _ & _ & Hsc & _).
  destruct (compute_scores_spec _ _ _ _ _ Hsc) as [Hlt _]. apply Hlt.
Qed.

Lemma arrived_after_outside (i : nat) :
  (num_agents e ≤ i)%nat → arrived_after l !! i = _arrived e !! i.
Proof.
  destruct (step_locals_inv _ _ _ Hstep) as (_ & _ & _ & _ & _ & _ & Hsc & _).
  destruct (compute_scores_spec _ _ _ _ _ Hsc) as [_ Hge].
  intros Hi. by destruct (Hge i Hi) as (_ & _ & ?).
Qed.

(** A latched agent ends the step where it started. *)
Lemma latched_stays (i : nat) :
  _arrived e !! i = Some true →
  final_positions l !! i =
  if decide (i < num_agents e)%nat then agent_positions e !! i else None.
Proof.
  intros Harr. rewrite final_positions_lookup.
  case_decide as Hi; [|done]. case_bool_decide.
  - by rewrite old_positions_lookup, decide_True.
  - destruct (final_positions_dom i) as [_ Hsome].
    destruct (Hsome Hi) as [p Hp]. rewrite final_positions_lookup in Hp.
    rewrite decide_True, bool_decide_eq_false_2 in Hp by done.
    rewrite new_positions_lookup in Hp |- *.
    destruct (actions !! i) as [action|]; simpl in *; [|done].
    by rewrite desired_cell_latched, old_positions_lookup, decide_True.
Qed.

Hypothesis Hok : env_ok e.

Lemma step_locals_ok : env_ok (env_after e l).
Proof.
  destruct Hok. split; simpl; try done.
  - apply final_positions_dom.
  - intros i. destruct (decide (i < num_agents e)%nat) as [Hi|Hi].
    + destruct (scores_after i Hi) as (p & d & _ & _ & Harr & Hsc).
      destruct (score_of _ _) as [[r dn] la].
      destruct Hsc as (_ & _ & ->). split; [done|].
      intros _. case_bool_decide; [done|]. by apply ok_arrived_dom0.
    + rewrite arrived_after_outside by lia. apply ok_arrived_dom0.
  - intros i p Hp. apply final_positions_cases in Hp as (Hi & [Hp|(a & Ha & Hp)]).
    + by apply (ok_pos_free0 i).
    + apply (desired_cell_free e _ i a p) in Hp; [done|].
      intros q. rewrite old_positions_lookup, decide_True by done.
      apply ok_pos_free0.
  - intros i Harr. destruct (decide (i < num_agents e)%nat) as [Hi|Hi].
    + destruct (scores_after i Hi) as (p & d & Hp & Hd & _ & Hsc).
      rewrite Hp, Hd. unfold score_of in Hsc.
      destruct (decide (p = d)) as [->|Hne]; [done|].
      rewrite bool_decide_eq_false_2 in Hsc by done.
      destruct Hsc as (_ & _ & Ha). rewrite Ha in Harr.
      rewrite (latched_stays i Harr), decide_True in Hp by done.
      specialize (ok_latched0 i Harr). congruence.
    + rewrite arrived_after_outside in Harr by lia.
      assert (is_Some (_arrived e !! i)) as Hs by (by rewrite Harr).
      apply ok_arrived_dom0 in Hs. lia.
Qed.
End StepInvariant.

Lemma step_ok (e : TrafficRoutingEnv) (actions : gmap nat Z)
    (e' : TrafficRoutingEnv) (r : StepResult) :
  env_ok e → step e actions = Some (e', r) → env_ok e'.
Proof.
  intros Hok Hstep. apply step_inv in Hstep as (l & Hl & -> & _).
  by eapply step_locals_ok.
Qed.

(** ** A step with a well-formed action map does not raise *)

Lemma well_formed_actions_lookup (n : nat) (actions : gmap nat Z) :
  well_formed_actions n actions → ∀ i, is_Some (actions !! i) ↔ (i < n)%nat.
Proof.
  unfold well_formed_actions. intros Hdom i.
  rewrite <-elem_of_dom, Hdom, elem_of_set_seq. lia.
Qed.

Lemma step_locals_total (e : TrafficRoutingEnv) (actions : gmap nat Z) :
  env_ok e → well_formed_actions (num_agents e) actions →
  is_Some (step_locals e actions).
Proof.
  intros Hok Hwf0. pose proof (well_formed_actions_lookup _ _ Hwf0) as Hwf.
  pose proof Hok as [].
  unfold step_locals. set (n := num_agents e).
  destruct (dict_range_total (λ i, agent_positions e !! i) n) as [old Hold].
  { intros i Hi. by apply ok_pos_dom0. }
  rewrite Hold. simpl.
  assert (∀ i, (i < n)%nat → is_Some (old !! i)) as Holdn.
  { intros i Hi. rewrite (dict_range_lookup _ _ _ Hold), decide_True by done.
    by apply ok_pos_dom0. }
  destruct (compute_new_positions_total e old actions) as [new Hnew].
  { intros i a Ha. apply desired_cell_total, Holdn, Hwf. by rewrite Ha. }
  rewrite Hnew. simpl.
  assert (∀ i, (i < n)%nat → is_Some (new !! i)) as Hnewn.
  { intros i Hi. rewrite (compute_new_positions_lookup _ _ _ _ Hnew).
    destruct (proj2 (Hwf i) Hi) as [a ->]. simpl.
    by apply desired_cell_total, Holdn. }
  destruct (compute_swap_blocked_total n old new Holdn Hnewn) as [sb ->]. simpl.
  destruct (compute_desired_cells_total n new sb Hnewn) as [dc ->]. simpl.
  destruct (dict_range_total
              (λ i, if bool_decide (i ∈ sb ∪ compute_collision_blocked dc)
                    then old !! i else new !! i) n) as [final Hfinal].
  { intros i Hi. case_bool_decide; eauto. }
  unfold compute_final_positions. rewrite Hfinal. simpl.
  assert (∀ i, (i < n)%nat → is_Some (final !! i)) as Hfinaln.
  { intros i Hi. by apply (dict_range_dom _ _ _ Hfinal). }
  destruct (compute_scores_total n final (destinations e) (_arrived e))
    as [sc Hsc]; [done|intros; by apply ok_dest_dom0|intros; by apply ok_arrived_dom0|].
  rewrite Hsc. simpl.
  destruct (compute_scores_spec _ _ _ _ _ Hsc) as [Hraw _].
  unfold compute_shaped_rewards.
  edestruct (dict_range_total (A := spec_float)) as [shaped ->]; [|done].
  intros i Hi. destruct (Holdn i Hi) as [o ->].
  destruct (Hraw i Hi) as (p & d & -> & -> & _ & Hr). simpl.
  destruct (score_of _ _) as [[r dn] la]. destruct Hr as (-> & _). simpl. eauto.
Qed.

Lemma step_total (e : TrafficRoutingEnv) (actions : gmap nat Z) :
  env_ok e → well_formed_actions (num_agents e) actions →
  ∃ e' r, step e actions = Some (e', r) ∧ env_ok e'.
Proof.
  intros Hok Hwf. destruct (step_locals_total e actions Hok Hwf) as [l Hl].
  pose proof (step_locals_ok _ _ _ Hl Hok) as Hok'.
  destruct (_get_observations_total _ Hok') as [o Ho].
  unfold step. rewrite Hl. simpl. rewrite Ho. simpl. eauto.
Qed.

(** ** Frame properties *)

Lemma call_frame (e : TrafficRoutingEnv) (c : Call) (e' : TrafficRoutingEnv) :
  call e c = Some e' →
  grid_size e' = grid_size e ∧ num_agents e' = num_agents e ∧
  obstacles e' = obstacles e ∧ destinations e' = destinations e ∧
  _initial_positions e' = _initial_positions e.
Proof.
  destruct c as [|actions]; simpl; intros H.
  - destruct (reset e) as [[e1 o]|] eqn:Hr; simpl in H; [|done].
    injection H as <-. apply reset_inv in Hr as [Hr _].
    apply reset_env_inv in Hr. naive_solver.
  - destruct (step e actions) as [[e1 r]|] eqn:Hs; simpl in H; [|done].
    injection H as <-. apply step_inv in Hs as (l & _ & -> & _). done.
Qed.

Lemma run_snoc (e : TrafficRoutingEnv) (cs : list Call) (c : Call) :
  run e (cs ++ [c]) = run e cs ≫= λ e1, call e1 c.
Proof.
  unfold run. rewrite for_app. destruct (Py.for_ cs _ e) as [e1|]; simpl; [|done].
  by destruct (call e1 c).
Qed.

Lemma run_frame (e0 : TrafficRoutingEnv) (cs : list Call) (e : TrafficRoutingEnv) :
  run e0 cs = Some e →
  grid_size e = grid_size e0 ∧ num_agents e = num_agents e0 ∧
  obstacles e = obstacles e0 ∧ destinations e = destinations e0 ∧
  _initial_positions e = _initial_positions e0.
Proof.
  revert e. induction cs as [|c cs IH] using rev_ind; intros e Hrun.
  - by injection Hrun as <-.
  - rewrite run_snoc in Hrun.
    destruct (run e0 cs) as [e1|]; simpl in Hrun; [|done].
    apply call_frame in Hrun. specialize (IH e1 eq_refl).
    destruct Hrun as (-> & -> & -> & -> & ->). done.
Qed.

Lemma TrafficRoutingEnv_init_inv (grid : Z * Z) (n : nat)
    (obs : option (list Cell)) (rng : nat → Z * Z) (e : TrafficRoutingEnv) :
  TrafficRoutingEnv_init grid n obs rng = Some e →
  grid_size e = grid ∧ num_agents e = n ∧ obstacles e = default [] obs ∧
  agent_positions e = _initial_positions e ∧ steps e = 0.
Proof.
  unfold TrafficRoutingEnv_init. intros H.
  destruct (Py.dict_range (λ i, random_cell grid (rng i)) n)
    as [init|]; simpl in H; [|done].
  destruct (Py.dict_range (λ i, random_cell grid (rng (n + i)%nat)) n)
    as [dest|]; simpl in H; [|done].
  destruct (Py.dict_range (λ _, Some false) n) as [arr|]; simpl in H; [|done].
  destruct (check_obstacles _ _ _ _) as [[]|]; simpl in H; [|done].
  by injection H as <-.
Qed.

Lemma call_ok (e : TrafficRoutingEnv) (c : Call) (e' : TrafficRoutingEnv) :
  env_ok e → call e c = Some e' → env_ok e'.
Proof.
  intros Hok. destruct c as [|actions]; simpl; intros H.
  - destruct (reset e) as [[e1 o]|] eqn:Hr; simpl in H; [|done].
    injection H as <-. apply reset_inv in Hr as [Hr _]. by eapply reset_env_ok.
  - destruct (step e actions) as [[e1 r]|] eqn:Hs; simpl in H; [|done].
    injection H as <-. by eapply step_ok.
Qed.

Lemma reachable_ok (e : TrafficRoutingEnv) : reachable e → env_ok e.
Proof.
  induction 1 as [grid n obs rng e Hinit|e e' o _ IH Hr|e actions e' r _ IH Hs].
  - by eapply TrafficRoutingEnv_init_ok.
  - apply reset_inv in Hr as [Hr _]. by eapply reset_env_ok.
  - by eapply step_ok.
Qed.

(** What the arbitration does guarantee: two agents that are both left
    unblocked end the step on different cells. *)
Lemma unblocked_agents_distinct (e : TrafficRoutingEnv) (actions : gmap nat Z)
    (l : StepLocals) (i j : nat) :
  step_locals e actions = Some l →
  (i < num_agents e)%nat → (j < num_agents e)%nat → i ≠ j →
  i ∉ swap_blocked l ∪ collision_blocked l →
  j ∉ swap_blocked l ∪ collision_blocked l →
  final_positions l !! i ≠ final_positions l !! j.
Proof.
  intros Hl Hi Hj Hij Hbi Hbj Heq.
  destruct (step_locals_inv _ _ _ Hl) as (_ & _ & _ & Hdc & Hcb & _).
  destruct (proj2 (final_positions_dom _ _ _ Hl i) Hi) as [c Hc].
  rewrite Hc in Heq. symmetry in Heq.
  rewrite (final_positions_lookup _ _ _ Hl), decide_True in Hc by done.
  rewrite (final_positions_lookup _ _ _ Hl), decide_True in Heq by done.
  rewrite bool_decide_eq_false_2 in Hc by done.
  rewrite bool_decide_eq_false_2 in Heq by done.
  apply Hbi. apply elem_of_union. right. rewrite Hcb.
  apply (collision_blocked_spec _ _ _ _ i Hdc).
  split; [done|]. split; [set_solver|].
  exists j, c. repeat split; try done. set_solver.
Qed.

(** ** The model on the specification's test cases *)

(** The literal [gamma] is the double nearest to 99/100. *)
Example gamma_is_0_99 : Float64.truediv 99 100 = Some gamma.
Proof. by vm_compute. Qed.

(** Swap test: two adjacent agents moving into each other's cell both stay,
    and two collisions are counted. *)
Example swap_test :
  ∃ e e' r, swap_env = Some e ∧ step e (actions_of [3; 2]) = Some (e', r) ∧
            agent_positions e' = agent_positions e ∧ num_collisions r = 2%nat.
Proof. eexists _, _, _. repeat split; vm_compute; reflexivity. Qed.

(** Same-cell test: two agents moving onto one free cell both stay. *)
Example same_cell_test :
  ∃ e e' r, row_env = Some e ∧ step e (actions_of [4; 3; 2]) = Some (e', r) ∧
            agent_positions e' = agent_positions e ∧ num_collisions r = 2%nat.
Proof. eexists _, _, _. repeat split; vm_compute; reflexivity. Qed.

(** Obstacle test: an agent moving into an obstacle stays, and no collision
    is counted. *)
Example obstacle_test :
  ∃ e e' r, obstacle_env = Some e ∧ step e (actions_of [3]) = Some (e', r) ∧
            agent_positions e' = agent_positions e ∧ num_collisions r = 0%nat.
Proof. eexists _, _, _. repeat split; vm_compute; reflexivity. Qed.

(** ** The claims about the grid world *)

(** C3 (the code departs from it): starting from pairwise-distinct cells,
    [step] can leave two agents on one cell.  Agents 0, 1 and 2 stand at
    columns 0, 1 and 3 of row 0; agents 1 and 2 both want column 2 and are
    held, while agent 0 moves onto the cell agent 1 is held at. *)
Theorem step_can_merge_agents :
  ∃ e e' r,
    row_env = Some e ∧
    pairwise_distinct 3 (agent_positions e) ∧
    step e row_actions = Some (e', r) ∧
    agent_positions e' !! 0%nat = Some (0, 1) ∧
    agent_positions e' !! 1%nat = Some (0, 1) ∧
    ¬ pairwise_distinct 3 (agent_positions e').
Proof.
  eexists _, _, _. split; [vm_compute; reflexivity|].
  split.
  { intros i j Hi Hj Hij.
    destruct i as [|[|[|i]]]; destruct j as [|[|[|j]]]; try lia; by vm_compute. }
  split; [vm_compute; reflexivity|].
  split; [by vm_compute|]. split; [by vm_compute|].
  intros Hd. apply (Hd 0%nat 1%nat); [lia..|]. by vm_compute.
Qed.

(** C4: after a successful construction, every sequence of [reset] and
    [step] calls with well-formed action maps runs without an exception and
    leaves every agent on a cell inside the grid that is not an obstacle. *)
Theorem positions_stay_free (grid : Z * Z) (n : nat) (obs : option (list Cell))
    (rng : nat → Z * Z) (e0 : TrafficRoutingEnv) (cs : list Call) :
  TrafficRoutingEnv_init grid n obs rng = Some e0 →
  Forall (well_formed_call n) cs →
  ∃ e, run e0 cs = Some e ∧
       ∀ i, (i < n)%nat →
            ∃ p, agent_positions e !! i = Some p ∧
                 0 <= fst p < fst grid ∧ 0 <= snd p < snd grid ∧
                 p ∉ default [] obs.
Proof.
  intros Hinit Hcs.
  destruct (TrafficRoutingEnv_init_inv _ _ _ _ _ Hinit) as (Hg & Hn & Ho & _).
  assert (∃ e, run e0 cs = Some e ∧ env_ok e) as (e & Hrun & Hok).
  { induction cs as [|c cs IH] using rev_ind.
    - exists e0. split; [done|]. by eapply TrafficRoutingEnv_init_ok.
    - apply Forall_app in Hcs as [Hcs Hc]. apply Forall_cons_1 in Hc as [Hc _].
      destruct (IH Hcs) as (e1 & Hrun1 & Hok1).
      rewrite run_snoc, Hrun1. simpl.
      destruct (run_frame _ _ _ Hrun1) as (_ & Hn1 & _).
      destruct c as [|actions]; simpl.
      + destruct (reset_total e1 Hok1) as (e2 & o & -> & Hok2). simpl. eauto.
      + destruct (step_total e1 actions Hok1) as (e2 & r & -> & Hok2);
          [rewrite Hn1, Hn; exact Hc|]. simpl. eauto. }
  exists e. split; [done|]. intros i Hi.
  destruct (run_frame _ _ _ Hrun) as (Hg' & Hn' & Ho' & _).
  destruct Hok. destruct (proj2 (ok_pos_dom0 i)) as [p Hp]; [lia|].
  exists p. split; [done|]. destruct (ok_pos_free0 i p Hp) as [[Hx Hy] Hfree].
  rewrite Hg', Hg in Hx, Hy. rewrite Ho', Ho in Hfree. done.
Qed.

Lemma positions_stay_free_witness :
  ∃ e0, main_env = Some e0 ∧
    ∃ e, run e0 [Step (actions_of [3; 0; 2; 3]); Reset;
                 Step (actions_of [1; 1; 1; 1])] = Some e ∧
         ∀ i, (i < 4)%nat →
              ∃ p, agent_positions e !! i = Some p ∧
                   0 <= fst p < fst (8, 8) ∧ 0 <= snd p < snd (8, 8) ∧
                   p ∉ default [] (Some fixed_obstacles).
Proof.
  eexists. split; [vm_compute; reflexivity|].
  apply (positions_stay_free (8, 8) 4 (Some fixed_obstacles) main_rng).
  - vm_compute; reflexivity.
  - constructor; [vm_compute; reflexivity|].
    constructor; [exact I|].
    constructor; [vm_compute; reflexivity|]. constructor.
Defined.

(** C5: in every call of [step] the swap-blocked and the same-cell-blocked
    sets are disjoint, every agent in either set keeps the position it had
    before the call, and the returned collision count is the sum of the two
    sizes. *)
Theorem collisions_counted (e : TrafficRoutingEnv) (actions : gmap nat Z)
    (e' : TrafficRoutingEnv) (r : StepResult) :
  step e actions = Some (e', r) →
  ∃ l, step_locals e actions = Some l ∧
       swap_blocked l ## collision_blocked l ∧
       (∀ i, i ∈ swap_blocked l ∨ i ∈ collision_blocked l →
             is_Some (agent_positions e !! i) ∧
             agent_positions e' !! i = agent_positions e !! i) ∧
       num_collisions r =
         (size (swap_blocked l) + size (collision_blocked l))%nat.
Proof.
  intros Hstep. apply step_inv in Hstep as (l & Hl & -> & _ & _ & _ & Hcount).
  exists l. split; [done|].
  destruct (step_locals_inv _ _ _ Hl) as (_ & _ & Hsb & Hdc & Hcb & _).
  assert (∀ i, i ∈ collision_blocked l →
               (i < num_agents e)%nat ∧ i ∉ swap_blocked l) as Hcbi.
  { intros i. rewrite Hcb, elem_of_collision_blocked.
    intros (c & agents & Hc & _ & Hi).
    destruct (compute_desired_cells_spec _ _ _ _ Hdc c agents i Hc Hi) as (? & ? & _).
    done. }
  split; [|split; [|done]].
  - intros i Hi1 Hi2. by destruct (Hcbi i Hi2).
  - intros i Hi. simpl.
    assert (i < num_agents e)%nat as Hlt.
    { destruct Hi as [Hi|Hi]; [by eapply compute_swap_blocked_bound|].
      by destruct (Hcbi i Hi). }
    rewrite (final_positions_lookup _ _ _ Hl), decide_True by done.
    rewrite bool_decide_eq_true_2 by set_solver.
    rewrite (old_positions_lookup _ _ _ Hl), decide_True by done.
    split; [|done].
    destruct (proj2 (final_positions_dom _ _ _ Hl i) Hlt) as [p Hp].
    rewrite (final_positions_lookup _ _ _ Hl), decide_True in Hp by done.
    rewrite bool_decide_eq_true_2 in Hp by set_solver.
    rewrite (old_positions_lookup _ _ _ Hl), decide_True in Hp by done.
    by rewrite Hp.
Qed.

Lemma collisions_counted_witness :
  ∃ e e' r, row_env = Some e ∧ step e row_actions = Some (e', r) ∧
    ∃ l, step_locals e row_actions = Some l ∧
         swap_blocked l ## collision_blocked l ∧
         (∀ i, i ∈ swap_blocked l ∨ i ∈ collision_blocked l →
               is_Some (agent_positions e !! i) ∧
               agent_positions e' !! i = agent_positions e !! i) ∧
         num_collisions r =
           (size (swap_blocked l) + size (collision_blocked l))%nat.
Proof.
  eexists _, _, _. split; [vm_compute; reflexivity|].
  split; [vm_compute; reflexivity|].
  apply collisions_counted. vm_compute; reflexivity.
Defined.

(** The arrival bonus of a step latches the agent. *)
Lemma bonus_latches (e : TrafficRoutingEnv) (actions : gmap nat Z)
    (l : StepLocals) (i : nat) :
  step_locals e actions = Some l →
  raw_rewards l !! i = Some 10 → arrived_after l !! i = Some true.
Proof.
  intros Hl Hraw. destruct (decide (i < num_agents e)%nat) as [Hi|Hi].
  - destruct (scores_after _ _ _ Hl i Hi) as (p & d & _ & _ & _ & Hsc).
    unfold score_of in Hsc. case_bool_decide.
    + by destruct (default false _), Hsc as (? & ? & ?).
    + destruct Hsc as (Hr & _). congruence.
  - destruct (step_locals_inv _ _ _ Hl) as (_ & _ & _ & _ & _ & _ & Hsc & _).
    destruct (compute_scores_spec _ _ _ _ _ Hsc) as [_ Hge].
    destruct (Hge i) as (Hr & _); [lia|]. simpl in Hr. congruence.
Qed.

(** A latched agent stays latched and is not paid the bonus. *)
Lemma latched_no_bonus (e : TrafficRoutingEnv) (actions : gmap nat Z)
    (l : StepLocals) (i : nat) :
  step_locals e actions = Some l →
  _arrived e !! i = Some true →
  raw_rewards l !! i ≠ Some 10 ∧ arrived_after l !! i = Some true.
Proof.
  intros Hl Harr. destruct (decide (i < num_agents e)%nat) as [Hi|Hi].
  - destruct (scores_after _ _ _ Hl i Hi) as (p & d & _ & _ & _ & Hsc).
    rewrite Harr in Hsc. unfold score_of in Hsc. simpl in Hsc.
    case_bool_decide; destruct Hsc as (-> & _ & ->); done.
  - destruct (step_locals_inv _ _ _ Hl) as (_ & _ & _ & _ & _ & _ & Hsc & _).
    destruct (compute_scores_spec _ _ _ _ _ Hsc) as [_ Hge].
    destruct (Hge i) as (Hr & _ & Ha); [lia|]. simpl in *.
    rewrite Hr, Ha. done.
Qed.

Lemma bonus_count_latched (i : nat) (acts : list (gmap nat Z))
    (e : TrafficRoutingEnv) :
  _arrived e !! i = Some true → bonus_count i (episode_raw e acts) = 0%nat.
Proof.
  revert e. induction acts as [|a acts IH]; intros e Harr; simpl; [done|].
  destruct (step_locals e a) as [l|] eqn:Hl; [|done].
  destruct (latched_no_bonus _ _ _ _ Hl Harr) as [Hraw Harr'].
  unfold bonus_count in *. rewrite filter_cons, decide_False by done.
  by apply IH.
Qed.

Lemma bonus_count_le_1 (i : nat) (acts : list (gmap nat Z))
    (e : TrafficRoutingEnv) :
  (bonus_count i (episode_raw e acts) ≤ 1)%nat.
Proof.
  revert e. induction acts as [|a acts IH]; intros e; simpl; [unfold bonus_count; simpl; lia|].
  destruct (step_locals e a) as [l|] eqn:Hl; [|unfold bonus_count; simpl; lia].
  unfold bonus_count in *. rewrite filter_cons. case_decide as Hraw; simpl.
  - pose proof (bonus_latches _ _ _ _ Hl Hraw) as Harr.
    pose proof (bonus_count_latched i acts (env_after e l) Harr) as H0.
    unfold bonus_count in H0. lia.
  - apply IH.
Qed.

(** C6: an agent that ends a step on its destination is paid +10 and gets
    latched when its latch was false, and is paid 0 when it was already
    latched; an agent that ends elsewhere is paid -1.  Hence no episode pays
    an agent the +10 more than once. *)
Theorem raw_reward_rule (e : TrafficRoutingEnv) (actions : gmap nat Z)
    (l : StepLocals) (i : nat) :
  step_locals e actions = Some l →
  (i < num_agents e)%nat →
  (∃ p d,
     agent_positions (env_after e l) !! i = Some p ∧
     destinations e !! i = Some d ∧
     (p = d → _arrived e !! i = Some false →
        raw_rewards l !! i = Some 10 ∧
        _arrived (env_after e l) !! i = Some true) ∧
     (p = d → _arrived e !! i = Some true →
        raw_rewards l !! i = Some 0 ∧
        _arrived (env_after e l) !! i = Some true) ∧
     (p ≠ d →
        raw_rewards l !! i = Some (-1) ∧
        _arrived (env_after e l) !! i = _arrived e !! i)) ∧
  ∀ e0 acts, (bonus_count i (episode_raw e0 acts) ≤ 1)%nat.
Proof.
  intros Hl Hi. split; [|intros; apply bonus_count_le_1].
  destruct (scores_after _ _ _ Hl i Hi) as (p & d & Hp & Hd & _ & Hsc).
  exists p, d. simpl. do 2 (split; [done|]). unfold score_of in Hsc.
  split; [|split].
  - intros Hpd Harr. rewrite bool_decide_eq_true_2, Harr in Hsc by done.
    simpl in Hsc. by destruct Hsc as (-> & _ & ->).
  - intros Hpd Harr. rewrite bool_decide_eq_true_2, Harr in Hsc by done.
    simpl in Hsc. by destruct Hsc as (-> & _ & ->).
  - intros Hpd. rewrite bool_decide_eq_false_2 in Hsc by done.
    by destruct Hsc as (-> & _ & ->).
Qed.

(** C7: on an object a program can hold, a latch that is true stays true
    over a step, and the latched agent is on its destination before the
    step and after it, whatever action it was given. *)
Theorem latch_monotone (e : TrafficRoutingEnv) (actions : gmap nat Z)
    (e' : TrafficRoutingEnv) (r : StepResult) (i : nat) :
  reachable e →
  step e actions = Some (e', r) →
  _arrived e !! i = Some true →
  _arrived e' !! i = Some true ∧
  ∃ d, destinations e !! i = Some d ∧
       agent_positions e !! i = Some d ∧
       agent_positions e' !! i = Some d.
Proof.
  intros Hreach Hstep Harr. pose proof (reachable_ok _ Hreach) as Hok.
  apply step_inv in Hstep as (l & Hl & -> & _). simpl.
  destruct (latched_no_bonus _ _ _ _ Hl Harr) as [_ Harr'].
  split; [done|].
  assert (i < num_agents e)%nat as Hi.
  { apply (ok_arrived_dom _ Hok). by rewrite Harr. }
  destruct (proj2 (ok_dest_dom _ Hok i) Hi) as [d Hd].
  exists d. split; [done|].
  pose proof (ok_latched _ Hok i Harr) as Hpos. rewrite Hd in Hpos.
  split; [done|].
  by rewrite (latched_stays _ _ _ Hl i Harr), decide_True.
Qed.

(** C8: on a constructed object, no call of [reset] or [step] changes the
    grid dimensions, the obstacles or the destinations, and [reset] puts
    every agent back on its constructed initial position, clears every
    latch and zeroes the step counter. *)
Theorem reset_step_frame (grid : Z * Z) (n : nat) (obs : option (list Cell))
    (rng : nat → Z * Z) (e0 : TrafficRoutingEnv) (cs : list Call)
    (e : TrafficRoutingEnv) (c : Call) (e' : TrafficRoutingEnv) :
  TrafficRoutingEnv_init grid n obs rng = Some e0 →
  run e0 cs = Some e →
  call e c = Some e' →
  (grid_size e' = grid_size e ∧ obstacles e' = obstacles e ∧
   destinations e' = destinations e) ∧
  (grid_size e' = grid ∧ obstacles e' = default [] obs ∧
   destinations e' = destinations e0) ∧
  (c = Reset →
   agent_positions e' = agent_positions e0 ∧
   (∀ i, (i < n)%nat → _arrived e' !! i = Some false) ∧
   steps e' = 0).
Proof.
  intros Hinit Hrun Hcall.
  destruct (TrafficRoutingEnv_init_inv _ _ _ _ _ Hinit) as (Hg & Hn & Ho & Hp & _).
  destruct (run_frame _ _ _ Hrun) as (Hg1 & Hn1 & Ho1 & Hd1 & Hi1).
  destruct (call_frame _ _ _ Hcall) as (Hg2 & Hn2 & Ho2 & Hd2 & Hi2).
  split; [done|]. split; [by rewrite Hg2, Hg1, Ho2, Ho1, Hd2, Hd1|].
  intros ->. simpl in Hcall.
  destruct (reset e) as [[e1 o]|] eqn:Hr; simpl in Hcall; [|done].
  injection Hcall as ->. apply reset_inv in Hr as [Hr _].
  apply reset_env_inv in Hr as (_ & _ & _ & _ & _ & Hpos & Hsteps & Harr).
  split; [by rewrite Hpos, Hi1, Hp|]. split; [|done].
  intros i Hi. rewrite Harr, decide_True; [done|]. by rewrite Hn1, Hn.
Qed.

Lemma raw_reward_rule_witness :
  ∃ e l, arrival_env = Some e ∧
    step_locals e (actions_of [3; 4]) = Some l ∧
    raw_rewards l !! 0%nat = Some 10 ∧
    (∃ p d,
       agent_positions (env_after e l) !! 0%nat = Some p ∧
       destinations e !! 0%nat = Some d ∧
       (p = d → _arrived e !! 0%nat = Some false →
          raw_rewards l !! 0%nat = Some 10 ∧
          _arrived (env_after e l) !! 0%nat = Some true) ∧
       (p = d → _arrived e !! 0%nat = Some true →
          raw_rewards l !! 0%nat = Some 0 ∧
          _arrived (env_after e l) !! 0%nat = Some true) ∧
       (p ≠ d →
          raw_rewards l !! 0%nat = Some (-1) ∧
          _arrived (env_after e l) !! 0%nat = _arrived e !! 0%nat)) ∧
    ∀ e0 acts, (bonus_count 0 (episode_raw e0 acts) ≤ 1)%nat.
Proof.
  eexists _, _. split; [vm_compute; reflexivity|].
  split; [vm_compute; reflexivity|]. split; [vm_compute; reflexivity|].
  apply (raw_reward_rule _ (actions_of [3; 4]));
    [vm_compute; reflexivity|vm_compute; lia].
Defined.

Lemma latch_monotone_witness :
  ∃ e0 e r0 e' r,
    arrival_env = Some e0 ∧
    step e0 (actions_of [3; 4]) = Some (e, r0) ∧
    step e (actions_of [2; 0]) = Some (e', r) ∧
    _arrived e !! 0%nat = Some true ∧
    _arrived e' !! 0%nat = Some true ∧
    ∃ d, destinations e !! 0%nat = Some d ∧
         agent_positions e !! 0%nat = Some d ∧
         agent_positions e' !! 0%nat = Some d.
Proof.
  eexists _, _, _, _, _. split; [vm_compute; reflexivity|].
  split; [vm_compute; reflexivity|]. split; [vm_compute; reflexivity|].
  split; [vm_compute; reflexivity|].
  eapply (latch_monotone _ (actions_of [2; 0])).
  - eapply (reach_step _ (actions_of [3; 4])).
    + apply (reach_init (8, 8) 2 (Some [(1, 1)]) arrival_rng).
      vm_compute; reflexivity.
    + vm_compute; reflexivity.
  - vm_compute; reflexivity.
  - vm_compute; reflexivity.
Defined.

Lemma reset_step_frame_witness :
  ∃ e0 e e',
    main_env = Some e0 ∧
    run e0 [Step (actions_of [3; 0; 2; 3])] = Some e ∧
    call e Reset = Some e' ∧
    (grid_size e' = grid_size e ∧ obstacles e' = obstacles e ∧
     destinations e' = destinations e) ∧
    (grid_size e' = (8, 8) ∧ obstacles e' = default [] (Some fixed_obstacles) ∧
     destinations e' = destinations e0) ∧
    (Reset = Reset →
     agent_positions e' = agent_positions e0 ∧
     (∀ i, (i < 4)%nat → _arrived e' !! i = Some false) ∧
     steps e' = 0).
Proof.
  eexists _, _, _. split; [vm_compute; reflexivity|].
  split; [vm_compute; reflexivity|]. split; [vm_compute; reflexivity|].
  apply (reset_step_frame (8, 8) 4 (Some fixed_obstacles) main_rng _
           [Step (actions_of [3; 0; 2; 3])]); vm_compute; reflexivity.
Defined.

(** ** The replay buffer *)

Lemma push_transition (rb : ReplayBuffer) (t : Transition) :
  push rb (t_state t) (t_action t) (t_reward t) (t_next_state t) (t_done t) =
  {| capacity := capacity rb;
     buffer := deque_append (capacity rb) (buffer rb) t |}.
Proof. by destruct t. Qed.

Lemma push_all_snoc (rb : ReplayBuffer) (ts : list Transition) (t : Transition) :
  push_all rb (ts ++ [t]) =
  {| capacity := capacity (push_all rb ts);
     buffer := deque_append (capacity (push_all rb ts))
                            (buffer (push_all rb ts)) t |}.
Proof. unfold push_all. by rewrite foldl_app, <-push_transition. Qed.

Lemma push_all_capacity (rb : ReplayBuffer) (ts : list Transition) :
  capacity (push_all rb ts) = capacity rb.
Proof.
  induction ts as [|t ts IH] using rev_ind; [done|].
  by rewrite push_all_snoc.
Qed.

(** A buffer that started empty holds the last [capacity] transitions
    pushed, in the order they were pushed. *)
Lemma push_all_buffer (c : Z) (rb : ReplayBuffer) (ts : list Transition) :
  ReplayBuffer_init c = Some rb →
  buffer (push_all rb ts) = drop (length ts - Z.to_nat c) ts.
Proof.
  unfold ReplayBuffer_init. destruct (c <? 0) eqn:Hc; [done|].
  apply Z.ltb_ge in Hc. intros [= <-].
  induction ts as [|t ts IH] using rev_ind; [done|].
  rewrite push_all_snoc, push_all_capacity. simpl. rewrite IH.
  unfold deque_append. rewrite !length_app, length_drop. simpl.
  destruct (c <? _) eqn:Hfull.
  - apply Z.ltb_lt in Hfull.
    replace (length ts + 1 - Z.to_nat c)%nat
      with (S (length ts - Z.to_nat c)) by lia.
    destruct (decide (c = 0)) as [->|Hc0].
    + simpl. rewrite Nat.sub_0_r, drop_all. simpl.
      by rewrite drop_ge by (rewrite length_app; simpl; lia).
    + rewrite drop_app_le by (rewrite length_drop; lia).
      rewrite drop_drop. rewrite drop_app_le by lia.
      do 2 f_equal. lia.
  - apply Z.ltb_ge in Hfull.
    replace (length ts + 1 - Z.to_nat c)%nat with 0%nat by lia.
    replace (length ts - Z.to_nat c)%nat with 0%nat by lia. done.
Qed.

(** C9: pushing [c + 1] transitions into a buffer constructed with capacity
    [c] leaves exactly the last [c] of them, in insertion order, the first
    one having been evicted; and the length never exceeds [c]. *)
Theorem replay_buffer_evicts_oldest (c : Z) (rb : ReplayBuffer)
    (first : Transition) (rest : list Transition) :
  ReplayBuffer_init c = Some rb →
  Z.of_nat (length (first :: rest)) = c + 1 →
  buffer (push_all rb (first :: rest)) = rest ∧
  Z.of_nat (len (push_all rb (first :: rest))) = c ∧
  ∀ ts, Z.of_nat (len (push_all rb ts)) <= c.
Proof.
  intros Hinit Hlen. simpl in Hlen.
  assert (0 <= c) as Hc.
  { unfold ReplayBuffer_init in Hinit. destruct (c <? 0) eqn:Hc; [done|].
    by apply Z.ltb_ge in Hc. }
  assert (buffer (push_all rb (first :: rest)) = rest) as Hbuf.
  { rewrite (push_all_buffer c) by done. simpl length.
    replace (S (length rest) - Z.to_nat c)%nat with 1%nat by lia. done. }
  split; [done|]. split; [unfold len; rewrite Hbuf; lia|].
  intros ts. unfold len. rewrite (push_all_buffer c) by done.
  rewrite length_drop. lia.
Qed.

Lemma replay_buffer_evicts_oldest_witness :
  ∃ rb, ReplayBuffer_init 3 = Some rb ∧
    buffer (push_all rb (sample_transition 0 ::
              [sample_transition 1; sample_transition 2; sample_transition 3])) =
      [sample_transition 1; sample_transition 2; sample_transition 3] ∧
    Z.of_nat (len (push_all rb (sample_transition 0 ::
              [sample_transition 1; sample_transition 2; sample_transition 3]))) = 3 ∧
    ∀ ts, Z.of_nat (len (push_all rb ts)) <= 3.
Proof.
  eexists. split; [reflexivity|].
  apply (replay_buffer_evicts_oldest 3); reflexivity.
Defined.

(** ** Reward shaping *)

Lemma shaped_rewards_lookup (e : TrafficRoutingEnv) (actions : gmap nat Z)
    (l : StepLocals) (i : nat) :
  step_locals e actions = Some l → (i < num_agents e)%nat →
  ∃ o g p raw,
    agent_positions e !! i = Some o ∧ destinations e !! i = Some g ∧
    final_positions l !! i = Some p ∧ raw_rewards l !! i = Some raw ∧
    shaped_rewards l !! i =
      Some (shaped_reward raw (manhattan o g) (manhattan p g)).
Proof.
  intros Hl Hi.
  destruct (step_locals_inv _ _ _ Hl) as (_ & _ & _ & _ & _ & _ & _ & Hsh).
  unfold compute_shaped_rewards in Hsh.
  pose proof (dict_range_lookup _ _ _ Hsh i) as Hlk.
  destruct (dict_range_defined _ _ _ Hsh i Hi) as [x Hx].
  rewrite decide_True in Hlk by done. rewrite Hlk. clear Hlk.
  rewrite (old_positions_lookup _ _ _ Hl), decide_True in Hx |- * by done.
  destruct (agent_positions e !! i) as [o|]; simpl in *; [|done].
  destruct (destinations e !! i) as [g|]; simpl in *; [|done].
  destruct (final_positions l !! i) as [p|]; simpl in *; [|done].
  destruct (raw_rewards l !! i) as [raw|]; simpl in *; [|done].
  by exists o, g, p, raw.
Qed.

(** C2 as stated fails: in the shaping scenario the agent goes from distance
    5 to distance 4 with raw reward -1, and the reward [step] returns is
    farther than 0.07 from -0.04. *)
Lemma shaped_reward_is_not_minus_004 :
  ∃ e e' r x,
    shaping_env = Some e ∧ step e (actions_of [1]) = Some (e', r) ∧
    (∃ o g p, agent_positions e !! 0%nat = Some o ∧
              destinations e !! 0%nat = Some g ∧
              agent_positions e' !! 0%nat = Some p ∧
              manhattan o g = 5 ∧ manhattan p g = 4) ∧
    rewards r !! 0%nat = Some x ∧
    ¬ (Qabs (SF2Q x - (-4 # 100)) <= 7 # 100)%Q.
Proof.
  eexists _, _, _, _. split; [vm_compute; reflexivity|].
  split; [vm_compute; reflexivity|].
  split; [eexists _, _, _; repeat split; vm_compute; reflexivity|].
  split; [vm_compute; reflexivity|].
  intros Hle. apply Qle_bool_iff in Hle. by vm_compute in Hle.
Qed.

(** C2, amended: when an agent goes from Manhattan distance 5 to distance 4
    (so that its raw reward is -1), the shaped reward [step] returns is the
    binary32 number nearest to 0.04: it differs from +0.04 by less than
    1e-9. *)
Theorem shaped_reward_5_to_4 (e : TrafficRoutingEnv) (actions : gmap nat Z)
    (e' : TrafficRoutingEnv) (r : StepResult) (i : nat) (o g p : Cell) :
  step e actions = Some (e', r) →
  agent_positions e !! i = Some o →
  destinations e !! i = Some g →
  agent_positions e' !! i = Some p →
  manhattan o g = 5 →
  manhattan p g = 4 →
  ∃ l x, step_locals e actions = Some l ∧
         raw_rewards l !! i = Some (-1) ∧
         rewards r !! i = Some x ∧
         x = S754_finite false 10737418 (-28) ∧
         (Qabs (SF2Q x - (4 # 100)) <= 1 # 1000000000)%Q.
Proof.
  intros Hstep Ho Hg Hp Hdo Hdp.
  apply step_inv in Hstep as (l & Hl & -> & _ & Hrew & _). simpl in Hp.
  assert (i < num_agents e)%nat as Hi.
  { apply (final_positions_dom _ _ _ Hl). by rewrite Hp. }
  destruct (shaped_rewards_lookup _ _ _ i Hl Hi)
    as (o' & g' & p' & raw & Ho' & Hg' & Hp' & Hraw & Hsh).
  simplify_eq.
  destruct (scores_after _ _ _ Hl i Hi) as (p' & d' & Hp' & Hd' & _ & Hsc).
  simplify_eq. rewrite bool_decide_eq_false_2 in Hsc.
  2:{ intros ->. unfold manhattan in Hdp. lia. }
  simpl in Hsc. destruct Hsc as (Hraw' & _). simplify_eq.
  exists l, (shaped_reward (-1) 5 4). rewrite Hrew, Hsh, Hdo, Hdp.
  split; [done|]. split; [done|]. split; [done|].
  split; [by vm_compute|]. apply Qle_bool_iff. by vm_compute.
Qed.

Lemma shaped_reward_5_to_4_witness :
  ∃ e e' r,
    shaping_env = Some e ∧ step e (actions_of [1]) = Some (e', r) ∧
    ∃ l x, step_locals e (actions_of [1]) = Some l ∧
           raw_rewards l !! 0%nat = Some (-1) ∧
           rewards r !! 0%nat = Some x ∧
           x = S754_finite false 10737418 (-28) ∧
           (Qabs (SF2Q x - (4 # 100)) <= 1 # 1000000000)%Q.
Proof.
  eexists _, _, _. split; [vm_compute; reflexivity|].
  split; [vm_compute; reflexivity|].
  eapply (shaped_reward_5_to_4 _ (actions_of [1]) _ _ 0%nat (0, 0) (2, 3) (1, 0));
    vm_compute; reflexivity.
Defined.

(** ** The done flags of the training loop *)

(** The loop body stores the done flag the agent had before the step and
    raises the flag exactly when the reward it is given compares equal
    to 10. *)
Lemma store_transition_spec (sd sd' : gmap nat (list spec_float))
    (actions : gmap nat Z) (rewards : gmap nat spec_float) (i : nat)
    (buffers buffers' : gmap nat ReplayBuffer) (dd dd' : gmap nat bool) :
  store_transition sd sd' actions rewards i (buffers, dd) = Some (buffers', dd') →
  ∃ rb st a r st' d,
    buffers !! i = Some rb ∧ sd !! i = Some st ∧ actions !! i = Some a ∧
    rewards !! i = Some r ∧ sd' !! i = Some st' ∧ dd !! i = Some d ∧
    buffers' !! i = Some (push rb st a r st' d) ∧
    dd' !! i = Some (Float32.eq_int r 10 || d).
Proof.
  unfold store_transition. intros H.
  destruct (buffers !! i) as [rb|]; simpl in H; [|done].
  destruct (sd !! i) as [st|]; simpl in H; [|done].
  destruct (actions !! i) as [a|]; simpl in H; [|done].
  destruct (rewards !! i) as [r|]; simpl in H; [|done].
  destruct (sd' !! i) as [st'|]; simpl in H; [|done].
  destruct (dd !! i) as [d|] eqn:Hd; simpl in H; [|done].
  injection H as <- <-. exists rb, st, a, r, st', d.
  rewrite lookup_insert_eq. repeat split; try done.
  destruct (Float32.eq_int r 10); simpl; [by rewrite lookup_insert_eq|done].
Qed.

(** C1 (the code departs from it): in the arrival scenario agent 0 moves
    right onto its destination in the first step of the episode.  The
    environment pays the raw +10 and sets the latch, but the reward the
    trainer compares with 10 is the shaped one, 11, so [done_dict[0]] stays
    false: in the next step the agent's action is not forced to 4 and the
    stored transition carries [done = False]. *)
Theorem fresh_arrival_not_flagged :
  ∃ ts0 ts1 d1 ts2 d2 l x rb,
    arrival_start = Some ts0 ∧
    train_step 2 (choices_of [3; 4]) ts0 = Some (ts1, d1) ∧
    step_locals (env ts0) (actions_of [3; 4]) = Some l ∧
    _arrived (env ts0) !! 0%nat = Some false ∧
    raw_rewards l !! 0%nat = Some 10 ∧
    _arrived (env ts1) !! 0%nat = Some true ∧
    shaped_rewards l !! 0%nat = Some x ∧
    Float32.eq_int x 11 = true ∧ Float32.eq_int x 10 = false ∧
    done_dict ts1 !! 0%nat = Some false ∧
    train_step 2 (choices_of [0; 4]) ts1 = Some (ts2, d2) ∧
    replay_buffers ts2 !! 0%nat = Some rb ∧
    t_action <$> last (buffer rb) = Some 0 ∧
    t_done <$> last (buffer rb) = Some false.
Proof.
  eexists _, _, _, _, _, _, _, _.
  split; [vm_compute; reflexivity|].
  split; [vm_compute; reflexivity|].
  split; [vm_compute; reflexivity|].
  repeat (split; [vm_compute; reflexivity|]).
  vm_compute; reflexivity.
Qed.

(** ** Rounding keeps a quotient of [[0, 1]] in [[0, 1]] *)

Lemma iter_pos_nat {A} (f : A → A) (p : positive) (x : A) :
  SpecFloat.iter_pos f p x = Nat.iter (Pos.to_nat p) f x.
Proof.
  revert x. induction p as [p IH|p IH|]; intros x; cbn [SpecFloat.iter_pos].
  - rewrite !IH, Pos2Nat.inj_xI, Nat.iter_succ_r, <-Nat.iter_add.
    f_equal. lia.
  - rewrite !IH, Pos2Nat.inj_xO, <-Nat.iter_add. f_equal. lia.
  - done.
Qed.

Lemma shr_1_spec (mrs : shr_record) :
  0 <= shr_m mrs →
  shr_m (shr_1 mrs) = shr_m mrs / 2 ∧
  shr_r (shr_1 mrs) = Z.odd (shr_m mrs) ∧
  shr_s (shr_1 mrs) = shr_r mrs || shr_s mrs.
Proof.
  destruct mrs as [m r s]. simpl. intros Hm.
  destruct m as [|[p|p|]|p]; simpl; try lia; repeat split; try done.
  - by rewrite (Pos2Z.inj_xI p), Z.add_comm, Z.mul_comm, Z.div_add, Z.add_0_l by lia.
  - by rewrite (Pos2Z.inj_xO p), Z.mul_comm, Z.div_mul by lia.
Qed.

(** Shifting right [n] times divides the mantissa by [2 ^ n]; shifting an
    exact multiple of [2 ^ n] loses nothing. *)
Lemma shr_iter_spec (n : nat) (mrs : shr_record) :
  0 <= shr_m mrs →
  shr_m (Nat.iter n shr_1 mrs) = shr_m mrs / 2 ^ Z.of_nat n ∧
  (shr_r mrs = false → shr_s mrs = false → shr_m mrs mod 2 ^ Z.of_nat n = 0 →
   shr_r (Nat.iter n shr_1 mrs) = false ∧ shr_s (Nat.iter n shr_1 mrs) = false).
Proof.
  intros Hm. induction n as [|n [IHm IHx]].
  - simpl. rewrite Z.div_1_r. by split.
  - simpl Nat.iter.
    assert (0 <= shr_m (Nat.iter n shr_1 mrs)) as Hpos.
    { rewrite IHm. apply Z.div_pos; lia. }
    destruct (shr_1_spec _ Hpos) as (Hm1 & Hr1 & Hs1).
    rewrite Hm1, Hr1, Hs1, IHm.
    replace (Z.of_nat (S n)) with (Z.of_nat n + 1) by lia.
    rewrite Z.pow_add_r, Z.pow_1_r by lia.
    split; [by rewrite Z.div_div by lia|].
    intros Hr Hs Hmod.
    assert (shr_m mrs mod 2 ^ Z.of_nat n = 0) as Hmod'.
    { apply Z.mod_divide in Hmod; [|lia]. apply Z.mod_divide; [lia|].
      destruct Hmod as [k Hk]. exists (k * 2). lia. }
    destruct (IHx Hr Hs Hmod') as [-> ->]. split; [|done].
    apply Z.mod_divide in Hmod; [|lia]. destruct Hmod as [k Hk].
    rewrite Hk.
    replace (k * (2 ^ Z.of_nat n * 2)) with (k * 2 * 2 ^ Z.of_nat n) by lia.
    rewrite Z.div_mul by lia. rewrite Z.mul_comm. by rewrite Z.odd_mul.
Qed.

Lemma digits2_pos_spec (m : positive) :
  2 ^ (Zpos (digits2_pos m) - 1) <= Zpos m < 2 ^ Zpos (digits2_pos m).
Proof.
  induction m as [m IH|m IH|]; simpl digits2_pos.
  - rewrite Pos2Z.inj_succ, (Pos2Z.inj_xI m).
    replace (Z.succ (Zpos (digits2_pos m)) - 1)
      with (Z.succ (Zpos (digits2_pos m) - 1)) by lia.
    rewrite !Z.pow_succ_r by lia. lia.
  - rewrite Pos2Z.inj_succ, (Pos2Z.inj_xO m).
    replace (Z.succ (Zpos (digits2_pos m)) - 1)
      with (Z.succ (Zpos (digits2_pos m) - 1)) by lia.
    rewrite !Z.pow_succ_r by lia. lia.
  - simpl. lia.
Qed.

Lemma loc_of_shr_record_of_loc (m : Z) (l : location) :
  loc_of_shr_record (shr_record_of_loc m l) = l ∧
  shr_m (shr_record_of_loc m l) = m.
Proof. by destruct l as [|[]]. Qed.

Section RoundingBound.
Variables prec emax : Z.
Hypothesis Hprec : 0 < prec.
Hypothesis Hemax : prec <= emax.
Hypothesis Hemin : 3 - emax - prec <= 0.

Lemma fexp_nonpos (d : Z) : d <= 1 → fexp prec emax d <= 0.
Proof using Hprec Hemin. unfold fexp, emin. lia. Qed.

Lemma loc_of_exact_record (mrs : shr_record) :
  shr_r mrs = false → shr_s mrs = false → loc_of_shr_record mrs = loc_Exact.
Proof. destruct mrs as [m r s]. simpl. by intros -> ->. Qed.

Lemma shr_fexp_at_most_one (m e : Z) (l : location) :
  at_most_one m e l →
  at_most_one (shr_m (fst (shr_fexp prec emax m e l)))
              (snd (shr_fexp prec emax m e l))
              (loc_of_shr_record (fst (shr_fexp prec emax m e l))).
Proof using Hprec Hemin.
  intros (Hm & He & Hle). unfold shr_fexp, shr.
  destruct (loc_of_shr_record_of_loc m l) as [Hloc Hmm].
  destruct (fexp prec emax (Zdigits2 m + e) - e) as [|p|p] eqn:Hn; simpl;
    rewrite ?Hloc, ?Hmm; try done.
  assert (fexp prec emax (Zdigits2 m + e) <= 0) as Hfexp.
  { apply fexp_nonpos. destruct m as [|m|m]; simpl; [lia| |lia].
    pose proof (digits2_pos_spec m) as [Hlo _].
    assert (2 ^ (Zpos (digits2_pos m) - 1) <= 2 ^ (- e)) as Hpow by lia.
    apply Z.pow_le_mono_r_iff in Hpow; lia. }
  rewrite iter_pos_nat.
  destruct (shr_iter_spec (Pos.to_nat p) (shr_record_of_loc m l)) as [Hdiv Hex];
    [by rewrite Hmm|].
  rewrite Hmm, positive_nat_Z in Hdiv, Hex. rewrite Hdiv.
  assert (2 ^ (- e) = 2 ^ (- (e + Zpos p)) * 2 ^ Zpos p) as Hsplit.
  { rewrite <-Z.pow_add_r by lia. f_equal. lia. }
  split; [apply Z.div_pos; lia|]. split; [lia|].
  destruct Hle as [Hlt|[Heq ->]].
  - left. apply Z.div_lt_upper_bound; [lia|]. rewrite Z.mul_comm. lia.
  - right. destruct Hex as [Hr Hs]; [done|done| |].
    { rewrite Heq, Hsplit. apply Z.mod_mul. lia. }
    split; [|by apply loc_of_exact_record].
    rewrite Heq, Hsplit. by rewrite Z.div_mul by lia.
Qed.

Lemma at_most_one_exact (m e : Z) :
  0 <= m → e <= 0 → m <= 2 ^ (- e) → at_most_one m e loc_Exact.
Proof.
  intros Hm He Hle. split; [done|]. split; [done|].
  destruct (decide (m < 2 ^ (- e))); [by left|]. right. split; [lia|done].
Qed.

Lemma round_nearest_even_at_most_one (m e : Z) (l : location) :
  at_most_one m e l → at_most_one (round_nearest_even m l) e loc_Exact.
Proof.
  intros (Hm & He & Hle).
  assert (m <= round_nearest_even m l <= m + 1) as Hrne.
  { unfold round_nearest_even. destruct l as [|[]]; try lia.
    destruct (Z.even m); lia. }
  destruct Hle as [Hlt|[Heq ->]]; apply at_most_one_exact; simpl; lia.
Qed.

(** Rounding a value of at most one gives a float of at most one. *)
Lemma binary_round_aux_unit (s : bool) (m e : Z) (l : location) :
  at_most_one m e l → unit_float s (binary_round_aux prec emax s m e l).
Proof using Hprec Hemax Hemin.
  intros H1. unfold binary_round_aux.
  pose proof (shr_fexp_at_most_one m e l H1) as H2.
  destruct (shr_fexp prec emax m e l) as [mrs' e']. simpl in H2.
  apply round_nearest_even_at_most_one in H2.
  apply shr_fexp_at_most_one in H2.
  destruct (shr_fexp prec emax _ e' loc_Exact) as [mrs'' e'']. simpl in H2.
  destruct H2 as (Hm & He & Hle).
  destruct (shr_m mrs'') as [|m''|m'']; simpl; [done| |lia].
  destruct (e'' <=? emax - prec) eqn:Hov.
  - simpl. repeat split; [done|]. destruct Hle as [?|[? _]]; lia.
  - apply Z.leb_gt in Hov. lia.
Qed.

Lemma binary_round_unit (s : bool) (m : positive) (e : Z) :
  e <= 0 → Zpos m <= 2 ^ (- e) →
  unit_float s (binary_round prec emax s m e).
Proof using Hprec Hemax Hemin.
  intros He Hm. unfold binary_round, shl_align.
  destruct (fexp prec emax (Zpos (digits2_pos m) + e) - e) as [|d|d] eqn:Hd;
    apply binary_round_aux_unit, at_most_one_exact; try lia.
  change (Pos.iter xO m d) with (shift_pos d m).
  rewrite Zpower.shift_pos_correct, Zpower.Zpower_pos_nat, Zpower.Zpower_nat_Z.
  rewrite positive_nat_Z.
  assert (fexp prec emax (Zpos (digits2_pos m) + e) = e - Zpos d) as -> by lia.
  assert (2 ^ (- (e - Zpos d)) = 2 ^ Zpos d * 2 ^ (- e)) as ->.
  { rewrite <-Z.pow_add_r by lia. f_equal. lia. }
  assert (0 < 2 ^ Zpos d) by (apply Z.pow_pos_nonneg; lia). nia.
Qed.

(** The quotient of [0 < a <= b], before rounding. *)
Lemma SFdiv_core_binary_at_most_one (a b : Z) :
  0 < a → a <= b →
  let '(m, e, l) := SFdiv_core_binary prec emax a 0 b 0 in at_most_one m e l.
Proof using Hprec Hemin.
  intros Ha Hab. unfold SFdiv_core_binary.
  set (e' := Z.min (fexp prec emax (Zdigits2 a + 0 - (Zdigits2 b + 0))) (0 - 0)).
  assert (e' <= 0) as He' by (unfold e'; lia).
  assert (match 0 - 0 - e' with
          | Zpos _ => Z.shiftl a (0 - 0 - e')
          | Z0 => a
          | Zneg _ => 0
          end = a * 2 ^ (- e')) as ->.
  { destruct (0 - 0 - e') as [|p|p] eqn:Hs; [|rewrite Z.shiftl_mul_pow2|]; try lia.
    - replace (- e') with 0 by lia. lia.
    - f_equal. f_equal. lia. }
  pose proof (Z_div_mod (a * 2 ^ (- e')) b) as Hdm.
  destruct (Z.div_eucl (a * 2 ^ (- e')) b) as [q r].
  destruct Hdm as [Hq Hr]; [lia|].
  assert (0 < 2 ^ (- e')) as Hpow by (apply Z.pow_pos_nonneg; lia).
  assert (0 <= q) as Hq0 by nia.
  split; [done|]. split; [done|].
  destruct (decide (q < 2 ^ (- e'))) as [|Hge]; [by left|]. right.
  assert (q = 2 ^ (- e') ∧ r = 0) as [-> ->] by nia.
  split; [done|]. unfold new_location, new_location_even, new_location_odd.
  by destruct (Z.even b).
Qed.
End RoundingBound.

Lemma in_unit_interval_zero (s : bool) : in_unit_interval (S754_zero s).
Proof. split; [done|]. unfold Qle. simpl. lia. Qed.

Lemma in_unit_interval_one : in_unit_interval Float32.one.
Proof. split; [done|]. unfold Qle. simpl. lia. Qed.

Lemma unit_float_in_unit_interval (x : spec_float) :
  unit_float false x → in_unit_interval x.
Proof.
  destruct x as [s|s| |s m e]; simpl; try done.
  intros (Hs & He & Hm). subst s. split; [done|]. unfold SF2Q. simpl.
  destruct e as [|p|p]; [| lia |].
  - simpl in Hm. rewrite Z.mul_1_r. unfold Qle. simpl. lia.
  - unfold Qle. simpl. change (- Z.neg p) with (Z.pos p) in Hm.
    rewrite Pos2Z.inj_pow. lia.
Qed.

(** The quotient of two integers [0 <= a <= b], [0 < b], computed in
    binary64 and stored in a [float32] array, lies in [[0, 1]]. *)
Lemma ratio32_unit (a b : Z) :
  0 <= a <= b → 0 < b →
  ∃ x, ratio32 a b = Some x ∧ in_unit_interval x.
Proof.
  intros Hab Hb. unfold ratio32, Float64.truediv.
  destruct (b =? 0) eqn:Hb0; [apply Z.eqb_eq in Hb0; lia|].
  destruct (a =? 0) eqn:Ha0.
  - simpl. destruct (b <? 0) eqn:Hbn; [apply Z.ltb_lt in Hbn; lia|].
    eexists. split; [done|]. apply in_unit_interval_zero.
  - apply Z.eqb_neq in Ha0.
    rewrite (Z.abs_eq a), (Z.abs_eq b) by lia.
    pose proof (SFdiv_core_binary_at_most_one Float64.prec Float64.emax
                  eq_refl ltac:(done) a b ltac:(lia) ltac:(lia)) as Hcore.
    destruct (SFdiv_core_binary _ _ a 0 b 0) as [[m e] l].
    destruct (a <? 0) eqn:Han; [apply Z.ltb_lt in Han; lia|].
    destruct (b <? 0) eqn:Hbn; [apply Z.ltb_lt in Hbn; lia|]. simpl xorb.
    pose proof (binary_round_aux_unit Float64.prec Float64.emax
                  eq_refl ltac:(done) ltac:(done) false m e l Hcore) as Hq.
    destruct (binary_round_aux _ _ false m e l) as [s|s| |s q eq]; simpl in Hq; try done.
    + subst s. simpl. eexists. split; [done|]. apply in_unit_interval_zero.
    + destruct Hq as (-> & Heq & Hle). simpl.
      eexists. split; [done|]. apply unit_float_in_unit_interval.
      by apply (binary_round_unit Float32.prec Float32.emax).
Qed.

(** ** The observation encoder *)

Lemma np_index_in_range (size idx : Z) :
  0 <= idx < size → np_index size idx = Some idx.
Proof.
  intros Hi. unfold np_index.
  destruct (0 <=? idx) eqn:H1; [|apply Z.leb_gt in H1; lia].
  destruct (idx <? size) eqn:H2; [done|apply Z.ltb_ge in H2; lia].
Qed.

Lemma np_set_ok (grid : Z * Z) (occ occ' : Array2) (c : Cell) :
  occupancy_ok grid occ → np_set occ c Float32.one = Some occ' →
  occupancy_ok grid occ'.
Proof.
  intros [Hshape Hone]. unfold np_set. intros H.
  destruct (np_index _ (fst c)) as [r|]; simpl in H; [|done].
  destruct (np_index _ (snd c)) as [k|]; simpl in H; [|done].
  injection H as <-. split; [done|]. simpl. intros c' v.
  rewrite lookup_insert. case_decide; [by intros [= <-]|apply Hone].
Qed.

Lemma np_set_shape (occ occ' : Array2) (c : Cell) (v : spec_float) :
  np_set occ c v = Some occ' → shape occ' = shape occ.
Proof.
  unfold np_set. intros H.
  destruct (np_index (fst (shape occ)) (fst c)) as [r|]; simpl in H; [|done].
  destruct (np_index (snd (shape occ)) (snd c)) as [k|]; simpl in H; [|done].
  by injection H as <-.
Qed.

Lemma np_set_total (grid : Z * Z) (occ : Array2) (c : Cell) (v : spec_float) :
  shape occ = grid → in_grid grid c → is_Some (np_set occ c v).
Proof.
  intros Hshape [Hx Hy]. unfold np_set. rewrite Hshape.
  rewrite !np_index_in_range by done. simpl. eauto.
Qed.

Lemma np_get_unit (grid : Z * Z) (occ : Array2) (c : Cell) (v : spec_float) :
  occupancy_ok grid occ → np_get occ c = Some v → in_unit_interval v.
Proof.
  intros [_ Hone]. unfold np_get. intros H.
  destruct (np_index _ (fst c)) as [r|]; simpl in H; [|done].
  destruct (np_index _ (snd c)) as [k|]; simpl in H; [|done].
  injection H as <-.
  destruct (entries occ !! (r, k)) as [v|] eqn:Hv; simpl.
  - rewrite (Hone _ _ Hv). apply in_unit_interval_one.
  - apply in_unit_interval_zero.
Qed.

Lemma getitem_elem {A} (d : list (nat * A)) (k : nat) (v : A) :
  Py.getitem d k = Some v → (k, v) ∈ d.
Proof.
  induction d as [|[k' v'] d IH]; simpl; [done|].
  case_bool_decide; [intros [= <-]; subst; left|right; auto].
Qed.

Lemma occupancy_grid_ok (obs : list (nat * Observation)) (grid : Z * Z)
    (occ : Array2) :
  occupancy_grid obs grid = Some occ → occupancy_ok grid occ.
Proof.
  unfold occupancy_grid, np_zeros. intros H.
  destruct (_ || _); simpl in H; [done|].
  destruct (head obs) as [[k first]|]; simpl in H; [|done].
  set (occ0 := {| shape := grid; entries := ∅ |}) in H.
  assert (occupancy_ok grid occ0) as H0.
  { split; [done|]. intros c v. unfold occ0. simpl. by rewrite lookup_empty. }
  match type of H with
  | ?m ≫= _ = _ => destruct m as [occ1|] eqn:H1; simpl in H; [|done]
  end.
  assert (occupancy_ok grid occ1) as Hok1.
  { destruct (obs_obstacles first) as [cells|]; [|by injection H1 as <-].
    revert H1. apply (for_invariant (λ _ occ, occupancy_ok grid occ)); [done|].
    intros done c s s' _ Hs Hset. by eapply np_set_ok. }
  revert H. apply (for_invariant (λ _ occ, occupancy_ok grid occ)); [done|].
  intros done j s s' _ Hs Hbody.
  destruct (Py.getitem obs j) as [o|]; simpl in Hbody; [|done].
  by eapply np_set_ok.
Qed.

Lemma occupancy_grid_total (obs : list (nat * Observation)) (grid : Z * Z) :
  0 <= fst grid → 0 <= snd grid → obs ≠ [] →
  Forall (λ ko, observation_in_grid grid ko.2) obs →
  (∀ j, (j < length obs)%nat → is_Some (Py.getitem obs j)) →
  is_Some (occupancy_grid obs grid).
Proof.
  intros HH HW Hne Hobs Hkeys. unfold occupancy_grid, np_zeros.
  destruct (fst grid <? 0) eqn:H1; [apply Z.ltb_lt in H1; lia|].
  destruct (snd grid <? 0) eqn:H2; [apply Z.ltb_lt in H2; lia|]. simpl.
  destruct (head obs) as [[k first]|] eqn:Hhead;
    [|by destruct obs]. simpl.
  assert (observation_in_grid grid first) as (_ & _ & Hcs).
  { rewrite Forall_forall in Hobs. apply (Hobs (k, first)).
    destruct obs; simpl in Hhead; [done|]. injection Hhead as ->. left. }
  set (occ0 := {| shape := grid; entries := ∅ |}).
  assert (∃ occ1,
    match obs_obstacles first with
    | Some cells => Py.for_ cells (λ c occ, np_set occ c Float32.one) occ0
    | None => Some occ0
    end = Some occ1 ∧ shape occ1 = grid) as (occ1 & -> & Hs1).
  { destruct (obs_obstacles first) as [cells|] eqn:Hcells; [|by eauto].
    apply (for_total (λ occ, shape occ = grid)); [done|].
    intros c s Hc Hs.
    destruct (np_set_total grid s c Float32.one Hs) as [s' Hs'].
    { simpl in Hcs. rewrite Forall_forall in Hcs. auto. }
    exists s'. split; [done|]. by rewrite (np_set_shape _ _ _ _ Hs'). }
  simpl.
  edestruct (for_total (λ occ, shape occ = grid)
               (Py.range 0 (length obs))) as (occ & -> & _);
    [exact Hs1| |done].
  intros j s Hj Hs. apply elem_of_range in Hj.
  destruct (Hkeys j) as [o Ho]; [lia|]. rewrite Ho. simpl.
  destruct (np_set_total grid s (position o) Float32.one Hs) as [s' Hs'].
  { apply getitem_elem in Ho. rewrite Forall_forall in Hobs.
    by destruct (Hobs _ Ho) as (? & _). }
  exists s'. split; [done|]. by rewrite (np_set_shape _ _ _ _ Hs').
Qed.

Lemma local_window_unit (occ : Array2) (grid : Z * Z) (x y : Z)
    (w : list spec_float) :
  occupancy_ok grid occ → local_window occ grid x y = Some w →
  length w = 9%nat ∧ Forall in_unit_interval w.
Proof.
  intros Hocc Hw. unfold local_window in Hw. apply mapM_Some_1 in Hw.
  split; [by apply Forall2_length in Hw|].
  eapply Forall2_Forall_r; [exact Hw|]. apply Forall_forall.
  intros off _ v Hv. simpl in Hv.
  destruct (_ && _); [by eapply np_get_unit|].
  injection Hv as <-. apply in_unit_interval_zero.
Qed.

Lemma local_window_total (occ : Array2) (grid : Z * Z) (x y : Z) :
  shape occ = grid → is_Some (local_window occ grid x y).
Proof.
  intros Hshape. unfold local_window. apply mapM_is_Some_2, Forall_forall.
  intros off _. simpl.
  destruct (0 <=? x + fst off) eqn:H1; simpl; [|by eauto].
  destruct (x + fst off <? fst grid) eqn:H2; simpl; [|by eauto].
  destruct (0 <=? y + snd off) eqn:H3; simpl; [|by eauto].
  destruct (y + snd off <? snd grid) eqn:H4; simpl; [|by eauto].
  apply Z.leb_le in H1, H3. apply Z.ltb_lt in H2, H4.
  unfold np_get. rewrite Hshape. simpl.
  rewrite !np_index_in_range by done. simpl. eauto.
Qed.

Section EncodeAgent.
Variables (H W : Z) (occ : Array2) (info : Observation).
Hypothesis HH : 2 <= H.
Hypothesis HW : 2 <= W.
Hypothesis Hpos : in_grid (H, W) (position info).
Hypothesis Hdest : in_grid (H, W) (destination info).

Lemma encode_agent_total :
  shape occ = (H, W) → is_Some (encode_agent occ (H, W) info).
Proof using HH HW Hpos Hdest.
  intros Hshape. unfold encode_agent.
  destruct (position info) as [x y], (destination info) as [dx dy].
  destruct Hpos as [Hx Hy], Hdest as [Hdx Hdy]. simpl in *.
  destruct (ratio32_unit x (H - 1)) as (p1 & -> & _); [lia..|].
  destruct (ratio32_unit y (W - 1)) as (p2 & -> & _); [lia..|].
  destruct (ratio32_unit dx (H - 1)) as (p3 & -> & _); [lia..|].
  destruct (ratio32_unit dy (W - 1)) as (p4 & -> & _); [lia..|]. simpl.
  destruct (local_window_total occ (H, W) x y Hshape) as [w ->]. simpl.
  destruct (ratio32_unit (Z.abs (x - dx) + Z.abs (y - dy)) (H - 1 + (W - 1)))
    as (dn & -> & _); [lia..|].
  simpl. eauto.
Qed.

Lemma encode_agent_unit (v : list spec_float) :
  occupancy_ok (H, W) occ → encode_agent occ (H, W) info = Some v →
  length v = 14%nat ∧ Forall in_unit_interval v.
Proof using HH HW Hpos Hdest.
  intros Hocc. unfold encode_agent.
  destruct (position info) as [x y], (destination info) as [dx dy].
  destruct Hpos as [Hx Hy], Hdest as [Hdx Hdy]. simpl in *.
  destruct (ratio32_unit x (H - 1)) as (p1 & -> & Hp1); [lia..|].
  destruct (ratio32_unit y (W - 1)) as (p2 & -> & Hp2); [lia..|].
  destruct (ratio32_unit dx (H - 1)) as (p3 & -> & Hp3); [lia..|].
  destruct (ratio32_unit dy (W - 1)) as (p4 & -> & Hp4); [lia..|]. simpl.
  destruct (local_window occ (H, W) x y) as [w|] eqn:Hw; simpl; [|done].
  destruct (local_window_unit occ (H, W) x y w Hocc Hw) as [Hlen Hunit].
  destruct (ratio32_unit (Z.abs (x - dx) + Z.abs (y - dy)) (H - 1 + (W - 1)))
    as (dn & -> & Hdn); [lia..|].
  simpl. intros [= <-]. split.
  - simpl. rewrite length_app, Hlen. done.
  - repeat (apply Forall_cons_2; [done|]).
    apply Forall_app. split; [done|]. by apply Forall_cons_2.
Qed.
End EncodeAgent.

Arguments encode_agent : simpl never.

(** C10: on a grid with at least two rows and two columns, for an
    observation map whose positions, destinations and obstacle cells lie
    within the grid, every state vector [obs_to_state] produces has 14
    components, each a finite float of the closed interval [[0, 1]]; and
    when the map is not empty and holds the keys [0 .. len(obs) - 1],
    [obs_to_state] does produce a vector for every key. *)
Theorem obs_to_state_unit_interval (obs : list (nat * Observation)) (H W : Z) :
  2 <= H → 2 <= W →
  Forall (λ ko, observation_in_grid (H, W) ko.2) obs →
  (∀ sd i v, obs_to_state obs (H, W) = Some sd → sd !! i = Some v →
             length v = 14%nat ∧ Forall in_unit_interval v) ∧
  (obs ≠ [] →
   (∀ j, (j < length obs)%nat → is_Some (Py.getitem obs j)) →
   ∃ sd, obs_to_state obs (H, W) = Some sd ∧
         ∀ k o, (k, o) ∈ obs → is_Some (sd !! k)).
Proof.
  intros HH HW Hobs. pose proof Hobs as Hall. rewrite Forall_forall in Hall.
  split.
  - intros sd i v Hsd. unfold obs_to_state in Hsd.
    destruct (occupancy_grid obs (H, W)) as [occ|] eqn:Hocc; simpl in Hsd; [|done].
    apply occupancy_grid_ok in Hocc. revert i v. revert Hsd.
    apply (for_invariant (λ _ (sd : gmap nat (list spec_float)),
             ∀ i v, sd !! i = Some v →
                    length v = 14%nat ∧ Forall in_unit_interval v)).
    { intros i v. by rewrite lookup_empty. }
    intros done [k o] s s' Hin IH Hbody i v. simpl in Hbody.
    destruct (encode_agent occ (H, W) o) as [st|] eqn:Hst;
      simpl in Hbody; [|done].
    injection Hbody as <-. rewrite lookup_insert. case_decide; [|by apply IH].
    intros [= <-]. destruct (Hall _ Hin) as (Hp & Hd & _).
    by apply (encode_agent_unit H W occ o).
  - intros Hne Hkeys. unfold obs_to_state.
    destruct (occupancy_grid_total obs (H, W)) as [occ Hocc];
      [simpl; lia|simpl; lia|done..|].
    rewrite Hocc. simpl. apply occupancy_grid_ok in Hocc as [Hshape _].
    assert (∀ l, (∀ ko, ko ∈ l → ko ∈ obs) → ∀ sd0 : gmap nat (list spec_float),
              ∃ sd, Py.for_ l (λ '(agent_id, info) state_dict,
                      state ← encode_agent occ (H, W) info;
                      Some (<[agent_id := state]> state_dict)) sd0 = Some sd ∧
                    ∀ k, (is_Some (sd0 !! k) ∨ ∃ o, (k, o) ∈ l) → is_Some (sd !! k))
      as Hloop.
    { induction l as [|[k o] l IH]; intros Hsub sd0; simpl.
      - exists sd0. split; [done|]. intros k [?|[o Ho]]; [done|].
        by apply elem_of_nil in Ho.
      - destruct (Hall (k, o)) as (Hp & Hd & _); [apply Hsub; left|].
        destruct (encode_agent_total H W occ o HH HW Hp Hd Hshape) as [st ->].
        simpl. destruct (IH (λ ko Hko, Hsub ko (list_elem_of_further _ _ _ Hko))
                    (<[k:=st]> sd0)) as (sd & -> & Hsd).
        exists sd. split; [done|]. intros k' [Hk'|[o' Ho']]; apply Hsd.
        + left. rewrite lookup_insert. by case_decide.
        + apply elem_of_cons in Ho' as [[= -> ->]|Ho'].
          * left. by rewrite lookup_insert_eq.
          * right. eauto. }
    destruct (Hloop obs (λ _ H', H') ∅) as (sd & -> & Hsd).
    exists sd. split; [done|]. intros k o Hko. apply Hsd. eauto.
Qed.

Lemma obs_to_state_unit_interval_witness :
  (∀ sd i v, obs_to_state arrival_obs (8, 8) = Some sd → sd !! i = Some v →
             length v = 14%nat ∧ Forall in_unit_interval v) ∧
  (arrival_obs ≠ [] →
   (∀ j, (j < length arrival_obs)%nat → is_Some (Py.getitem arrival_obs j)) →
   ∃ sd, obs_to_state arrival_obs (8, 8) = Some sd ∧
         ∀ k o, (k, o) ∈ arrival_obs → is_Some (sd !! k)).
Proof.
  apply obs_to_state_unit_interval; [lia|lia|].
  repeat constructor; simpl; lia.
Defined.


(** * Further properties of the grid world *)

Lemma desired_cell_old (e : TrafficRoutingEnv) (old : gmap nat Cell)
    (i : nat) (action : Z) :
  is_Some (desired_cell e old i action) → is_Some (old !! i).
Proof.
  unfold desired_cell. destruct (default false _); [done|].
  destruct (old !! i); [eauto|]. simpl. by intros [? ?].
Qed.

(** What the desired cell of an agent can be: its old cell, or the cell its
    move leads to. *)
Lemma desired_cell_cases (e : TrafficRoutingEnv) (old : gmap nat Cell)
    (i : nat) (action : Z) (c : Cell) :
  desired_cell e old i action = Some c →
  ∃ p, old !! i = Some p ∧ (c = p ∨ c = move (grid_size e) action p).
Proof.
  unfold desired_cell. destruct (default false _); [by eauto|].
  destruct (old !! i) as [p|]; simpl; [|done].
  intros [= <-]. exists p. split; [done|]. case_bool_decide; auto.
Qed.

Section StepFacts.
Variables (e : TrafficRoutingEnv) (actions : gmap nat Z) (l : StepLocals).
Hypothesis Hstep : step_locals e actions = Some l.

(** In a step that does not raise, every agent has a desired cell. *)
Lemma new_positions_defined (i : nat) :
  (i < num_agents e)%nat → is_Some (new_positions l !! i).
Proof using Hstep.
  intros Hi.
  destruct (step_locals_inv _ _ _ Hstep) as (_ & _ & Hsb & Hdc & Hcb & _).
  destruct (decide (i ∈ swap_blocked l)) as [Hin|Hnsb].
  { apply (compute_swap_blocked_spec _ _ _ _ Hsb) in Hin
      as (a & b & _ & [->| ->] & (p & q & ? & ? & ? & ?)); eauto. }
  destruct (decide (i ∈ collision_blocked l)) as [Hin|Hncb].
  { rewrite Hcb in Hin. apply (collision_blocked_spec _ _ _ _ i Hdc) in Hin
      as (_ & _ & b & c & _ & _ & _ & ? & _). eauto. }
  destruct (proj2 (final_positions_dom _ _ _ Hstep i) Hi) as [p Hp].
  rewrite (final_positions_lookup _ _ _ Hstep), decide_True in Hp by done.
  rewrite bool_decide_eq_false_2 in Hp by set_solver. eauto.
Qed.

Lemma step_locals_well_formed :
  well_formed_actions (num_agents e) actions.
Proof using Hstep.
  unfold well_formed_actions. apply set_eq. intros i.
  rewrite elem_of_dom, elem_of_set_seq.
  destruct (step_locals_inv _ _ _ Hstep) as (_ & Hnew & _). split.
  - intros [a Ha]. split; [lia|]. simpl.
    pose proof (compute_new_positions_defined _ _ _ _ Hnew i a Ha) as Hd.
    apply desired_cell_old in Hd.
    rewrite (old_positions_lookup _ _ _ Hstep) in Hd.
    case_decide; [done|]. by destruct Hd.
  - intros [_ Hi]. simpl in Hi.
    destruct (new_positions_defined i Hi) as [c Hc].
    rewrite (new_positions_lookup _ _ _ Hstep) in Hc.
    destruct (actions !! i); [eauto|done].
Qed.

(** The per-agent [dones] of the scoring loop. *)
Lemma dones_lookup (i : nat) (b : bool) :
  dones l !! i = Some b ↔
  (i < num_agents e)%nat ∧
  b = bool_decide (final_positions l !! i = destinations e !! i).
Proof using Hstep.
  destruct (step_locals_inv _ _ _ Hstep) as (_ & _ & _ & _ & _ & _ & Hsc & _).
  destruct (compute_scores_spec _ _ _ _ _ Hsc) as [Hlt Hge]. simpl in *.
  destruct (decide (i < num_agents e)%nat) as [Hi|Hi].
  - destruct (Hlt i Hi) as (p & d & Hp & Hd & _ & Hsco).
    rewrite Hp, Hd. unfold score_of in Hsco.
    assert (bool_decide (Some p = Some d) = bool_decide (p = d)) as ->.
    { apply bool_decide_ext. split; congruence. }
    destruct (bool_decide (p = d)); destruct Hsco as (_ & -> & _); naive_solver.
  - destruct (Hge i) as (_ & -> & _); [lia|]. naive_solver.
Qed.

Lemma all_values_dones :
  Py.all_values (dones l) = true ↔
  ∀ i, (i < num_agents e)%nat → final_positions l !! i = destinations e !! i.
Proof using Hstep.
  unfold Py.all_values. rewrite bool_decide_eq_true, map_Forall_lookup. split.
  - intros Hall i Hi.
    specialize (Hall i (bool_decide (final_positions l !! i = destinations e !! i))).
    eapply bool_decide_eq_true_1. apply Hall. by apply dones_lookup.
  - intros Hall i b Hb. apply dones_lookup in Hb as [Hi ->].
    apply bool_decide_eq_true_2. by apply Hall.
Qed.

(** An agent ends the step at most one cell away from where it started, and
    exactly where it started unless its action is one of the four moves. *)
Lemma final_positions_near (i : nat) (p q : Cell) :
  agent_positions e !! i = Some p → final_positions l !! i = Some q →
  manhattan q p <= 1 ∧
  (∀ a, actions !! i = Some a → ¬ (0 <= a <= 3) → q = p).
Proof using Hstep.
  intros Hp Hq.
  apply (final_positions_cases _ _ _ Hstep) in Hq as (Hi & [Hq|(a & Ha & Hq)]).
  - simplify_eq. split; [unfold manhattan; lia|done].
  - apply desired_cell_cases in Hq as (p' & Hp' & Hq).
    rewrite (old_positions_lookup _ _ _ Hstep), decide_True in Hp' by done.
    simplify_eq. destruct Hq as [->| ->].
    + split; [unfold manhattan; lia|done].
    + split; [apply move_adjacent|]. intros a' Ha' Hna.
      rewrite Ha in Ha'. injection Ha' as <-.
      destruct p as [x y]. unfold move.
      destruct (a =? 0) eqn:H0; [apply Z.eqb_eq in H0; lia|].
      destruct (a =? 1) eqn:H1; [apply Z.eqb_eq in H1; lia|].
      destruct (a =? 2) eqn:H2; [apply Z.eqb_eq in H2; lia|].
      destruct (a =? 3) eqn:H3; [apply Z.eqb_eq in H3; lia|]. done.
Qed.
End StepFacts.


Lemma TrafficRoutingEnv_init_dest_free (grid : Z * Z) (n : nat)
    (obs : option (list Cell)) (rng : nat → Z * Z) (e : TrafficRoutingEnv)
    (i : nat) (d : Cell) :
  TrafficRoutingEnv_init grid n obs rng = Some e →
  destinations e !! i = Some d → free_cell e d.
Proof.
  unfold TrafficRoutingEnv_init. intros H.
  destruct (Py.dict_range (λ i, random_cell grid (rng i)) n)
    as [init|] eqn:Hinit; simpl in H; [|done].
  destruct (Py.dict_range (λ i, random_cell grid (rng (n + i)%nat)) n)
    as [dest|] eqn:Hdest; simpl in H; [|done].
  destruct (Py.dict_range (λ _, Some false) n) as [arr|] eqn:Harr; simpl in H; [|done].
  destruct (check_obstacles _ _ _ _) as [[]|] eqn:Hchk; simpl in H; [|done].
  injection H as <-. simpl. intros Hd. pose proof Hd as Hd'.
  rewrite (dict_range_lookup _ _ _ Hdest) in Hd. case_decide as Hi; [|done].
  split; simpl; [by eapply random_cell_in_grid|].
  intros Hin. destruct (check_obstacles_spec _ _ _ _ Hchk d i Hin Hi). done.
Qed.

Lemma reachable_frame (e : TrafficRoutingEnv) :
  reachable e →
  ∃ grid n obs rng e0,
    TrafficRoutingEnv_init grid n obs rng = Some e0 ∧
    grid_size e = grid_size e0 ∧ num_agents e = num_agents e0 ∧
    obstacles e = obstacles e0 ∧ destinations e = destinations e0 ∧
    _initial_positions e = _initial_positions e0.
Proof.
  induction 1 as [grid n obs rng e Hinit|e e' o _ IH Hr|e actions e' r _ IH Hs].
  - exists grid, n, obs, rng, e. done.
  - destruct IH as (grid & n & obs & rng & e0 & Hinit & Hg & Hn & Ho & Hd & Hi).
    exists grid, n, obs, rng, e0. split; [done|].
    destruct (call_frame e Reset e') as (-> & -> & -> & -> & ->); [|done].
    simpl. by rewrite Hr.
  - destruct IH as (grid & n & obs & rng & e0 & Hinit & Hg & Hn & Ho & Hd & Hi).
    exists grid, n, obs, rng, e0. split; [done|].
    destruct (call_frame e (Step actions) e') as (-> & -> & -> & -> & ->); [|done].
    simpl. by rewrite Hs.
Qed.

Lemma reachable_dest_free (e : TrafficRoutingEnv) (i : nat) (d : Cell) :
  reachable e → destinations e !! i = Some d → free_cell e d.
Proof.
  intros Hreach Hd.
  destruct (reachable_frame e Hreach)
    as (grid & n & obs & rng & e0 & Hinit & Hg & Hn & Ho & Hd0 & Hi).
  rewrite Hd0 in Hd.
  destruct (TrafficRoutingEnv_init_dest_free _ _ _ _ _ _ _ Hinit Hd) as [Hin Hobs].
  split; [by rewrite Hg|by rewrite Ho].
Qed.

(** X1: on an object a program can hold, [step] raises exactly when the
    action map is not keyed by the agent ids [0 .. num_agents - 1]: a
    missing id and an unknown id are both a [KeyError]. *)
Theorem step_raises_iff_malformed (e : TrafficRoutingEnv) (actions : gmap nat Z) :
  reachable e →
  (is_Some (step e actions) ↔ well_formed_actions (num_agents e) actions).
Proof.
  intros Hreach. split.
  - intros [[e' r] Hs]. apply step_inv in Hs as (l & Hl & _).
    by eapply step_locals_well_formed.
  - intros Hwf. destruct (step_total e actions) as (e' & r & -> & _);
      [by apply reachable_ok|done|done].
Qed.

Lemma step_raises_iff_malformed_witness :
  ∃ e, arrival_env = Some e ∧
       (is_Some (step e (actions_of [3])) ↔
        well_formed_actions (num_agents e) (actions_of [3])) ∧
       step e (actions_of [3]) = None.
Proof.
  eexists. split; [vm_compute; reflexivity|]. split.
  - apply step_raises_iff_malformed.
    apply (reach_init (8, 8) 2 (Some [(1, 1)]) arrival_rng).
    vm_compute; reflexivity.
  - vm_compute; reflexivity.
Defined.

(** X2: a step that does not raise advances the step counter by one, and
    the episode-done flag it returns is true exactly when every agent
    stands on its destination or the counter has reached 50. *)
Theorem step_done_flag (e : TrafficRoutingEnv) (actions : gmap nat Z)
    (e' : TrafficRoutingEnv) (r : StepResult) :
  step e actions = Some (e', r) →
  steps e' = steps e + 1 ∧
  (done r = true ↔
   (∀ i, (i < num_agents e')%nat →
         agent_positions e' !! i = destinations e' !! i) ∨
   50 <= steps e').
Proof.
  intros Hs. apply step_inv in Hs as (l & Hl & -> & _ & _ & Hdone & _).
  simpl. split; [done|]. rewrite Hdone, orb_true_iff.
  rewrite (all_values_dones _ _ _ Hl), Z.leb_le. done.
Qed.

Lemma step_done_flag_witness :
  ∃ e e' r, arrival_env = Some e ∧ step e (actions_of [3; 4]) = Some (e', r) ∧
    steps e' = steps e + 1 ∧
    (done r = true ↔
     (∀ i, (i < num_agents e')%nat →
           agent_positions e' !! i = destinations e' !! i) ∨
     50 <= steps e').
Proof.
  eexists _, _, _. split; [vm_compute; reflexivity|].
  split; [vm_compute; reflexivity|].
  apply (step_done_flag _ (actions_of [3; 4])). vm_compute; reflexivity.
Defined.

(** X3: in one call of [step] an agent moves by at most one cell (Manhattan
    distance), and it stays where it is whenever its action is not one of
    the four moves 0..3 (action 4, or any other integer). *)
Theorem step_moves_one_cell (e : TrafficRoutingEnv) (actions : gmap nat Z)
    (e' : TrafficRoutingEnv) (r : StepResult) (i : nat) (p q : Cell) :
  step e actions = Some (e', r) →
  agent_positions e !! i = Some p →
  agent_positions e' !! i = Some q →
  manhattan q p <= 1 ∧
  (∀ a, actions !! i = Some a → ¬ (0 <= a <= 3) → q = p).
Proof.
  intros Hs Hp Hq. apply step_inv in Hs as (l & Hl & -> & _).
  by apply (final_positions_near _ _ _ Hl i).
Qed.

Lemma step_moves_one_cell_witness :
  ∃ e e' r, main_env = Some e ∧ step e (actions_of [1; 0; 7; 4]) = Some (e', r) ∧
    agent_positions e !! 2%nat = Some (0, 7) ∧
    agent_positions e' !! 2%nat = Some (0, 7) ∧
    manhattan (0, 7) (0, 7) <= 1 ∧
    (∀ a, actions_of [1; 0; 7; 4] !! 2%nat = Some a → ¬ (0 <= a <= 3) →
          (0, 7) = (0, 7)).
Proof.
  assert (∃ e e' r, main_env = Some e ∧
            step e (actions_of [1; 0; 7; 4]) = Some (e', r) ∧
            agent_positions e !! 2%nat = Some (0, 7) ∧
            agent_positions e' !! 2%nat = Some (0, 7))
    as (e & e' & r & H0 & H1 & H2 & H3)
    by (eexists _, _, _; repeat split; vm_compute; reflexivity).
  exists e, e', r. do 4 (split; [assumption|]).
  exact (step_moves_one_cell e _ e' r 2%nat (0, 7) (0, 7) H1 H2 H3).
Defined.

(** X4: after a step on an object a program can hold, an agent's arrival
    latch is true exactly when the agent stands on its destination. *)
Theorem latch_iff_at_destination (e : TrafficRoutingEnv) (actions : gmap nat Z)
    (e' : TrafficRoutingEnv) (r : StepResult) (i : nat) :
  reachable e →
  step e actions = Some (e', r) →
  (i < num_agents e)%nat →
  (_arrived e' !! i = Some true ↔
   agent_positions e' !! i = destinations e' !! i).
Proof.
  intros Hreach Hs Hi. pose proof (reachable_ok _ Hreach) as Hok.
  assert (env_ok e') as Hok' by by eapply step_ok.
  split; [apply (ok_latched _ Hok')|].
  apply step_inv in Hs as (l & Hl & -> & _). simpl.
  destruct (scores_after _ _ _ Hl i Hi) as (p & d & Hp & Hd & _ & Hsc).
  rewrite Hp, Hd. intros [= ->]. unfold score_of in Hsc.
  rewrite bool_decide_eq_true_2 in Hsc by done.
  by destruct Hsc as (_ & _ & ->).
Qed.

Lemma latch_iff_at_destination_witness :
  ∃ e e' r, arrival_env = Some e ∧ step e (actions_of [3; 4]) = Some (e', r) ∧
    (_arrived e' !! 0%nat = Some true ↔
     agent_positions e' !! 0%nat = destinations e' !! 0%nat).
Proof.
  assert (∃ e e' r, arrival_env = Some e ∧
            step e (actions_of [3; 4]) = Some (e', r) ∧
            (0 < num_agents e)%nat)
    as (e & e' & r & H0 & H1 & H2)
    by (eexists _, _, _; repeat split; [vm_compute; reflexivity..|vm_compute; lia]).
  exists e, e', r. do 2 (split; [assumption|]).
  exact (latch_iff_at_destination e _ e' r 0%nat
           (reach_init (8, 8) 2 (Some [(1, 1)]) arrival_rng e H0) H1 H2).
Defined.

(** X5: on every object a program can hold, each destination lies inside
    the grid and is not an obstacle cell. *)
Theorem destinations_stay_free (e : TrafficRoutingEnv) (i : nat) (d : Cell) :
  reachable e →
  destinations e !! i = Some d →
  0 <= fst d < fst (grid_size e) ∧ 0 <= snd d < snd (grid_size e) ∧
  d ∉ obstacles e.
Proof.
  intros Hreach Hd. destruct (reachable_dest_free e i d Hreach Hd) as [[? ?] ?].
  done.
Qed.

Lemma destinations_stay_free_witness :
  ∃ e, main_env = Some e ∧
    0 <= fst (5, 0) < fst (grid_size e) ∧ 0 <= snd (5, 0) < snd (grid_size e) ∧
    (5, 0) ∉ obstacles e.
Proof.
  eexists. split; [vm_compute; reflexivity|].
  apply (destinations_stay_free _ 2%nat).
  - apply (reach_init (8, 8) 4 (Some fixed_obstacles) main_rng).
    vm_compute; reflexivity.
  - vm_compute; reflexivity.
Defined.

(** ** Episodes and the step limit *)

Lemma episode_steps (acts : list (gmap nat Z)) :
  ∀ e e' rs, episode e acts = Some (e', rs) →
    steps e' = steps e + Z.of_nat (length acts) ∧
    length rs = length acts ∧
    ∀ k r, rs !! k = Some r → 50 <= steps e + Z.of_nat k + 1 → done r = true.
Proof.
  induction acts as [|a acts IH]; intros e e' rs; simpl.
  - intros [= <- <-]. split; [lia|]. split; [done|].
    intros k r Hk. by rewrite lookup_nil in Hk.
  - destruct (step e a) as [[e1 r1]|] eqn:Hs; simpl; [|done].
    destruct (episode e1 acts) as [[e2 rs']|] eqn:He; simpl; [|done].
    intros [= <- <-]. destruct (IH _ _ _ He) as (H1 & H2 & H3).
    apply step_inv in Hs as (l & Hl & -> & _ & _ & Hdone & _). simpl in *.
    split; [lia|]. split; [by rewrite H2|].
    intros [|k] r Hk Hge; simpl in Hk.
    + injection Hk as <-. rewrite Hdone. apply orb_true_iff. right.
      apply Z.leb_le. lia.
    + apply (H3 k r Hk). lia.
Qed.

Lemma episode_total (acts : list (gmap nat Z)) :
  ∀ e, env_ok e → Forall (well_formed_actions (num_agents e)) acts →
       is_Some (episode e acts).
Proof.
  induction acts as [|a acts IH]; intros e Hok Hwf; simpl; [done|].
  apply Forall_cons_1 in Hwf as [Ha Hwf].
  destruct (step_total e a Hok Ha) as (e1 & r1 & Hs & Hok1). rewrite Hs. simpl.
  destruct (IH e1 Hok1) as [[e2 rs] ->]; [|done].
  apply step_inv in Hs as (l & _ & -> & _). done.
Qed.

(** X6: an episode started on a freshly reset (or constructed) object with
    well-formed action maps never raises; the step counter equals the number
    of steps taken, and the fiftieth and every later step report the episode
    as done, wherever the agents are. *)
Theorem episode_capped (e : TrafficRoutingEnv) (acts : list (gmap nat Z)) :
  reachable e → steps e = 0 →
  Forall (well_formed_actions (num_agents e)) acts →
  ∃ e' rs, episode e acts = Some (e', rs) ∧
           steps e' = Z.of_nat (length acts) ∧
           length rs = length acts ∧
           ∀ k r, rs !! k = Some r → (49 ≤ k)%nat → done r = true.
Proof.
  intros Hreach Hsteps Hwf.
  destruct (episode_total acts e) as [[e' rs] Hep];
    [by apply reachable_ok|done|].
  exists e', rs. split; [done|].
  destruct (episode_steps _ _ _ _ Hep) as (H1 & H2 & H3).
  split; [lia|]. split; [done|].
  intros k r Hk Hge. apply (H3 k r Hk). lia.
Qed.

Lemma episode_capped_witness :
  ∃ e, arrival_env = Some e ∧
    ∃ e' rs, episode e (replicate 50 (actions_of [4; 0])) = Some (e', rs) ∧
             steps e' = Z.of_nat (length (replicate 50 (actions_of [4; 0]))) ∧
             length rs = length (replicate 50 (actions_of [4; 0])) ∧
             ∀ k r, rs !! k = Some r → (49 ≤ k)%nat → done r = true.
Proof.
  eexists. split; [vm_compute; reflexivity|].
  apply episode_capped.
  - apply (reach_init (8, 8) 2 (Some [(1, 1)]) arrival_rng).
    vm_compute; reflexivity.
  - vm_compute; reflexivity.
  - apply Forall_replicate. vm_compute; reflexivity.
Defined.

(** ** The shaped reward around an arrival *)

Lemma manhattan_refl (p : Cell) : manhattan p p = 0.
Proof. unfold manhattan. lia. Qed.

Lemma manhattan_zero (p q : Cell) : manhattan p q = 0 → p = q.
Proof.
  destruct p as [x y], q as [x' y']. unfold manhattan. simpl.
  intros H. f_equal; lia.
Qed.

Lemma manhattan_sym (p q : Cell) : manhattan p q = manhattan q p.
Proof. unfold manhattan. lia. Qed.

Lemma manhattan_nonneg (p q : Cell) : 0 <= manhattan p q.
Proof. unfold manhattan. lia. Qed.

Lemma manhattan_triangle (p q g : Cell) :
  manhattan p q <= 1 → manhattan q g - 1 <= manhattan p g <= manhattan q g + 1.
Proof. unfold manhattan. lia. Qed.

Lemma manhattan_in_grid (grid : Z * Z) (p q : Cell) :
  in_grid grid p → in_grid grid q →
  manhattan p q <= fst grid + snd grid - 2.
Proof. unfold in_grid, manhattan. lia. Qed.

(** The shaped reward of a step, with everything it is computed from. *)
Lemma step_reward (e : TrafficRoutingEnv) (actions : gmap nat Z)
    (e' : TrafficRoutingEnv) (r : StepResult) (i : nat) :
  step e actions = Some (e', r) → (i < num_agents e)%nat →
  ∃ l o g p b,
    step_locals e actions = Some l ∧ e' = env_after e l ∧
    agent_positions e !! i = Some o ∧ destinations e !! i = Some g ∧
    agent_positions e' !! i = Some p ∧
    default false (_arrived e !! i) = b ∧
    manhattan p o <= 1 ∧
    rewards r !! i =
      Some (shaped_reward (score_of (bool_decide (p = g)) b).1.1
                          (manhattan o g) (manhattan p g)).
Proof.
  intros Hs Hi. apply step_inv in Hs as (l & Hl & -> & _ & Hrew & _).
  destruct (shaped_rewards_lookup _ _ _ i Hl Hi)
    as (o & g & p & raw & Ho & Hg & Hp & Hraw & Hsh).
  destruct (scores_after _ _ _ Hl i Hi) as (p' & d' & Hp' & Hd' & _ & Hsc).
  rewrite Hp in Hp'. injection Hp' as <-. rewrite Hg in Hd'. injection Hd' as <-.
  exists l, o, g, p, (default false (_arrived e !! i)).
  do 5 (split; [done|]). split; [done|].
  split; [by apply (final_positions_near _ _ _ Hl i)|].
  rewrite Hrew, Hsh.
  destruct (score_of _ _) as [[raw' dn] la]. destruct Hsc as (Hraw' & _).
  rewrite Hraw in Hraw'. by injection Hraw' as <-.
Qed.

Lemma rewards_dom (e : TrafficRoutingEnv) (actions : gmap nat Z)
    (e' : TrafficRoutingEnv) (r : StepResult) (i : nat) :
  step e actions = Some (e', r) →
  is_Some (rewards r !! i) ↔ (i < num_agents e)%nat.
Proof.
  intros Hs. apply step_inv in Hs as (l & Hl & -> & _ & -> & _).
  destruct (step_locals_inv _ _ _ Hl) as (_ & _ & _ & _ & _ & _ & _ & Hsh).
  apply (dict_range_dom _ _ _ Hsh).
Qed.

(** X7: on an object a program can hold, an agent whose arrival latch is
    set receives the shaped reward [0.0] in every later step. *)
Theorem latched_reward_zero (e : TrafficRoutingEnv) (actions : gmap nat Z)
    (e' : TrafficRoutingEnv) (r : StepResult) (i : nat) :
  reachable e → step e actions = Some (e', r) →
  _arrived e !! i = Some true →
  rewards r !! i = Some (S754_zero false).
Proof.
  intros Hreach Hs Harr. pose proof (reachable_ok _ Hreach) as Hok.
  assert (i < num_agents e)%nat as Hi.
  { apply (ok_arrived_dom _ Hok). by rewrite Harr. }
  destruct (step_reward _ _ _ _ i Hs Hi)
    as (l & o & g & p & b & Hl & -> & Ho & Hg & Hp & Hb & Hnear & ->).
  rewrite Harr in Hb. simpl in Hb. subst b.
  pose proof (ok_latched _ Hok i Harr) as Hlat.
  rewrite Ho, Hg in Hlat. injection Hlat as ->.
  simpl in Hp. rewrite (latched_stays _ _ _ Hl i Harr), decide_True, Ho in Hp by done.
  injection Hp as <-.
  rewrite bool_decide_eq_true_2, manhattan_refl by done. done.
Qed.

Lemma latched_reward_zero_witness :
  ∃ e0 e r0 e' r,
    arrival_env = Some e0 ∧
    step e0 (actions_of [3; 4]) = Some (e, r0) ∧
    step e (actions_of [2; 0]) = Some (e', r) ∧
    _arrived e !! 0%nat = Some true ∧
    rewards r !! 0%nat = Some (S754_zero false).
Proof.
  eexists _, _, _, _, _.
  split; [vm_compute; reflexivity|]. split; [vm_compute; reflexivity|].
  split; [vm_compute; reflexivity|]. split; [vm_compute; reflexivity|].
  eapply (latched_reward_zero _ (actions_of [2; 0])).
  - eapply (reach_step _ (actions_of [3; 4])).
    + apply (reach_init (8, 8) 2 (Some [(1, 1)]) arrival_rng).
      vm_compute; reflexivity.
    + vm_compute; reflexivity.
  - vm_compute; reflexivity.
  - vm_compute; reflexivity.
Defined.

(** X8: the step in which an agent's latch gets set pays it the shaped
    reward [10.0] when the agent was already standing on its destination,
    and [11.0] when it moved onto it. *)
Theorem arrival_reward (e : TrafficRoutingEnv) (actions : gmap nat Z)
    (e' : TrafficRoutingEnv) (r : StepResult) (i : nat) :
  step e actions = Some (e', r) → (i < num_agents e)%nat →
  _arrived e !! i = Some false →
  agent_positions e' !! i = destinations e !! i →
  rewards r !! i =
    Some (if bool_decide (agent_positions e !! i = destinations e !! i)
          then Float32.of_int 10 else Float32.of_int 11).
Proof.
  intros Hs Hi Harr Hat.
  destruct (step_reward _ _ _ _ i Hs Hi)
    as (l & o & g & p & b & Hl & -> & Ho & Hg & Hp & Hb & Hnear & ->).
  rewrite Harr in Hb. simpl in Hb. subst b.
  rewrite Hp, Hg in Hat. injection Hat as ->.
  rewrite Ho, Hg, bool_decide_eq_true_2, manhattan_refl by done.
  pose proof (manhattan_nonneg o g). rewrite (manhattan_sym g o) in Hnear.
  case_bool_decide as Hog.
  - injection Hog as ->. rewrite manhattan_refl. done.
  - assert (manhattan o g = 1) as ->; [|done].
    destruct (decide (manhattan o g = 0)) as [H0|]; [|lia].
    apply manhattan_zero in H0. by subst.
Qed.

Lemma arrival_reward_witness :
  ∃ e e' r, arrival_env = Some e ∧
    step e (actions_of [3; 4]) = Some (e', r) ∧
    rewards r !! 0%nat =
      Some (if bool_decide (agent_positions e !! 0%nat = destinations e !! 0%nat)
            then Float32.of_int 10 else Float32.of_int 11).
Proof.
  eexists _, _, _. split; [vm_compute; reflexivity|].
  split; [vm_compute; reflexivity|].
  eapply (arrival_reward _ (actions_of [3; 4]) _ _ 0%nat).
  - vm_compute; reflexivity.
  - vm_compute; lia.
  - vm_compute; reflexivity.
  - vm_compute; reflexivity.
Defined.

(** The shaped reward of a step that pays the raw reward [-1], for every
    distance up to 1000 and each of the three distances the step can lead
    to: none of them is [10.0]. *)
Lemma shaped_step_table :
  forallb (λ k : nat,
             let d := Z.of_nat k in
             forallb (λ d', negb (Float32.eq_int (shaped_reward (-1) d d') 10))
                     [d - 1; d; d + 1])
          (seq 0 1001) = true.
Proof. vm_compute. reflexivity. Qed.

Lemma shaped_step_not_10 (d d' : Z) :
  0 <= d <= 1000 → d - 1 <= d' <= d + 1 →
  Float32.eq_int (shaped_reward (-1) d d') 10 = false.
Proof.
  intros Hd Hd'. pose proof shaped_step_table as Ht.
  rewrite forallb_forall in Ht. specialize (Ht (Z.to_nat d)).
  cbv zeta in Ht. rewrite Z2Nat.id in Ht by lia.
  rewrite forallb_forall in Ht.
  apply negb_true_iff, Ht.
  - apply in_seq. lia.
  - assert (d' = d - 1 ∨ d' = d ∨ d' = d + 1) as [->|[->| ->]] by lia.
    + by left.
    + right. by left.
    + right. right. by left.
Qed.

(** X9: on a grid whose two side lengths sum to at most 1002, the test
    [rewards[i] == 10] of the training loop holds exactly for an agent that
    was standing on its destination with its latch unset and stayed there;
    an agent that moves onto its destination does not pass it. *)
Theorem reward_is_10_iff (e : TrafficRoutingEnv) (actions : gmap nat Z)
    (e' : TrafficRoutingEnv) (r : StepResult) (i : nat) (x : spec_float) :
  reachable e → step e actions = Some (e', r) →
  fst (grid_size e) + snd (grid_size e) <= 1002 →
  rewards r !! i = Some x →
  (Float32.eq_int x 10 = true ↔
   _arrived e !! i = Some false ∧
   agent_positions e !! i = destinations e !! i ∧
   agent_positions e' !! i = destinations e !! i).
Proof.
  intros Hreach Hs Hgrid Hx. pose proof (reachable_ok _ Hreach) as Hok.
  assert (i < num_agents e)%nat as Hi.
  { apply (rewards_dom _ _ _ _ i Hs). by rewrite Hx. }
  destruct (step_reward _ _ _ _ i Hs Hi)
    as (l & o & g & p & b & Hl & -> & Ho & Hg & Hp & Hb & Hnear & Hrew).
  rewrite Hrew in Hx. injection Hx as <-. rewrite Ho, Hg, Hp.
  destruct (proj2 (ok_arrived_dom _ Hok i) Hi) as [b' Harr].
  rewrite Harr in Hb |- *. simpl in Hb. subst b'.
  pose proof (manhattan_nonneg o g) as Hnn.
  case_bool_decide as Hpg.
  - subst p. rewrite manhattan_refl. destruct b; simpl.
    + pose proof (ok_latched _ Hok i Harr) as Hlat.
      rewrite Ho, Hg in Hlat. injection Hlat as ->.
      rewrite manhattan_refl. split; [done|]. by intros [[=] _].
    + rewrite (manhattan_sym g o) in Hnear.
      destruct (decide (manhattan o g = 0)) as [H0|H0].
      * apply manhattan_zero in H0 as ->. rewrite manhattan_refl. done.
      * assert (manhattan o g = 1) as -> by lia. split; [done|].
        intros (_ & [= ->] & _). by rewrite manhattan_refl in H0.
  - assert ((score_of false b).1.1 = -1) as -> by done.
    rewrite shaped_step_not_10.
    + split; [done|]. intros (_ & _ & [= ->]). done.
    + split; [done|].
      apply (ok_pos_free _ Hok) in Ho as [Ho _].
      apply (reachable_dest_free _ _ _ Hreach) in Hg as [Hg _].
      pose proof (manhattan_in_grid _ _ _ Ho Hg). lia.
    + by apply manhattan_triangle.
Qed.

Lemma reward_is_10_iff_witness :
  ∃ e e' r x, arrival_env = Some e ∧
    step e (actions_of [3; 4]) = Some (e', r) ∧
    rewards r !! 0%nat = Some x ∧
    (Float32.eq_int x 10 = true ↔
     _arrived e !! 0%nat = Some false ∧
     agent_positions e !! 0%nat = destinations e !! 0%nat ∧
     agent_positions e' !! 0%nat = destinations e !! 0%nat).
Proof.
  eexists _, _, _, _. split; [vm_compute; reflexivity|].
  split; [vm_compute; reflexivity|]. split; [vm_compute; reflexivity|].
  eapply (reward_is_10_iff _ (actions_of [3; 4]) _ _ 0%nat).
  - apply (reach_init (8, 8) 2 (Some [(1, 1)]) arrival_rng).
    vm_compute; reflexivity.
  - vm_compute; reflexivity.
  - simpl; lia.
  - vm_compute; reflexivity.
Defined.

(** ** The collision count *)

(** X10: the collision count a step returns is never 1 (a collision always
    involves at least two agents) and never exceeds the number of agents. *)
Theorem collision_count_bounds (e : TrafficRoutingEnv) (actions : gmap nat Z)
    (e' : TrafficRoutingEnv) (r : StepResult) :
  step e actions = Some (e', r) →
  (num_collisions r ≤ num_agents e)%nat ∧ num_collisions r ≠ 1%nat.
Proof.
  intros Hs. apply step_inv in Hs as (l & Hl & _ & _ & _ & _ & ->).
  destruct (step_locals_inv _ _ _ Hl) as (_ & _ & Hsb & Hdc & Hcb & _).
  pose proof (compute_swap_blocked_spec _ _ _ _ Hsb) as Hsbs.
  assert (∀ a, a ∈ collision_blocked l ↔
               (a < num_agents e)%nat ∧ (a ∉ swap_blocked l) ∧
               ∃ b c, (b < num_agents e)%nat ∧ b ≠ a ∧ (b ∉ swap_blocked l) ∧
                      new_positions l !! a = Some c ∧
                      new_positions l !! b = Some c) as Hcbs.
  { intros a. rewrite Hcb. apply (collision_blocked_spec _ _ _ _ a Hdc). }
  assert (swap_blocked l ## collision_blocked l) as Hdisj.
  { intros a Ha Hb. apply Hcbs in Hb as (_ & Hn & _). done. }
  split.
  - rewrite <- size_union by done.
    rewrite <- (size_set_seq (C := gset nat) 0 (num_agents e)).
    apply subseteq_size. intros a [Ha|Ha]%elem_of_union; apply elem_of_set_seq.
    + apply (compute_swap_blocked_bound _ _ _ _ Hsb) in Ha. lia.
    + apply Hcbs in Ha as (Ha & _). lia.
  - intros Hone.
    assert ((size (swap_blocked l) = 1 ∧ size (collision_blocked l) = 0) ∨
            (size (swap_blocked l) = 0 ∧ size (collision_blocked l) = 1))%nat
      as [[H1 _]|[_ H1]] by lia.
    + apply size_1_elem_of in H1 as [a Ha]. apply leibniz_equiv in Ha.
      assert (a ∈ swap_blocked l) as Hin by (rewrite Ha; set_solver).
      apply Hsbs in Hin as (i & j & Hij & _ & Hsw).
      assert (i ∈ swap_blocked l) as Hi by (apply Hsbs; eauto 10).
      assert (j ∈ swap_blocked l) as Hj by (apply Hsbs; eauto 10).
      rewrite Ha in Hi, Hj. apply elem_of_singleton in Hi, Hj. lia.
    + apply size_1_elem_of in H1 as [a Ha]. apply leibniz_equiv in Ha.
      assert (a ∈ collision_blocked l) as Hin by (rewrite Ha; set_solver).
      apply Hcbs in Hin as (Han & Hasb & b & c & Hbn & Hba & Hbsb & Hna & Hnb).
      assert (b ∈ collision_blocked l) as Hb.
      { apply Hcbs. split; [done|]. split; [done|]. exists a, c. eauto. }
      rewrite Ha in Hb. apply elem_of_singleton in Hb. done.
Qed.

Lemma collision_count_bounds_witness :
  ∃ e e' r, row_env = Some e ∧ step e row_actions = Some (e', r) ∧
            (num_collisions r ≤ num_agents e)%nat ∧ num_collisions r ≠ 1%nat.
Proof.
  eexists _, _, _. split; [vm_compute; reflexivity|].
  split; [vm_compute; reflexivity|].
  eapply (collision_count_bounds _ row_actions).
  vm_compute; reflexivity.
Defined.

(** ** The constructor *)




(** ** What [reset] and [step] return *)

Lemma _get_observations_spec (e : TrafficRoutingEnv) (obs : list (nat * Observation)) :
  _get_observations e = Some obs →
  obs.*1 = seq 0 (num_agents e) ∧
  ∀ i o, (i, o) ∈ obs →
         agent_positions e !! i = Some (position o) ∧
         destinations e !! i = Some (destination o) ∧
         obs_obstacles o = Some (obstacles e).
Proof.
  unfold _get_observations.
  apply (for_upto_invariant (λ k (obs : list (nat * Observation)),
           obs.*1 = seq 0 k ∧
           ∀ i o, (i, o) ∈ obs →
                  agent_positions e !! i = Some (position o) ∧
                  destinations e !! i = Some (destination o) ∧
                  obs_obstacles o = Some (obstacles e))).
  { split; [done|]. intros i o Hin. by apply elem_of_nil in Hin. }
  intros k s s' Hk [IH1 IH2] Hbody. simpl in Hbody.
  destruct (agent_positions e !! k) as [p|] eqn:Hp; simpl in Hbody; [|done].
  destruct (destinations e !! k) as [d|] eqn:Hd; simpl in Hbody; [|done].
  injection Hbody as <-. split.
  - rewrite fmap_app, IH1, seq_S. done.
  - intros i o [Hin|Hin]%elem_of_app; [by apply IH2|].
    apply list_elem_of_singleton in Hin. injection Hin as -> ->. done.
Qed.

(** X12: [reset] forgets the history of the object: after any sequence of
    resets and steps it leaves the object in the same state, and returns the
    same observations, as a reset right after construction. *)
Theorem reset_forgets_history (e0 : TrafficRoutingEnv) (cs : list Call)
    (e : TrafficRoutingEnv) :
  run e0 cs = Some e → reset e = reset e0.
Proof.
  intros Hrun.
  destruct (run_frame _ _ _ Hrun) as (Hg & Hn & Ho & Hd & Hi).
  unfold reset, reset_env. by rewrite Hg, Hn, Ho, Hd, Hi.
Qed.

Lemma reset_forgets_history_witness :
  ∃ e0 e, main_env = Some e0 ∧
    run e0 [Step (actions_of [1; 0; 3; 3]); Step (actions_of [1; 1; 1; 1])] = Some e ∧
    reset e = reset e0.
Proof.
  eexists _, _. split; [vm_compute; reflexivity|].
  split; [vm_compute; reflexivity|].
  apply (reset_forgets_history _
           [Step (actions_of [1; 0; 3; 3]); Step (actions_of [1; 1; 1; 1])]).
  vm_compute; reflexivity.
Defined.

(** X13: on an object a program can hold, [reset] does not raise; the
    observation map it returns is keyed by the agent ids in increasing
    order and shows every agent at its initial position, with its
    destination and the obstacle list. *)
Theorem reset_observations (e : TrafficRoutingEnv) :
  reachable e →
  ∃ e' obs, reset e = Some (e', obs) ∧
    obs.*1 = seq 0 (num_agents e) ∧
    ∀ i o, (i, o) ∈ obs →
           _initial_positions e !! i = Some (position o) ∧
           destinations e !! i = Some (destination o) ∧
           obs_obstacles o = Some (obstacles e).
Proof.
  intros Hreach. destruct (reset_total e) as (e' & obs & Hr & _);
    [by apply reachable_ok|].
  exists e', obs. split; [done|].
  apply reset_inv in Hr as [Henv Hobs].
  apply reset_env_inv in Henv as (_ & Hn & _ & Hd & Ho & Hp & _).
  apply _get_observations_spec in Hobs. by rewrite Hn, Hd, Ho, Hp in Hobs.
Qed.

Lemma reset_observations_witness :
  ∃ e0 e r, arrival_env = Some e0 ∧
    step e0 (actions_of [3; 4]) = Some (e, r) ∧
    ∃ e' obs, reset e = Some (e', obs) ∧
      obs.*1 = seq 0 (num_agents e) ∧
      ∀ i o, (i, o) ∈ obs →
             _initial_positions e !! i = Some (position o) ∧
             destinations e !! i = Some (destination o) ∧
             obs_obstacles o = Some (obstacles e).
Proof.
  eexists _, _, _. split; [vm_compute; reflexivity|].
  split; [vm_compute; reflexivity|].
  apply reset_observations.
  eapply (reach_step _ (actions_of [3; 4])).
  - apply (reach_init (8, 8) 2 (Some [(1, 1)]) arrival_rng).
    vm_compute; reflexivity.
  - vm_compute; reflexivity.
Defined.

(** X14: the observation map a step returns is keyed by the agent ids in
    increasing order and shows every agent at the position it has after the
    step, with its destination and the obstacle list. *)
Theorem step_observations (e : TrafficRoutingEnv) (actions : gmap nat Z)
    (e' : TrafficRoutingEnv) (r : StepResult) :
  step e actions = Some (e', r) →
  (observations r).*1 = seq 0 (num_agents e) ∧
  ∀ i o, (i, o) ∈ observations r →
         agent_positions e' !! i = Some (position o) ∧
         destinations e !! i = Some (destination o) ∧
         obs_obstacles o = Some (obstacles e).
Proof.
  intros Hs. apply step_inv in Hs as (l & Hl & -> & Hobs & _).
  by apply _get_observations_spec in Hobs.
Qed.

Lemma step_observations_witness :
  ∃ e e' r, arrival_env = Some e ∧
    step e (actions_of [3; 4]) = Some (e', r) ∧
    (observations r).*1 = seq 0 (num_agents e) ∧
    ∀ i o, (i, o) ∈ observations r →
           agent_positions e' !! i = Some (position o) ∧
           destinations e !! i = Some (destination o) ∧
           obs_obstacles o = Some (obstacles e).
Proof.
  eexists _, _, _. split; [vm_compute; reflexivity|].
  split; [vm_compute; reflexivity|].
  apply (step_observations _ (actions_of [3; 4])).
  vm_compute; reflexivity.
Defined.

(** ** The replay buffer after any number of pushes *)

(** X15: a replay buffer constructed with capacity [c] holds, after any
    sequence of pushes, exactly the last [c] transitions pushed (all of them
    when there were fewer), oldest first. *)
Theorem replay_buffer_keeps_latest (c : Z) (rb : ReplayBuffer)
    (ts : list Transition) :
  ReplayBuffer_init c = Some rb →
  buffer (push_all rb ts) = drop (length ts - Z.to_nat c) ts ∧
  len (push_all rb ts) = Nat.min (length ts) (Z.to_nat c).
Proof.
  intros Hinit. pose proof (push_all_buffer c rb ts Hinit) as Hbuf.
  split; [done|]. unfold len. rewrite Hbuf, length_drop. lia.
Qed.

Lemma replay_buffer_keeps_latest_witness :
  ∃ rb, ReplayBuffer_init 2 = Some rb ∧
    buffer (push_all rb (map sample_transition [5; 6; 7; 8; 9])) =
      drop (length (map sample_transition [5; 6; 7; 8; 9]) - Z.to_nat 2)
           (map sample_transition [5; 6; 7; 8; 9]) ∧
    len (push_all rb (map sample_transition [5; 6; 7; 8; 9])) =
      Nat.min (length (map sample_transition [5; 6; 7; 8; 9])) (Z.to_nat 2).
Proof.
  eexists. split; [vm_compute; reflexivity|].
  apply replay_buffer_keeps_latest. vm_compute; reflexivity.
Defined.

(** ** Where the encoder raises *)

Lemma np_index_positive (size idx r : Z) :
  np_index size idx = Some r → 0 < size.
Proof.
  unfold np_index.
  destruct (0 <=? idx) eqn:H1, (idx <? size) eqn:H2; simpl;
    try (apply Z.leb_le in H1); try (apply Z.ltb_lt in H2); try lia.
  - destruct (- size <=? idx) eqn:H3, (idx <? 0) eqn:H4; simpl; try done.
    apply Z.ltb_lt in H4. lia.
  - destruct (- size <=? idx) eqn:H3, (idx <? 0) eqn:H4; simpl; try done.
    apply Z.leb_le in H3. apply Z.ltb_lt in H4. lia.
  - destruct (- size <=? idx) eqn:H3, (idx <? 0) eqn:H4; simpl; try done.
    apply Z.leb_le in H3. apply Z.ltb_lt in H4. lia.
Qed.

Lemma np_set_positive (occ occ' : Array2) (c : Cell) (v : spec_float) :
  np_set occ c v = Some occ' → 0 < fst (shape occ) ∧ 0 < snd (shape occ).
Proof.
  unfold np_set. intros H.
  destruct (np_index (fst (shape occ)) (fst c)) as [r|] eqn:Hr; simpl in H; [|done].
  destruct (np_index (snd (shape occ)) (snd c)) as [k|] eqn:Hk; simpl in H; [|done].
  split; by eapply np_index_positive.
Qed.

(** The occupancy grid of a non-empty observation map can only be built on
    a grid with a positive number of rows and of columns. *)
Lemma occupancy_grid_positive (obs : list (nat * Observation)) (grid : Z * Z)
    (occ : Array2) :
  obs ≠ [] → occupancy_grid obs grid = Some occ →
  0 < fst grid ∧ 0 < snd grid.
Proof.
  intros Hne. unfold occupancy_grid, np_zeros. intros H.
  destruct (_ || _); simpl in H; [done|].
  destruct (head obs) as [[k first]|]; simpl in H; [|done].
  match type of H with
  | ?m ≫= _ = _ => destruct m as [occ1|] eqn:H1; simpl in H; [|done]
  end.
  assert (shape occ1 = grid) as Hshape.
  { destruct (obs_obstacles first) as [cells|]; [|by injection H1 as <-].
    revert H1. apply (for_invariant (λ _ occ, shape occ = grid)); [done|].
    intros done c s s' _ Hs Hset. by rewrite (np_set_shape _ _ _ _ Hset). }
  destruct obs as [|ko obs]; [done|]. simpl in H.
  unfold Py.range in H. simpl in H.
  match type of H with
  | (?g ≫= _) ≫= _ = _ => destruct g as [o|]; simpl in H; [|done]
  end.
  destruct (np_set occ1 (position o) Float32.one) as [occ2|] eqn:Hset;
    simpl in H; [|done].
  apply np_set_positive in Hset. by rewrite Hshape in Hset.
Qed.

(** X16: [obs_to_state] raises on an empty observation map
    ([StopIteration]) and on every grid with fewer than two rows or fewer
    than two columns ([ZeroDivisionError] when a side is 1, [IndexError] or
    [ValueError] when it is smaller). *)
Theorem obs_to_state_raises (obs : list (nat * Observation)) (H W : Z) :
  obs = [] ∨ H <= 1 ∨ W <= 1 →
  obs_to_state obs (H, W) = None.
Proof.
  intros Hcase. unfold obs_to_state.
  destruct (occupancy_grid obs (H, W)) as [occ|] eqn:Hocc; simpl; [|done].
  destruct obs as [|[k o] obs].
  { unfold occupancy_grid in Hocc.
    by destruct (np_zeros (H, W)). }
  destruct (occupancy_grid_positive ((k, o) :: obs) (H, W) occ) as [HH HW]; [done..|].
  simpl in HH, HW.
  assert (encode_agent occ (H, W) o = None) as Henc.
  { unfold encode_agent.
    destruct (position o) as [x y], (destination o) as [dx dy].
    destruct Hcase as [?|[H1|W1]]; [done| |].
    - assert (H = 1) as -> by lia. done.
    - assert (W = 1) as -> by lia. simpl.
      by destruct (ratio32 x (H - 1)). }
  simpl. by rewrite Henc.
Qed.

Lemma obs_to_state_raises_witness : obs_to_state arrival_obs (1, 8) = None.
Proof. apply obs_to_state_raises. right. left. lia. Defined.

(** ** The encoder on the observations of an environment *)

Lemma getitem_total {A} (d : list (nat * A)) (k : nat) :
  k ∈ d.*1 → is_Some (Py.getitem d k).
Proof.
  induction d as [|[k' v] d IH]; simpl; [by intros ?%elem_of_nil|].
  intros Hin. case_bool_decide; [by eauto|].
  apply elem_of_cons in Hin as [->|Hin]; [done|by apply IH].
Qed.




Lemma obs_to_state_inv (obs : list (nat * Observation)) (grid : Z * Z)
    (sd : gmap nat (list spec_float)) :
  obs_to_state obs grid = Some sd →
  ∃ occ, occupancy_grid obs grid = Some occ ∧
         (∀ i v, sd !! i = Some v →
                 ∃ o, (i, o) ∈ obs ∧ encode_agent occ grid o = Some v) ∧
         (∀ i, is_Some (sd !! i) ↔ i ∈ obs.*1).
Proof.
  unfold obs_to_state. intros H.
  destruct (occupancy_grid obs grid) as [occ|] eqn:Hocc; simpl in H; [|done].
  exists occ. split; [done|]. revert H.
  apply (for_invariant (λ done (sd : gmap nat (list spec_float)),
           (∀ i v, sd !! i = Some v →
                   ∃ o, (i, o) ∈ done ∧ encode_agent occ grid o = Some v) ∧
           (∀ i, is_Some (sd !! i) ↔ i ∈ done.*1))).
  { split.
    - intros i v. by rewrite lookup_empty.
    - intros i. rewrite lookup_empty. simpl.
      split; [by intros []|by intros ?%elem_of_nil]. }
  intros done [k o] s s' Hin [IH1 IH2] Hbody. simpl in Hbody.
  destruct (encode_agent occ grid o) as [st|] eqn:Hst; simpl in Hbody; [|done].
  injection Hbody as <-. split.
  - intros i v. rewrite lookup_insert. case_decide as Hk.
    + intros [= <-]. subst i. exists o. split; [|done].
      apply elem_of_app. right. by apply list_elem_of_singleton.
    + intros Hv. destruct (IH1 i v Hv) as (o' & ? & ?). exists o'.
      split; [|done]. apply elem_of_app. by left.
  - intros i. rewrite lookup_insert_is_Some', fmap_app, elem_of_app, IH2. simpl.
    rewrite list_elem_of_singleton. naive_solver.
Qed.

Lemma obs_to_state_total (obs : list (nat * Observation)) (H W : Z) :
  2 <= H → 2 <= W → obs ≠ [] →
  Forall (λ ko, observation_in_grid (H, W) ko.2) obs →
  (∀ j, (j < length obs)%nat → is_Some (Py.getitem obs j)) →
  is_Some (obs_to_state obs (H, W)).
Proof.
  intros HH HW Hne Hobs Hkeys. unfold obs_to_state.
  destruct (occupancy_grid_total obs (H, W)) as [occ Hocc];
    [simpl; lia|simpl; lia|done..|].
  rewrite Hocc. simpl. apply occupancy_grid_ok in Hocc as [Hshape _].
  rewrite Forall_forall in Hobs.
  edestruct (for_total (St := gmap nat (list spec_float)) (λ _, True) obs)
    as (sd & -> & _); [done| |done].
  intros [k o] s Hin _. destruct (Hobs _ Hin) as (Hp & Hd & _).
  destruct (encode_agent_total H W occ o HH HW Hp Hd Hshape) as [st Hst].
  simpl. rewrite Hst. simpl. eauto.
Qed.

Lemma observations_in_grid (e : TrafficRoutingEnv) (obs : list (nat * Observation)) :
  reachable e → Forall (in_grid (grid_size e)) (obstacles e) →
  _get_observations e = Some obs →
  Forall (λ ko, observation_in_grid (grid_size e) ko.2) obs.
Proof.
  intros Hreach Hobst Hobs. pose proof (reachable_ok _ Hreach) as Hok.
  apply _get_observations_spec in Hobs as [_ Hobs].
  apply Forall_forall. intros [i o] Hin.
  destruct (Hobs i o Hin) as (Hp & Hd & Ho). simpl. split; [|split].
  - by destruct (ok_pos_free _ Hok _ _ Hp).
  - by destruct (reachable_dest_free _ _ _ Hreach Hd).
  - by rewrite Ho.
Qed.

Lemma observations_keys (e : TrafficRoutingEnv) (obs : list (nat * Observation)) :
  _get_observations e = Some obs →
  length obs = num_agents e ∧
  ∀ j, (j < num_agents e)%nat → is_Some (Py.getitem obs j).
Proof.
  intros Hobs. apply _get_observations_spec in Hobs as [Hkeys _].
  split.
  - by rewrite <- (length_fmap fst obs), Hkeys, length_seq.
  - intros j Hj. apply getitem_total. rewrite Hkeys. apply elem_of_seq. lia.
Qed.



(** ** The 3x3 window *)






(** ** The training loop *)

Lemma dict_range_dom_set {A} (f : nat → option A) (n : nat) (m : gmap nat A) :
  Py.dict_range f n = Some m → dom m = set_seq 0 n.
Proof.
  intros Hm. apply set_eq. intros i.
  rewrite elem_of_dom, (dict_range_dom _ _ _ Hm), elem_of_set_seq. lia.
Qed.

Lemma encode_total (e : TrafficRoutingEnv) (obs : list (nat * Observation)) :
  reachable e → encodable e → _get_observations e = Some obs →
  ∃ sd, obs_to_state obs (grid_size e) = Some sd ∧
        ∀ i, is_Some (sd !! i) ↔ (i < num_agents e)%nat.
Proof.
  intros Hreach (HH & HW & Hn & Hobst) Hobs.
  pose proof (observations_in_grid _ _ Hreach Hobst Hobs) as Hin.
  destruct (observations_keys _ _ Hobs) as [Hlen Hkeys].
  pose proof (_get_observations_spec _ _ Hobs) as [Hfst _].
  destruct (grid_size e) as [H W] eqn:Hgrid. simpl in HH, HW.
  destruct (obs_to_state_total obs H W) as [sd Hsd]; [done|done| |done| |].
  { intros ->. simpl in Hlen. lia. }
  { intros j Hj. apply Hkeys. lia. }
  exists sd. split; [done|].
  destruct (obs_to_state_inv _ _ _ Hsd) as (occ & _ & _ & Hdom).
  intros i. rewrite Hdom, Hfst, elem_of_seq. lia.
Qed.

Lemma encodable_frame (e e' : TrafficRoutingEnv) :
  grid_size e' = grid_size e → num_agents e' = num_agents e →
  obstacles e' = obstacles e → encodable e → encodable e'.
Proof. unfold encodable. by intros -> -> ->. Qed.


(** On a grid whose sides sum to at most 1002, a shaped reward equal to 10
    is only paid to an agent that stands on its destination, which the
    environment then has latched. *)
Lemma reward_10_latches (e : TrafficRoutingEnv) (actions : gmap nat Z)
    (e' : TrafficRoutingEnv) (r : StepResult) (i : nat) (x : spec_float) :
  reachable e → step e actions = Some (e', r) →
  fst (grid_size e) + snd (grid_size e) <= 1002 →
  rewards r !! i = Some x → Float32.eq_int x 10 = true →
  _arrived e' !! i = Some true.
Proof.
  intros Hreach Hs Hgrid Hx Heq. pose proof (reachable_ok _ Hreach) as Hok.
  assert (i < num_agents e)%nat as Hi.
  { apply (rewards_dom _ _ _ _ i Hs). by rewrite Hx. }
  destruct (step_reward _ _ _ _ i Hs Hi)
    as (l & o & g & p & b & Hl & -> & Ho & Hg & Hp & Hb & Hnear & Hrew).
  rewrite Hrew in Hx. injection Hx as <-. simpl in Hp |- *.
  destruct (decide (p = g)) as [->|Hne].
  - destruct (scores_after _ _ _ Hl i Hi) as (p' & d' & Hp' & Hd' & _ & Hsc).
    rewrite Hp in Hp'. injection Hp' as <-. rewrite Hg in Hd'. injection Hd' as <-.
    rewrite bool_decide_eq_true_2 in Hsc by done.
    destruct (default false (_arrived e !! i)); simpl in Hsc; by destruct Hsc as (_ & _ & ->).
  - rewrite bool_decide_eq_false_2 in Heq by done.
    assert ((score_of false b).1.1 = -1) as Hraw by done.
    rewrite Hraw, shaped_step_not_10 in Heq; [done| |].
    + split; [apply manhattan_nonneg|].
      apply (ok_pos_free _ Hok) in Ho as [Ho _].
      apply (reachable_dest_free _ _ _ Hreach) in Hg as [Hg _].
      pose proof (manhattan_in_grid _ _ _ Ho Hg). lia.
    + by apply manhattan_triangle.
Qed.













(** ** The colour grid of [render] *)








(** ** The loop of [animate] *)

Lemma latch_after_step (e : TrafficRoutingEnv) (actions : gmap nat Z)
    (e' : TrafficRoutingEnv) (r : StepResult) (i : nat) :
  env_ok e → step e actions = Some (e', r) → (i < num_agents e)%nat →
  (_arrived e' !! i = Some true ↔
   agent_positions e' !! i = destinations e !! i).
Proof.
  intros Hok Hs Hi. pose proof (step_ok _ _ _ _ Hok Hs) as Hok'.
  apply step_inv in Hs as (l & Hl & -> & _).
  split; [apply (ok_latched _ Hok')|]. simpl.
  destruct (scores_after _ _ _ Hl i Hi) as (p & d & Hp & Hd & _ & Hsc).
  rewrite Hp, Hd. intros [= ->]. unfold score_of in Hsc.
  rewrite bool_decide_eq_true_2 in Hsc by done.
  by destruct Hsc as (_ & _ & ->).
Qed.

(** The loop that records the first point of every trajectory. *)
Lemma positions_loop (n : nat) (e : TrafficRoutingEnv)
    (traj0 : gmap nat (list Cell)) :
  (∀ i, (i < n)%nat → is_Some (traj0 !! i) ∧ is_Some (agent_positions e !! i)) →
  ∃ traj,
    Py.for_ (Py.range 0 n) (record_position e) traj0 = Some traj ∧
    ∀ i, ((i < n)%nat →
          ∃ t p, traj0 !! i = Some t ∧ agent_positions e !! i = Some p ∧
                 traj !! i = Some (t ++ [p])) ∧
         ((n ≤ i)%nat → traj !! i = traj0 !! i).
Proof.
  intros Hdef.
  destruct (for_upto_total
    (λ k (traj : gmap nat (list Cell)),
       ∀ i, ((i < k)%nat →
             ∃ t p, traj0 !! i = Some t ∧ agent_positions e !! i = Some p ∧
                    traj !! i = Some (t ++ [p])) ∧
            ((k ≤ i)%nat → traj !! i = traj0 !! i))
    n (record_position e) traj0) as (traj & Hrun & Hpost).
  - intros i. split; [lia|done].
  - intros k traj Hk IH. destruct (Hdef k Hk) as [[t Ht] [p Hp]].
    destruct (IH k) as [_ Hkk]. unfold record_position.
    rewrite Hkk, Ht, Hp by lia. simpl. eexists. split; [done|]. intros i.
    destruct (decide (i = k)) as [->|Hik].
    + split; [|lia]. intros _. exists t, p. by rewrite lookup_insert_eq.
    + rewrite lookup_insert_ne by done. destruct (IH i) as [IH1 IH2].
      split; intros Hi; [apply IH1|apply IH2]; lia.
  - by exists traj.
Qed.

(** The loop over the agents inside the [while] loop of [animate]. *)
Lemma record_loop (n : nat) (e : TrafficRoutingEnv) (rewards : gmap nat spec_float)
    (dd0 : gmap nat bool) (traj0 : gmap nat (list Cell)) :
  (∀ i, (i < n)%nat →
        is_Some (rewards !! i) ∧ is_Some (agent_positions e !! i) ∧
        is_Some (destinations e !! i) ∧ is_Some (traj0 !! i)) →
  ∃ dd traj,
    Py.for_ (Py.range 0 n) (animate_record e rewards) (dd0, traj0) =
      Some (dd, traj) ∧
    ∀ i, ((i < n)%nat →
          ∃ r p d t,
            rewards !! i = Some r ∧ agent_positions e !! i = Some p ∧
            destinations e !! i = Some d ∧ traj0 !! i = Some t ∧
            traj !! i = Some (t ++ [p]) ∧
            dd !! i = if Float32.eq_int r 10 || bool_decide (p = d)
                      then Some true else dd0 !! i) ∧
         ((n ≤ i)%nat → dd !! i = dd0 !! i ∧ traj !! i = traj0 !! i).
Proof.
  intros Hdef.
  destruct (for_upto_total
    (λ k (s : gmap nat bool * gmap nat (list Cell)),
       ∀ i, ((i < k)%nat →
             ∃ r p d t,
               rewards !! i = Some r ∧ agent_positions e !! i = Some p ∧
               destinations e !! i = Some d ∧ traj0 !! i = Some t ∧
               s.2 !! i = Some (t ++ [p]) ∧
               s.1 !! i = if Float32.eq_int r 10 || bool_decide (p = d)
                          then Some true else dd0 !! i) ∧
            ((k ≤ i)%nat → s.1 !! i = dd0 !! i ∧ s.2 !! i = traj0 !! i))
    n (animate_record e rewards) (dd0, traj0)) as ([dd traj] & Hrun & Hpost).
  - intros i. split; [lia|done].
  - intros k [dd traj] Hk IH. simpl in IH.
    destruct (Hdef k Hk) as ([r Hr] & [p Hp] & [d Hd] & [t Ht]).
    destruct (IH k) as [_ Hkk]. destruct Hkk as [Hdk Htk]; [lia|].
    unfold animate_record, record_position. rewrite Hr. simpl.
    assert ((if Float32.eq_int r 10 then Some true
             else p0 ← agent_positions e !! k;
                  d0 ← destinations e !! k; Some (bool_decide (p0 = d0))) =
            Some (Float32.eq_int r 10 || bool_decide (p = d))) as ->.
    { rewrite Hp, Hd. simpl. by destruct (Float32.eq_int r 10). }
    simpl. rewrite Htk, Ht, Hp. simpl. eexists. split; [done|]. intros i. simpl.
    destruct (decide (i = k)) as [->|Hik].
    + split; [|lia]. intros _. exists r, p, d, t.
      rewrite lookup_insert_eq. repeat split; try done.
      destruct (_ || _); [by rewrite lookup_insert_eq|done].
    + assert ((if Float32.eq_int r 10 || bool_decide (p = d)
               then <[k:=true]> dd else dd) !! i = dd !! i) as ->.
      { destruct (_ || _); [by rewrite lookup_insert_ne|done]. }
      rewrite lookup_insert_ne by done. destruct (IH i) as [IH1 IH2].
      split; intros Hi; [apply IH1|apply IH2]; lia.
  - by exists dd, traj.
Qed.

Lemma head_snoc {A} (l : list A) (x : A) : l ≠ [] → head (l ++ [x]) = head l.
Proof. by destruct l. Qed.

(** A trajectory stays a path of steps of at most one cell when the next
    position is appended. *)
Lemma trajectory_snoc (t : list Cell) (p q : Cell) :
  last t = Some p → manhattan q p <= 1 →
  (∀ k a b, t !! k = Some a → t !! S k = Some b → manhattan b a <= 1) →
  ∀ k a b, (t ++ [q]) !! k = Some a → (t ++ [q]) !! S k = Some b →
           manhattan b a <= 1.
Proof.
  intros Hlast Hnear Hpath k a b Ha Hb.
  rewrite last_lookup in Hlast.
  destruct (decide (S k < length t)%nat) as [Hlt|Hge].
  - rewrite lookup_app_l in Ha, Hb by lia. by eapply Hpath.
  - assert (is_Some ((t ++ [q]) !! S k)) as Hsome by (by rewrite Hb).
    apply lookup_lt_is_Some in Hsome. rewrite length_app in Hsome.
    simpl in Hsome. assert (S k = length t) as Hk by lia.
    rewrite lookup_app_l in Ha by lia.
    rewrite lookup_app_r in Hb by lia.
    rewrite Hk, Nat.sub_diag in Hb. injection Hb as <-.
    rewrite <- Hk in Hlast. simpl in Hlast. rewrite Hlast in Ha.
    by injection Ha as <-.
Qed.

Lemma animate_start_ok (e : TrafficRoutingEnv) :
  reachable e → encodable e →
  fst (grid_size e) + snd (grid_size e) <= 1002 →
  ∃ s, animate_start e = Some s ∧ anim_inv e s ∧
       an_step s = 0 ∧ an_done s = false.
Proof.
  intros Hreach Henc Hgrid. pose proof (reachable_ok _ Hreach) as Hok.
  destruct (dict_range_total (λ _ : nat, Some ([] : list Cell)) (num_agents e))
    as [traj0 Htraj0]; [by eauto|].
  destruct (dict_range_total (λ _ : nat, Some false) (num_agents e))
    as [dd Hdd]; [by eauto|].
  destruct (reset_total e Hok) as (e' & obs & Hreset & Hok').
  pose proof (reach_reset _ _ _ Hreach Hreset) as Hreach'.
  pose proof Hreset as Hr. apply reset_inv in Hr as [Henv Hobs].
  apply reset_env_inv in Henv as (Hg & Hna & _ & Hd & Ho & Hp & Hst & Harr).
  assert (encodable e') as Henc' by by apply (encodable_frame e).
  destruct (encode_total _ _ Hreach' Henc' Hobs) as (sd & Hsd & Hdom).
  destruct (positions_loop (num_agents e') e' traj0) as (traj & Hloop & Hpost).
  { intros i Hi. split.
    - apply (dict_range_dom _ _ _ Htraj0). lia.
    - by apply (ok_pos_dom _ Hok'). }
  unfold animate_start. rewrite Htraj0. simpl. rewrite Hdd. simpl.
  rewrite Hreset. simpl. rewrite Hsd. simpl. rewrite Hloop. simpl.
  eexists. split; [done|]. split; [|done].
  pose proof (dict_range_false _ _ Hdd) as Hddl.
  split; simpl; try done.
  - by rewrite Hg.
  - intros i. by rewrite Hdom, Hna.
  - intros i. apply (dict_range_dom _ _ _ Hdd).
  - intros i. rewrite Hddl, Harr. case_decide; split; done.
  - intros i Hi. destruct (Hpost i) as [Hlt _].
    destruct Hlt as (t & p & Ht & Hpi & Hti); [lia|].
    rewrite (dict_range_lookup _ _ _ Htraj0), decide_True in Ht by done.
    injection Ht as <-. exists [p]. split; [done|]. split; [done|].
    rewrite Hp in Hpi. split; [done|]. split; [by rewrite Hp|].
    intros k a b _ Hb. by destruct k.
Qed.

Lemma animate_step_ok (e0 : TrafficRoutingEnv) (choices : nat → Z)
    (s : AnimState) :
  anim_inv e0 s → an_step s < 50 →
  ∃ s', animate_step choices s = Some s' ∧ anim_inv e0 s' ∧
        an_step s' = an_step s + 1.
Proof.
  intros [Hreach Henc Hgrid Hn Hdest Hst Hdn Hsteps Hrange Hdone Hall Hflag
          Hlatch Htraj] Hlt.
  pose proof (reachable_ok _ Hreach) as Hok.
  destruct (dict_range_total
              (λ i, st ← an_state_dict s !! i; d ← an_done_dict s !! i;
                    Some (select_action (choices i) d)) (num_agents (an_env s)))
    as [actions Hact].
  { intros i Hi. rewrite Hn in Hi. destruct (proj2 (Hst i) Hi) as [x ->].
    destruct (proj2 (Hdn i) Hi) as [d ->]. simpl. eauto. }
  destruct (step_total (an_env s) actions Hok) as (e' & res & Hstep & Hok').
  { unfold well_formed_actions. by eapply dict_range_dom_set. }
  pose proof (reach_step _ _ _ _ Hreach Hstep) as Hreach'.
  pose proof Hstep as Hs.
  apply step_inv in Hs as (l & Hl & He' & Hobs & Hrew & Hdoneres & _).
  assert (num_agents e' = num_agents e0) as Hn' by (by subst e').
  assert (destinations e' = destinations e0) as Hdest' by (by subst e').
  assert (grid_size e' = grid_size (an_env s)) as Hg' by (by subst e').
  assert (steps e' = an_step s + 1) as Hsteps' by (subst e'; simpl; lia).
  assert (encodable e') as Henc' by (by apply (encodable_frame (an_env s)); subst e').
  destruct (encode_total _ _ Hreach' Henc' Hobs) as (sd' & Hsd' & Hdom').
  destruct (record_loop (num_agents e') e' (rewards res) (an_done_dict s)
              (an_trajectories s)) as (dd & traj & Hloop & Hpost).
  { intros i Hi. split; [apply (rewards_dom _ _ _ _ i Hstep); lia|].
    split; [by apply (ok_pos_dom _ Hok')|].
    split; [by apply (ok_dest_dom _ Hok')|].
    destruct (Htraj i) as (t & -> & _); [lia|done]. }
  destruct (dict_range_total (λ i, agent_positions e' !! i) (num_agents e'))
    as [snapshot Hsnap].
  { intros i Hi. by apply (ok_pos_dom _ Hok'). }
  unfold animate_step. rewrite Hact. simpl. rewrite Hstep. simpl.
  rewrite Hsd'. simpl. rewrite Hloop. simpl. rewrite Hsnap. simpl.
  eexists. split; [done|]. split; [|done].
  assert (∀ i, (i < num_agents e0)%nat →
            (_arrived e' !! i = Some true ↔
             agent_positions e' !! i = destinations e0 !! i)) as Hlatch'.
  { intros i Hi. rewrite <- Hdest.
    apply (latch_after_step _ _ _ _ i Hok Hstep). lia. }
  split; simpl; try done.
  - by rewrite Hg'.
  - intros i. by rewrite Hdom', Hn'.
  - intros i. destruct (Hpost i) as [H1 H2].
    destruct (decide (i < num_agents e0)%nat) as [Hi|Hi].
    + destruct H1 as (r & p & d & t & _ & _ & _ & _ & _ & ->); [lia|].
      split; [done|]. intros _.
      destruct (Float32.eq_int r 10 || bool_decide (p = d)); [by eauto|].
      by apply Hdn.
    + destruct H2 as [-> _]; [lia|]. apply Hdn.
  - lia.
  - intros H50. rewrite Hdoneres. apply orb_true_iff. right.
    apply Z.leb_le. lia.
  - rewrite length_app. simpl. lia.
  - intros i. destruct (Hpost i) as [H1 H2].
    destruct (decide (i < num_agents e0)%nat) as [Hi|Hi].
    + destruct H1 as (r & p & d & t & Hr & Hp & Hd & _ & _ & ->); [lia|].
      rewrite (Hlatch' i Hi), Hp, <- Hdest', Hd.
      destruct (Float32.eq_int r 10) eqn:H10; simpl.
      * split; [|done]. intros _.
        assert (_arrived e' !! i = Some true) as Harr.
        { exact (reward_10_latches _ _ _ _ i r Hreach Hstep Hgrid Hr H10). }
        apply (Hlatch' i Hi) in Harr. by rewrite Hp, <- Hdest', Hd in Harr.
      * case_bool_decide as Hpd; [by subst|].
        split; [|by intros [= ->]].
        intros Hdd. apply Hflag in Hdd.
        assert (_arrived e' !! i = Some true) as Harr.
        { subst e'. simpl. by destruct (latched_no_bonus _ _ _ _ Hl Hdd). }
        apply (Hlatch' i Hi) in Harr. by rewrite Hp, <- Hdest', Hd in Harr.
    + destruct H2 as [-> _]; [lia|]. split.
      * intros Hdd. assert (is_Some (an_done_dict s !! i)) as Hsome
          by (by rewrite Hdd). apply Hdn in Hsome. lia.
      * intros Harr. assert (is_Some (_arrived e' !! i)) as Hsome
          by (by rewrite Harr). apply (ok_arrived_dom _ Hok') in Hsome. lia.
  - intros i Hi. destruct (Hpost i) as [H1 _].
    destruct H1 as (r & p & d & t & _ & Hp & _ & Ht & Ht' & _); [lia|].
    destruct (Htraj i Hi) as (t0 & Ht0 & Hlen & Hhead & Hlast & Hpath).
    rewrite Ht in Ht0. injection Ht0 as <-.
    exists (t ++ [p]). split; [done|].
    split; [rewrite length_app; simpl; lia|].
    split; [rewrite head_snoc; [done|]; intros ->; simpl in Hlen; lia|].
    split; [by rewrite last_snoc|].
    destruct (proj2 (ok_pos_dom _ Hok i)) as [po Hpo]; [lia|].
    apply (trajectory_snoc t po p); [by rewrite Hlast| |done].
    subst e'. simpl in Hp.
    by destruct (final_positions_near _ _ _ Hl i po p Hpo Hp).
Qed.

(** The [while] loop with enough fuel to exhaust its condition. *)
Lemma animate_loop_ok (e0 : TrafficRoutingEnv) (choices : nat → nat → Z)
    (fuel : nat) :
  ∀ s, anim_inv e0 s → 50 <= an_step s + Z.of_nat fuel →
    ∃ s', animate_loop fuel choices s = Some s' ∧ anim_inv e0 s' ∧
          (an_done s' = true ∨ 50 <= an_step s') ∧
          (an_done s = false → an_step s < 50 → an_step s < an_step s').
Proof.
  induction fuel as [|fuel IH]; intros s Hinv Hfuel; simpl.
  { exists s. split; [done|]. split; [done|]. split; [right; lia|lia]. }
  destruct (an_done s) eqn:Hd; simpl.
  { exists s. split; [done|]. split; [done|]. split; [by left|done]. }
  destruct (an_step s <? 50) eqn:Hlt.
  - apply Z.ltb_lt in Hlt.
    destruct (animate_step_ok e0 (choices (Z.to_nat (an_step s))) s Hinv Hlt)
      as (s1 & -> & Hinv1 & Hstep1). simpl.
    destruct (IH s1 Hinv1) as (s' & Hrun & Hinv' & Hexit & Hgrow); [lia|].
    exists s'. split; [done|]. split; [done|]. split; [done|].
    intros _ _. pose proof (ai_range _ _ Hinv1) as Hr1.
    destruct (an_done s1) eqn:Hd1.
    + destruct fuel; simpl in Hrun; [|rewrite Hd1 in Hrun; simpl in Hrun];
        injection Hrun as <-; lia.
    + destruct (decide (an_step s1 < 50)) as [Hlt1|Hge1]; [specialize (Hgrow eq_refl Hlt1); lia|].
      pose proof (ai_done _ _ Hinv1) as Hdone1. rewrite Hd1 in Hdone1.
      assert (50 <= an_step s1) as H50 by lia. apply Hdone1 in H50. done.
  - apply Z.ltb_ge in Hlt. exists s. split; [done|]. split; [done|].
    split; [by right|lia].
Qed.

(** X23: on an environment a program can hold that can be encoded, on a
    grid whose sides sum to at most 1002, the loop of [animate] never raises
    and its 50 possible iterations exhaust the loop condition: it ends with
    [done] true after between 1 and 50 steps.  There is one snapshot per
    step; every trajectory starts at the agent's initial position, ends at
    its current position, has one point more than there were steps and moves
    by at most one cell from point to point; and an agent's done flag is set
    exactly when the agent stands on its destination. *)
Theorem animate_ok (choices : nat → nat → Z) (e : TrafficRoutingEnv) :
  reachable e → encodable e →
  fst (grid_size e) + snd (grid_size e) <= 1002 →
  ∃ s, animate choices e = Some s ∧
       an_done s = true ∧ 1 <= an_step s <= 50 ∧
       steps (an_env s) = an_step s ∧
       Z.of_nat (length (an_all_steps s)) = an_step s ∧
       ∀ i, (i < num_agents e)%nat →
         (an_done_dict s !! i = Some true ↔
          agent_positions (an_env s) !! i = destinations e !! i) ∧
         ∃ t, an_trajectories s !! i = Some t ∧
              Z.of_nat (length t) = an_step s + 1 ∧
              head t = _initial_positions e !! i ∧
              last t = agent_positions (an_env s) !! i ∧
              ∀ k p q, t !! k = Some p → t !! S k = Some q →
                       manhattan q p <= 1.
Proof.
  intros Hreach Henc Hgrid.
  destruct (animate_start_ok e Hreach Henc Hgrid) as (s0 & Hstart & Hinv0 & Hs0 & Hd0).
  destruct (animate_loop_ok e choices 50 s0 Hinv0)
    as (s & Hrun & Hinv & Hexit & Hgrow); [lia|].
  exists s. split; [unfold animate; by rewrite Hstart|].
  pose proof (ai_range _ _ Hinv) as Hrange.
  assert (an_done s = true) as Hdone.
  { destruct Hexit as [?|H50]; [done|]. by apply (ai_done _ _ Hinv). }
  assert (1 <= an_step s) as H1 by (specialize (Hgrow Hd0); lia).
  split; [done|]. split; [lia|].
  split; [apply (ai_steps _ _ Hinv)|]. split; [apply (ai_all_steps _ _ Hinv)|].
  intros i Hi. split; [|by apply (ai_traj _ _ Hinv)].
  rewrite (ai_flagged _ _ Hinv). by apply (ai_latched _ _ Hinv).
Qed.

Lemma animate_ok_witness :
  ∃ e, arrival_env = Some e ∧
    ∃ s, animate (λ _, choices_of [3; 1]) e = Some s ∧
         an_done s = true ∧ 1 <= an_step s <= 50 ∧
         steps (an_env s) = an_step s ∧
         Z.of_nat (length (an_all_steps s)) = an_step s ∧
         ∀ i, (i < num_agents e)%nat →
           (an_done_dict s !! i = Some true ↔
            agent_positions (an_env s) !! i = destinations e !! i) ∧
           ∃ t, an_trajectories s !! i = Some t ∧
                Z.of_nat (length t) = an_step s + 1 ∧
                head t = _initial_positions e !! i ∧
                last t = agent_positions (an_env s) !! i ∧
                ∀ k p q, t !! k = Some p → t !! S k = Some q →
                         manhattan q p <= 1.
Proof.
  eexists. split; [vm_compute; reflexivity|].
  apply animate_ok.
  - apply (reach_init (8, 8) 2 (Some [(1, 1)]) arrival_rng).
    vm_compute; reflexivity.
  - split; [simpl; lia|]. split; [simpl; lia|]. split; [simpl; lia|].
    simpl. repeat constructor; simpl; lia.
  - simpl; lia.
Defined.

(** ** How two agents come to share a cell *)

(** X24: when no two agents share a cell before a step and two agents share
    one after it, exactly one of the two was blocked: it stayed where it
    was, and the other one, which was not blocked, moved onto its cell. *)
Theorem merge_only_into_blocked (e : TrafficRoutingEnv) (actions : gmap nat Z)
    (e' : TrafficRoutingEnv) (r : StepResult) (i j : nat) :
  step e actions = Some (e', r) →
  pairwise_distinct (num_agents e) (agent_positions e) →
  (i < num_agents e)%nat → (j < num_agents e)%nat → i ≠ j →
  agent_positions e' !! i = agent_positions e' !! j →
  ∃ l, step_locals e actions = Some l ∧
       ((i ∈ swap_blocked l ∪ collision_blocked l ∧
         (j ∉ swap_blocked l ∪ collision_blocked l) ∧
         agent_positions e' !! i = agent_positions e !! i ∧
         agent_positions e' !! j = agent_positions e !! i) ∨
        (j ∈ swap_blocked l ∪ collision_blocked l ∧
         (i ∉ swap_blocked l ∪ collision_blocked l) ∧
         agent_positions e' !! j = agent_positions e !! j ∧
         agent_positions e' !! i = agent_positions e !! j)).
Proof.
  intros Hs Hdist Hi Hj Hij Heq.
  apply step_inv in Hs as (l & Hl & -> & _). simpl in *.
  exists l. split; [done|].
  assert (∀ k, (k < num_agents e)%nat →
               k ∈ swap_blocked l ∪ collision_blocked l →
               final_positions l !! k = agent_positions e !! k) as Hstay.
  { intros k Hk Hin.
    rewrite (final_positions_lookup _ _ _ Hl), decide_True by done.
    rewrite bool_decide_eq_true_2 by done.
    by rewrite (old_positions_lookup _ _ _ Hl), decide_True. }
  destruct (decide (i ∈ swap_blocked l ∪ collision_blocked l)) as [Hbi|Hbi];
    destruct (decide (j ∈ swap_blocked l ∪ collision_blocked l)) as [Hbj|Hbj].
  - exfalso. apply (Hdist i j Hi Hj Hij).
    by rewrite <- (Hstay i), <- (Hstay j).
  - left. pose proof (Hstay i Hi Hbi) as Hsi.
    split; [done|]. split; [done|]. split; [done|]. by rewrite <- Heq.
  - right. pose proof (Hstay j Hj Hbj) as Hsj.
    split; [done|]. split; [done|]. split; [done|]. by rewrite Heq.
  - exfalso. by apply (unblocked_agents_distinct _ _ _ i j Hl).
Qed.

Lemma merge_only_into_blocked_witness :
  ∃ e e' r,
    row_env = Some e ∧ step e row_actions = Some (e', r) ∧
    ∃ l, step_locals e row_actions = Some l ∧
         ((0%nat ∈ swap_blocked l ∪ collision_blocked l ∧
           (1%nat ∉ swap_blocked l ∪ collision_blocked l) ∧
           agent_positions e' !! 0%nat = agent_positions e !! 0%nat ∧
           agent_positions e' !! 1%nat = agent_positions e !! 0%nat) ∨
          (1%nat ∈ swap_blocked l ∪ collision_blocked l ∧
           (0%nat ∉ swap_blocked l ∪ collision_blocked l) ∧
           agent_positions e' !! 1%nat = agent_positions e !! 1%nat ∧
           agent_positions e' !! 0%nat = agent_positions e !! 1%nat)).
Proof.
  eexists _, _, _. split; [vm_compute; reflexivity|].
  split; [vm_compute; reflexivity|].
  eapply (merge_only_into_blocked _ row_actions _ _ 0%nat 1%nat).
  - vm_compute; reflexivity.
  - intros i j Hi Hj Hij. simpl in Hi, Hj.
    destruct i as [|[|[|i]]]; destruct j as [|[|[|j]]]; try lia; by vm_compute.
  - simpl; lia.
  - simpl; lia.
  - lia.
  - vm_compute; reflexivity.
Defined.

(** ** The sign of the shaped reward *)

(** The shaped reward of a step that pays the raw reward [-1], for every
    distance up to 100 and each distance the step can lead to that is not
    0: it is positive exactly when the distance went down. *)
Lemma shaped_sign_table :
  forallb (λ k : nat,
             let d := Z.of_nat k in
             forallb (λ d', (d' <? 1) ||
                            Bool.eqb (is_positive (shaped_reward (-1) d d'))
                                     (d' <? d))
                     [d - 1; d; d + 1])
          (seq 0 101) = true.
Proof. vm_compute. reflexivity. Qed.

Lemma shaped_sign (d d' : Z) :
  0 <= d <= 100 → d - 1 <= d' <= d + 1 → 1 <= d' →
  is_positive (shaped_reward (-1) d d') = (d' <? d).
Proof.
  intros Hd Hd' H1. pose proof shaped_sign_table as Ht.
  rewrite forallb_forall in Ht. specialize (Ht (Z.to_nat d)).
  cbv zeta in Ht. rewrite Z2Nat.id in Ht by lia.
  rewrite forallb_forall in Ht.
  assert ((d' <? 1) || Bool.eqb (is_positive (shaped_reward (-1) d d')) (d' <? d)
          = true) as Hor.
  { apply Ht.
    - apply in_seq. lia.
    - assert (d' = d - 1 ∨ d' = d ∨ d' = d + 1) as [->|[->| ->]] by lia.
      + by left.
      + right. by left.
      + right. right. by left. }
  apply orb_true_iff in Hor as [Hlt|Heq].
  - apply Z.ltb_lt in Hlt. lia.
  - by apply Bool.eqb_prop in Heq.
Qed.

(** X25: on a grid whose two side lengths sum to at most 102, an agent that
    is not on its destination after a step receives a positive shaped reward
    exactly when the step brought it closer to its destination; standing
    still and moving away are never rewarded. *)
Theorem shaped_reward_rewards_progress (e : TrafficRoutingEnv)
    (actions : gmap nat Z) (e' : TrafficRoutingEnv) (r : StepResult) (i : nat)
    (p q g : Cell) (x : spec_float) :
  reachable e → step e actions = Some (e', r) →
  fst (grid_size e) + snd (grid_size e) <= 102 →
  agent_positions e !! i = Some p → agent_positions e' !! i = Some q →
  destinations e !! i = Some g → q ≠ g →
  rewards r !! i = Some x →
  (is_positive x = true ↔ manhattan q g < manhattan p g).
Proof.
  intros Hreach Hs Hgrid Hp Hq Hg Hqg Hx. pose proof (reachable_ok _ Hreach) as Hok.
  assert (i < num_agents e)%nat as Hi.
  { apply (rewards_dom _ _ _ _ i Hs). by rewrite Hx. }
  destruct (step_reward _ _ _ _ i Hs Hi)
    as (l & o & g' & p' & b & Hl & -> & Ho & Hg' & Hp' & Hb & Hnear & Hrew).
  rewrite Hp in Ho. injection Ho as <-. rewrite Hg in Hg'. injection Hg' as <-.
  rewrite Hq in Hp'. injection Hp' as <-.
  rewrite Hrew in Hx. injection Hx as <-.
  rewrite bool_decide_eq_false_2 by done.
  assert ((score_of false b).1.1 = -1) as -> by done.
  pose proof (manhattan_nonneg p g) as Hnn.
  pose proof (manhattan_nonneg q g) as Hnn'.
  rewrite shaped_sign.
  - apply Z.ltb_lt.
  - split; [done|].
    apply (ok_pos_free _ Hok) in Hp as [Hp _].
    apply (reachable_dest_free _ _ _ Hreach) in Hg as [Hg _].
    pose proof (manhattan_in_grid _ _ _ Hp Hg). lia.
  - by apply manhattan_triangle.
  - destruct (decide (manhattan q g = 0)) as [H0|]; [|lia].
    by apply manhattan_zero in H0.
Qed.

Lemma shaped_reward_rewards_progress_witness :
  ∃ e e' r x,
    shaping_env = Some e ∧ step e (actions_of [1]) = Some (e', r) ∧
    rewards r !! 0%nat = Some x ∧
    (is_positive x = true ↔ manhattan (1, 0) (2, 3) < manhattan (0, 0) (2, 3)).
Proof.
  eexists _, _, _, _. split; [vm_compute; reflexivity|].
  split; [vm_compute; reflexivity|]. split; [vm_compute; reflexivity|].
  eapply (shaped_reward_rewards_progress _ (actions_of [1]) _ _ 0%nat).
  - apply (reach_init (8, 8) 1 None shaping_rng). vm_compute; reflexivity.
  - vm_compute; reflexivity.
  - simpl; lia.
  - vm_compute; reflexivity.
  - vm_compute; reflexivity.
  - vm_compute; reflexivity.
  - intros [=].
  - vm_compute; reflexivity.
Defined.

(** ** Trainer and environment must agree on the number of agents *)

(** X26: an iteration of the training step loop raises ([KeyError])
    whenever the trainer's number of agents differs from the environment's:
    the action dictionary the trainer builds then has the wrong keys for
    [step], if it can be built at all. *)
Theorem train_step_agent_mismatch (n : nat) (choices : nat → Z) (ts : TrainState) :
  n ≠ num_agents (env ts) → train_step n choices ts = None.
Proof.
  intros Hn. unfold train_step.
  destruct (Py.dict_range _ n) as [actions|] eqn:Hact; simpl; [|done].
  destruct (step (env ts) actions) as [[e' res]|] eqn:Hs; simpl; [|done].
  exfalso. apply Hn.
  apply step_inv in Hs as (l & Hl & _).
  pose proof (step_locals_well_formed _ _ _ Hl) as Hwf.
  unfold well_formed_actions in Hwf.
  rewrite (dict_range_dom_set _ _ _ Hact) in Hwf.
  rewrite <- (size_set_seq (C := gset nat) 0 n), Hwf.
  apply size_set_seq.
Qed.

Lemma train_step_agent_mismatch_witness :
  ∃ ts, arrival_start = Some ts ∧
        train_step 3 (choices_of [3; 4; 4]) ts = None.
Proof.
  eexists. split; [vm_compute; reflexivity|].
  apply train_step_agent_mismatch. vm_compute. lia.
Defined.
